(** * pyseqmatcher: a DAWG builder and a sparse Levenshtein automaton

    Shallow embedding of [src/levenshtein.py] and [src/dawg.py].

    - Python [str] values are lists of characters ([list ascii]); the order
      [<=] on [str] is the lexicographic order on character codes.
    - Costs are Python numbers; the embedding takes the integer ones ([Z]):
      the budget, [max_cost] and every value of a cost table or function
      are [int]s, on which [+], [*], [min] and [<=] are exact.  Float
      costs, whose sums and products are rounded, are outside it.
    - [collections.OrderedDict] and [dict] are association lists kept in
      insertion order: assigning to a present key overwrites in place,
      assigning to an absent key appends.
    - [DawgNode] objects are mutable and shared; they live in a store indexed
      by their [_id], and every reference to a node is its [_id]. *)

From Stdlib Require Import ZArith Ascii String Sorted Lia.
From Stdlib Require Import DecimalString DecimalNat.
From stdpp Require Import base numbers list strings relations.

Local Open Scope Z_scope.

(** ** Python strings *)

Definition str := list ascii.

Definition chars (s : string) : str := list_ascii_of_string s.

(** [s[i]] for an index [0 <= i < len(s)].  [step] reads [self._str[idx + 1]]
    for a key [idx] of a state with [idx + 1 <> len(self._str)], and the
    keys of the states the automaton produces lie between -1 and
    [len(self._str) - 1] (lemma [produced_keys_range]). *)
Definition char_at (s : str) (i : Z) : ascii :=
  nth (Z.to_nat i) s Ascii.zero.

Definition len {A} (l : list A) : Z := Z.of_nat (length l).

(** ** Ordered dictionaries with integer keys *)

Module OD.

Definition t := list (Z * Z).

Definition keys (s : t) : list Z := map fst s.

(** [s.get(k)] *)
Fixpoint get (k : Z) (s : t) : option Z :=
  match s with
  | [] => None
  | (k', v) :: r => if Z.eqb k' k then Some v else get k r
  end.

(** [s[k]] where [k] is known to be a key of [s] *)
Definition at_ (s : t) (k : Z) : Z := default 0 (get k s).

(** [s[k] = v] *)
Fixpoint set (k v : Z) (s : t) : t :=
  match s with
  | [] => [(k, v)]
  | (k', v') :: r => if Z.eqb k' k then (k, v) :: r else (k', v') :: set k v r
  end.

End OD.

(** ** Cost arguments of the automaton *)

(** A cost argument is [None], a [dict] or a function
    ([types.FunctionType]); its values are integers. *)
Inductive cost_arg (K : Type) : Type :=
  | CostNone
  | CostTable (table : list (K * Z))
  | CostFun (f : K -> Z).
Arguments CostNone {K}.
Arguments CostTable {K} table.
Arguments CostFun {K} f.

(** [table.get(k, dflt)] on a [dict] keyed by characters *)
Fixpoint table_get (k : ascii) (table : list (ascii * Z)) (dflt : Z) : Z :=
  match table with
  | [] => dflt
  | (k', v) :: r => if Ascii.eqb k' k then v else table_get k r dflt
  end.

(** [table.get((x, y), dflt)] on a [dict] keyed by pairs of characters *)
Fixpoint table_get2 (x y : ascii) (table : list ((ascii * ascii) * Z))
    (dflt : Z) : Z :=
  match table with
  | [] => dflt
  | ((x', y'), v) :: r =>
      if Ascii.eqb x' x && Ascii.eqb y' y then v else table_get2 x y r dflt
  end.

(** ** SparseLevenshteinAutomaton *)

Record SparseLevenshteinAutomaton := {
  _str : str;
  _d : Z;
  _icost : ascii -> Z;
  _dcost : ascii -> Z;
  _rcost : ascii -> ascii -> Z
}.

(** The three branches of [__init__] that normalise a cost argument. *)
Definition unary_cost (c : cost_arg ascii) : ascii -> Z :=
  match c with
  | CostNone => fun x => table_get x [] 1
  | CostTable table => fun x => table_get x table 1
  | CostFun f => f
  end.

Definition replace_cost_fun (c : cost_arg (ascii * ascii)) : ascii -> ascii -> Z :=
  match c with
  | CostNone =>
      fun x y => if negb (Ascii.eqb x y) then table_get2 x y [] 1 else 0
  | CostTable table =>
      fun x y => if negb (Ascii.eqb x y) then table_get2 x y table 1 else 0
  | CostFun f => fun x y => f (x, y)
  end.

(** [SparseLevenshteinAutomaton.__init__] *)
Definition new_automaton (string : str) (max_distance : Z)
    (insert_cost delete_cost : cost_arg ascii)
    (replace_cost : cost_arg (ascii * ascii)) : SparseLevenshteinAutomaton :=
  {| _str := string;
     _d := max_distance;
     _icost := unary_cost insert_cost;
     _dcost := unary_cost delete_cost;
     _rcost := replace_cost_fun replace_cost |}.

Section Automaton.

Variable self : SparseLevenshteinAutomaton.

(** The [for i, char in enumerate(self._str)] loop of [start_state]; the
    [else: break] branch returns the state built so far. *)
Fixpoint start_loop (i : Z) (rest : str) (cost : Z) (state : OD.t) : OD.t :=
  match rest with
  | [] => state
  | char :: rest' =>
      let cost := cost + _dcost self char in
      if cost <=? _d self
      then start_loop (i + 1) rest' cost (OD.set i cost state)
      else state
  end.

Definition start_state : OD.t :=
  let cost := 0 in
  let state := OD.set (-1) cost [] in
  start_loop 0 (_str self) cost state.

(** Body of the [for i, idx in enumerate(state.keys())] loop of [step]. *)
Definition step_body (char : ascii) (state : OD.t) (new_state : OD.t)
    (idx : Z) : OD.t :=
  if idx + 1 =? len (_str self) then new_state
  else
    let cost := OD.at_ state idx + _rcost self char (char_at (_str self) (idx + 1)) in
    let cost :=
      match OD.get idx new_state with
      | Some v => Z.min (v + _dcost self (char_at (_str self) (idx + 1))) cost
      | None => cost
      end in
    let cost :=
      match OD.get (idx + 1) state with
      | Some v => Z.min (v + _icost self char) cost
      | None => cost
      end in
    if cost <=? _d self then OD.set (idx + 1) cost new_state else new_state.

(** [step] once [state] is a dictionary. *)
Definition step_state (char : ascii) (state : OD.t) : OD.t :=
  let new_state :=
    match state with
    | [] => []
    | (key, v) :: _ =>
        let cost := OD.at_ state key + _icost self char in
        if cost <=? _d self then OD.set key cost [] else []
    end in
  foldl (step_body char state) new_state (OD.keys state).

(** [step(char, state=None)] *)
Definition step (char : ascii) (state : option OD.t) : OD.t :=
  step_state char (default start_state state).

Definition can_match (state : OD.t) : bool :=
  match state with [] => false | _ => true end.

(** [state.get(len(self._str) - 1, self._d + 1) <= self._d] *)
Definition is_match (state : OD.t) : bool :=
  default (_d self + 1) (OD.get (len (_str self) - 1) state) <=? _d self.

(** The state after feeding the characters of [word], one [step] each. *)
Definition run (word : str) : OD.t :=
  foldl (fun state char => step char (Some state)) start_state word.

End Automaton.

(** [levenshtein_distance]; [None] is the [KeyError] of the final
    [state[len(from_str) - 1]]. *)
Definition levenshtein_distance (from_str to_str : str) (max_cost : Z)
    (insert_cost delete_cost : cost_arg ascii)
    (replace_cost : cost_arg (ascii * ascii)) : option Z :=
  let lev_auto :=
    new_automaton from_str ((len from_str + len to_str) * max_cost)
      insert_cost delete_cost replace_cost in
  let state := run lev_auto to_str in
  OD.get (len from_str - 1) state.

(** The call with every keyword argument left at its default. *)
Definition levenshtein_distance_default (from_str to_str : str) : option Z :=
  levenshtein_distance from_str to_str 1 CostNone CostNone CostNone.

(** ** Specification-level notions for the automaton *)

(** Strictly ascending key lists *)
Definition ascending (l : list Z) : Prop := StronglySorted Z.lt l.

Definition costs_within (d : Z) (s : OD.t) : Prop :=
  Forall (fun e => snd e <= d) s.

(** The states the automaton produces: [start_state()], and [step] applied
    to a produced state. *)
Inductive produced (self : SparseLevenshteinAutomaton) : OD.t -> Prop :=
  | produced_start : produced self (start_state self)
  | produced_step char state :
      produced self state -> produced self (step self char (Some state)).

(** A full row: position [i - 1] holds [f i], for [i < k]. *)
Definition rowf (f : nat -> Z) (k : nat) : OD.t :=
  map (fun i : nat => (Z.of_nat i - 1, f i)) (seq 0 k).

(** Sum of [f] over the characters of a string. *)
Definition sum_costs (f : ascii -> Z) (s : str) : Z :=
  foldr (fun c acc => f c + acc) 0 s.

(** ** Weighted edit distance: the dynamic-programming table *)

(** [lev_dp ic dc rc a b i j] is the cell [D[i][j]] of the Wagner-Fischer
    table for turning the first [i] characters of [a] into the first [j]
    characters of [b]: deleting a character [x] of [a] costs [dc x],
    inserting a character [y] of [b] costs [ic y], and replacing [x] by [y]
    costs [rc y x]. *)
Fixpoint lev_dp (ic dc : ascii -> Z) (rc : ascii -> ascii -> Z) (a b : str)
    (i : nat) : nat -> Z :=
  match i with
  | O =>
      fix row0 (j : nat) : Z :=
        match j with
        | O => 0
        | S j' => row0 j' + ic (nth j' b Ascii.zero)
        end
  | S i' =>
      fix rowi (j : nat) : Z :=
        match j with
        | O => lev_dp ic dc rc a b i' O + dc (nth i' a Ascii.zero)
        | S j' =>
            Z.min (rowi j' + ic (nth j' b Ascii.zero))
              (Z.min (lev_dp ic dc rc a b i' (S j') + dc (nth i' a Ascii.zero))
                 (lev_dp ic dc rc a b i' j'
                  + rc (nth j' b Ascii.zero) (nth i' a Ascii.zero)))
        end
  end.

Definition weighted_distance (ic dc : ascii -> Z) (rc : ascii -> ascii -> Z)
    (a b : str) : Z :=
  lev_dp ic dc rc a b (length a) (length b).

(** The classical recurrence with unit costs:
    [D[i][0] = i], [D[0][j] = j] and
    [D[i][j] = min(D[i][j-1] + 1, D[i-1][j] + 1, D[i-1][j-1] + [a_i <> b_j])]. *)
Fixpoint classic_dp (a b : str) (i : nat) : nat -> Z :=
  match i with
  | O => fun j => Z.of_nat j
  | S i' =>
      fix rowi (j : nat) : Z :=
        match j with
        | O => Z.of_nat (S i')
        | S j' =>
            Z.min (rowi j' + 1)
              (Z.min (classic_dp a b i' (S j') + 1)
                 (classic_dp a b i' j'
                  + (if Ascii.eqb (nth i' a Ascii.zero) (nth j' b Ascii.zero)
                     then 0 else 1)))
        end
  end.

Definition edit_distance (a b : str) : Z :=
  classic_dp a b (length a) (length b).


(** Every cost held by a state is the cost of an alignment: position
    [i - 1] holds at least the cell [D[i][j]] of the table of the pattern
    and [text]. *)
Definition sound_state (self : SparseLevenshteinAutomaton) (text : str)
    (j : nat) (s : OD.t) : Prop :=
  forall k c, OD.get k s = Some c ->
    exists i : nat, k = Z.of_nat i - 1 /\ (i <= length (_str self))%nat /\
      lev_dp (_icost self) (_dcost self) (_rcost self) (_str self) text i j <= c.

(** The cells of a row that are within the budget [d]: position [i - 1]
    holds [f i], for the [i < k] with [f i <= d], in ascending order. *)
Definition band (f : nat -> Z) (d : Z) (k : nat) : OD.t :=
  map (fun i : nat => (Z.of_nat i - 1, f i))
    (List.filter (fun i => f i <=? d) (seq 0 k)).

(** ** The order on Python strings *)

(** [a <= b] on [str]: lexicographic on character codes, a proper prefix
    being smaller. *)
Fixpoint str_compare (a b : str) : comparison :=
  match a, b with
  | [], [] => Eq
  | [], _ :: _ => Lt
  | _ :: _, [] => Gt
  | x :: a', y :: b' =>
      match Ascii.compare x y with
      | Eq => str_compare a' b'
      | c => c
      end
  end.

Definition str_leb (a b : str) : bool :=
  match str_compare a b with Gt => false | _ => true end.

(** The strict lexicographic order, as a relation. *)
Inductive str_lt : str -> str -> Prop :=
  | str_lt_nil y b : str_lt [] (y :: b)
  | str_lt_head x y a b :
      (N_of_ascii x < N_of_ascii y)%N -> str_lt (x :: a) (y :: b)
  | str_lt_tail x a b : str_lt a b -> str_lt (x :: a) (x :: b).

(** ** DawgNode *)

(** A node object; its [_id] is its index in the store, and the cached
    [_count] (written by [finish] only) is kept apart, in [counts].
    [edges] is a [dict] from labels to node ids, in insertion order. *)
Record DawgNode := {
  final : bool;
  edges : list (ascii * nat)
}.

(** [DawgNode()] *)
Definition new_node : DawgNode := {| final := false; edges := [] |}.

(** [edges[char]] *)
Fixpoint edges_get (char : ascii) (es : list (ascii * nat)) : option nat :=
  match es with
  | [] => None
  | (c, t) :: r => if Ascii.eqb c char then Some t else edges_get char r
  end.

(** [edges[char] = target] *)
Fixpoint edges_set (char : ascii) (target : nat) (es : list (ascii * nat))
    : list (ascii * nat) :=
  match es with
  | [] => [(char, target)]
  | (c, t) :: r =>
      if Ascii.eqb c char then (char, target) :: r
      else (c, t) :: edges_set char target r
  end.

(** [str(n)] for an [_id]: its decimal digits. *)
Definition str_of_nat (n : nat) : str :=
  list_ascii_of_string (NilEmpty.string_of_uint (Nat.to_uint n)).

(** The part of [__str__] after the flag: ["_"], the label, ["_"] and the
    [_id] of the child, for every edge in order. *)
Fixpoint render_edges (es : list (ascii * nat)) : str :=
  match es with
  | [] => []
  | (label, child) :: r =>
      "_"%char :: label :: "_"%char :: str_of_nat child ++ render_edges r
  end.

(** [__str__]: ['_'.join(arr)], where [arr] holds ['1'] or ['0'] and then
    the label and the child's [_id] for every edge.  [__hash__] and
    [__eq__] are both taken from [__str__]. *)
Definition node_str (n : DawgNode) : str :=
  (if final n then "1"%char else "0"%char) :: render_edges (edges n).

(** A decimal digit. *)
Definition is_digit (c : ascii) : bool :=
  (48 <=? nat_of_ascii c)%nat && (nat_of_ascii c <=? 57)%nat.

(** A rendering that does not go on with a digit. *)
Definition no_digit_head (r : str) : Prop :=
  match r with [] => True | c :: _ => is_digit c = false end.

Definition node_eqb (n1 n2 : DawgNode) : bool :=
  bool_decide (node_str n1 = node_str n2).

(** ** Dawg *)

(** The builder together with the store of node objects.  A fresh node gets
    the next free [_id] ([DawgNode._next_id]), which is the size of the
    store: the builder is the first one of the process (a later one has
    the same graph with every [_id] shifted).  [_minimized_nodes] maps each
    key to itself, so only its keys are kept, in insertion order. *)
Record Dawg := {
  nodes : list DawgNode;
  _previous_word : str;
  _root : nat;
  _unchecked_nodes : list (nat * ascii * nat);
  _minimized_nodes : list nat
}.

(** The node object with a given [_id]. *)
Definition node_at (g : Dawg) (id : nat) : DawgNode :=
  default new_node (nodes g !! id).

(** [Dawg()] *)
Definition Dawg_new : Dawg :=
  {| nodes := [new_node];
     _previous_word := [];
     _root := 0%nat;
     _unchecked_nodes := [];
     _minimized_nodes := [] |}.

(** [node.edges[char] = target] on the node with id [node] *)
Definition set_edge (node : nat) (char : ascii) (target : nat) (g : Dawg)
    : Dawg :=
  {| nodes :=
       alter (fun n => {| final := final n;
                          edges := edges_set char target (edges n) |})
         node (nodes g);
     _previous_word := _previous_word g;
     _root := _root g;
     _unchecked_nodes := _unchecked_nodes g;
     _minimized_nodes := _minimized_nodes g |}.

(** [node.final = True] *)
Definition set_final (node : nat) (g : Dawg) : Dawg :=
  {| nodes := alter (fun n => {| final := true; edges := edges n |})
                node (nodes g);
     _previous_word := _previous_word g;
     _root := _root g;
     _unchecked_nodes := _unchecked_nodes g;
     _minimized_nodes := _minimized_nodes g |}.

(** [child in self._minimized_nodes], and the value found: the dictionary
    is probed with the hash and the equality of [child], both given by
    [__str__].  Python compares the hash a key had when it was stored; a
    key is never modified afterwards (lemma [interned_frozen]), so its
    current rendering is the stored one. *)
Definition find_minimized (g : Dawg) (child : nat) : option nat :=
  find (fun m => node_eqb (node_at g m) (node_at g child))
    (_minimized_nodes g).

(** One round of the loop of [_minimize], for the index [i]. *)
Definition minimize_step (g : Dawg) (i : nat) : Dawg :=
  match _unchecked_nodes g !! i with
  | Some (parent, char, child) =>
      let g :=
        match find_minimized g child with
        | Some m => set_edge parent char m g
        | None =>
            {| nodes := nodes g;
               _previous_word := _previous_word g;
               _root := _root g;
               _unchecked_nodes := _unchecked_nodes g;
               _minimized_nodes := _minimized_nodes g ++ [child] |}
        end in
      {| nodes := nodes g;
         _previous_word := _previous_word g;
         _root := _root g;
         _unchecked_nodes := removelast (_unchecked_nodes g);
         _minimized_nodes := _minimized_nodes g |}
  | None => g
  end.

(** [_minimize(down_to)]: [i] runs over
    [range(len(self._unchecked_nodes) - 1, down_to - 1, -1)]. *)
Definition _minimize (down_to : nat) (g : Dawg) : Dawg :=
  foldl minimize_step g
    (rev (seq down_to (length (_unchecked_nodes g) - down_to))).

(** The length of the common prefix, as counted by the first loop of
    [insert]. *)
Fixpoint common_prefix (word previous : str) : nat :=
  match word, previous with
  | x :: word', y :: previous' =>
      if Ascii.eqb x y then S (common_prefix word' previous') else 0%nat
  | _, _ => 0%nat
  end.

(** One round of the loop [for char in word[common_prefix:]] of [insert]:
    a new node, the edge to it and the unchecked entry.  The new node is
    [length (nodes g)]. *)
Definition add_node (node : nat) (char : ascii) (g : Dawg) : Dawg :=
  let next_node := length (nodes g) in
  let g := {| nodes := nodes g ++ [new_node];
              _previous_word := _previous_word g;
              _root := _root g;
              _unchecked_nodes := _unchecked_nodes g;
              _minimized_nodes := _minimized_nodes g |} in
  let g := set_edge node char next_node g in
  {| nodes := nodes g;
     _previous_word := _previous_word g;
     _root := _root g;
     _unchecked_nodes := _unchecked_nodes g ++ [(node, char, next_node)];
     _minimized_nodes := _minimized_nodes g |}.

(** The loop itself; returns the last [node]. *)
Fixpoint add_suffix (suffix : str) (node : nat) (g : Dawg) : nat * Dawg :=
  match suffix with
  | [] => (node, g)
  | char :: rest => add_suffix rest (length (nodes g)) (add_node node char g)
  end.

(** What a call may raise. *)
Inductive error := OrderingViolation.

Inductive outcome (A : Type) :=
  | Returned (a : A)
  | Raised (e : error).
Arguments Returned {A} a.
Arguments Raised {A} e.

(** [Dawg.insert] *)
Definition insert (word : str) (g : Dawg) : outcome Dawg :=
  if str_leb word (_previous_word g) then Raised OrderingViolation
  else
    let common := common_prefix word (_previous_word g) in
    let g := _minimize common g in
    let node :=
      match last (_unchecked_nodes g) with
      | None => _root g
      | Some (_, _, child) => child
      end in
    let '(node, g) := add_suffix (drop common word) node g in
    let g := set_final node g in
    Returned {| nodes := nodes g;
                _previous_word := word;
                _root := _root g;
                _unchecked_nodes := _unchecked_nodes g;
                _minimized_nodes := _minimized_nodes g |}.

(** [Dawg.finish], up to the counts, which [count] below gives. *)
Definition finish (g : Dawg) : Dawg := _minimize 0 g.

(** Inserting a list of words in turn, stopping at the first error. *)
Fixpoint insert_all (words : list str) (g : Dawg) : outcome Dawg :=
  match words with
  | [] => Returned g
  | word :: rest =>
      match insert word g with
      | Returned g' => insert_all rest g'
      | Raised e => Raised e
      end
  end.

(** A dictionary: the words are inserted into a fresh builder, which is
    then finished. *)
Definition build (words : list str) : outcome Dawg :=
  match insert_all words Dawg_new with
  | Returned g => Returned (finish g)
  | Raised e => Raised e
  end.

(** ** The graph of a store *)

(** [walk g node word] follows the edges labelled by [word] from [node]. *)
Fixpoint walk (g : Dawg) (node : nat) (word : str) : option nat :=
  match word with
  | [] => Some node
  | char :: rest =>
      match edges_get char (edges (node_at g node)) with
      | Some child => walk g child rest
      | None => None
      end
  end.

(** The words the graph accepts from a node. *)
Definition accepts (g : Dawg) (node : nat) (word : str) : bool :=
  match walk g node word with
  | Some n => final (node_at g n)
  | None => false
  end.

Definition edge (g : Dawg) (x y : nat) : Prop :=
  exists char, In (char, y) (edges (node_at g x)).

(** No node reaches itself through one or more edges. *)
Definition acyclic (g : Dawg) : Prop :=
  forall x, ~ tc (edge g) x x.

(** The builder states a program can reach. *)
Inductive reachable : Dawg -> Prop :=
  | reachable_new : reachable Dawg_new
  | reachable_insert word g g' :
      reachable g -> insert word g = Returned g' -> reachable g'
  | reachable_finish g : reachable g -> reachable (finish g).

(** ** The invariant of the builder *)

(** The nodes of the pending branch: the root, then the child of every
    unchecked entry. *)
Definition chain (g : Dawg) : list nat :=
  _root g :: map snd (_unchecked_nodes g).

(** What holds of every reachable builder state:
    - the unchecked entries form one branch from the root, each entry being
      an edge of the store, through distinct nodes that are not interned;
    - an interned node only has edges to nodes interned before it;
    - every other edge leads to an interned node or is an unchecked entry;
    - the labels of a node are distinct. *)
Record shape_inv (g : Dawg) : Prop := {
  sh_root : (_root g < length (nodes g))%nat;
  sh_linked : forall i p c ch,
    _unchecked_nodes g !! i = Some (p, c, ch) -> chain g !! i = Some p;
  sh_nodup : NoDup (chain g);
  sh_chain : forall x, x ∈ chain g ->
    (x < length (nodes g))%nat /\ x ∉ _minimized_nodes g;
  sh_min : forall j m, _minimized_nodes g !! j = Some m ->
    (m < length (nodes g))%nat /\
    forall l t, (l, t) ∈ edges (node_at g m) ->
      exists j', (j' < j)%nat /\ _minimized_nodes g !! j' = Some t;
  sh_edges : forall x l t, (l, t) ∈ edges (node_at g x) ->
    t ∈ _minimized_nodes g \/ (x, l, t) ∈ _unchecked_nodes g;
  sh_targets : forall x l t, (l, t) ∈ edges (node_at g x) ->
    (t < length (nodes g))%nat;
  sh_keys : forall x, NoDup (map fst (edges (node_at g x)));
  sh_link_edge : forall p c ch, (p, c, ch) ∈ _unchecked_nodes g ->
    edges_get c (edges (node_at g p)) = Some ch
}.

(** The position of the first occurrence of [x] in [l]. *)
Fixpoint index_of (x : nat) (l : list nat) : option nat :=
  match l with
  | [] => None
  | y :: r => if Nat.eqb y x then Some 0%nat else S <$> index_of x r
  end.

(** A measure that every edge decreases: interned nodes by the order of
    interning, then discarded nodes, then the pending branch from its end
    to the root. *)
Definition rank (g : Dawg) (x : nat) : nat :=
  match index_of x (_minimized_nodes g) with
  | Some j => j
  | None =>
      match index_of x (chain g) with
      | Some i =>
          length (_minimized_nodes g) + 1
          + (length (_unchecked_nodes g) - i)
      | None => length (_minimized_nodes g)
      end
  end.

(** How the labels of the pending branch relate to a word [w]: the
    unchecked entries spell a prefix of [w], and no label leaving the
    [i]-th node of the branch is above the [i]-th character of [w]; with
    [strict], the last node of the branch has no edge labelled by its
    character of [w] yet. *)
Definition labels_ok (strict : bool) (w : str) (g : Dawg) : Prop :=
  (forall i p c ch,
     _unchecked_nodes g !! i = Some (p, c, ch) -> w !! i = Some c) /\
  (forall i x l t,
     chain g !! i = Some x -> (l, t) ∈ edges (node_at g x) ->
     exists c, w !! i = Some c /\ (N_of_ascii l <= N_of_ascii c)%N /\
               (strict = true -> i = length (_unchecked_nodes g) -> l <> c)).

(** The invariant between two calls of [insert]: the pending branch spells
    the previous word, whose last node has no edge. *)
Definition stable (g : Dawg) : Prop :=
  shape_inv g /\ labels_ok true (_previous_word g) g /\
  length (_unchecked_nodes g) = length (_previous_word g).

(** The words a builder state holds. *)
Definition holds (g : Dawg) (words : list str) : Prop :=
  forall w, accepts g (_root g) w = true <-> w ∈ words.

(** A list of words in strictly ascending order, all above [previous]. *)
Fixpoint increasing (previous : str) (words : list str) : Prop :=
  match words with
  | [] => True
  | word :: rest => str_lt previous word /\ increasing word rest
  end.

(** [g'] still holds every interned node of [g], unchanged. *)
Definition keeps_interned (g g' : Dawg) : Prop :=
  forall m, m ∈ _minimized_nodes g ->
    m ∈ _minimized_nodes g' /\ node_at g' m = node_at g m.


(** ** levenshtein_search *)

(** [matched.add(word)] on a [set] of strings kept as a duplicate-free
    list. *)
Definition set_add (word : str) (matched : list str) : list str :=
  if bool_decide (word ∈ matched) then matched else matched ++ [word].

(** An entry of [stack]: [(word, node, state)]. *)
Definition frame : Type := str * nat * OD.t.

(** One round of [for char in node.edges], on the edge [(char, child)];
    the Python list [stack] is kept with its last element first, so that
    [append] is a cons and [pop] takes the head. *)
Definition visit_edge (lev_auto : SparseLevenshteinAutomaton) (graph : Dawg)
    (word : str) (state : OD.t) (acc : list frame * list str)
    (e : ascii * nat) : list frame * list str :=
  let '(stack, matched) := acc in
  let '(char, child) := e in
  let new_state := step lev_auto char (Some state) in
  let new_word := word ++ [char] in
  let matched :=
    if is_match lev_auto new_state && final (node_at graph child)
    then set_add new_word matched else matched in
  let stack :=
    if can_match new_state
    then (new_word, child, new_state) :: stack else stack in
  (stack, matched).

(** The [while stack] loop; [None] when [fuel] rounds were not enough. *)
Fixpoint search_loop (fuel : nat) (lev_auto : SparseLevenshteinAutomaton)
    (graph : Dawg) (stack : list frame) (searched : list nat)
    (matched : list str) : option (list str) :=
  match fuel with
  | O => None
  | S fuel' =>
      match stack with
      | [] => Some matched
      | (word, node, state) :: stack' =>
          if bool_decide (node ∈ searched)
          then search_loop fuel' lev_auto graph stack' searched matched
          else
            let searched := node :: searched in
            let '(stack'', matched') :=
              foldl (visit_edge lev_auto graph word state) (stack', matched)
                (edges (node_at graph node)) in
            search_loop fuel' lev_auto graph stack'' searched matched'
      end
  end.

(** The rounds still to come from nodes not yet expanded: one for the
    expansion of each and one for each frame it pushes. *)
Definition pending (graph : Dawg) (searched : list nat) : nat :=
  sum_list
    (map (fun x => if bool_decide (x ∈ searched) then 0%nat
                   else S (length (edges (node_at graph x))))
       (seq 0 (length (nodes graph)))).

(** A number of rounds the loop never exceeds: every node is expanded at
    most once, and every frame comes from the root or from an edge of an
    expanded node. *)
Definition search_fuel (graph : Dawg) : nat := 2 + pending graph [].

(** [levenshtein_search]; the result is never [None] (lemma
    [levenshtein_search_returns]). *)
Definition levenshtein_search (graph : Dawg) (query_str : str)
    (max_distance : Z) (insert_cost delete_cost : cost_arg ascii)
    (replace_cost : cost_arg (ascii * ascii)) : option (list str) :=
  let lev_auto :=
    new_automaton query_str max_distance insert_cost delete_cost replace_cost in
  let state := start_state lev_auto in
  let stack := [([], _root graph, state)] in
  search_loop (search_fuel graph) lev_auto graph stack [] [].

(** What the loop keeps true of a frame: its word leads from the root to
    its node, and its state is the state of the automaton after that
    word. *)
Definition frame_ok (lev_auto : SparseLevenshteinAutomaton) (graph : Dawg)
    (fr : frame) : Prop :=
  walk graph (_root graph) fr.1.1 = Some fr.1.2 /\
  fr.2 = run lev_auto fr.1.1.

(** What the loop keeps true of a matched word: the graph accepts it and
    the automaton matches it. *)
Definition matched_ok (lev_auto : SparseLevenshteinAutomaton) (graph : Dawg)
    (w : str) : Prop :=
  accepts graph (_root graph) w = true /\
  is_match lev_auto (run lev_auto w) = true.

(** What the search with budget 0 returns from the node reached by a prefix
    of the query: the query itself when the rest of the query leads to a
    final node, nothing otherwise (the root is never tested, so the empty
    query matches nothing). *)
Definition exact_result (query : str) (g : Dawg) (node : nat)
    (suffix : str) : list str :=
  match walk g node suffix with
  | Some y =>
      if final (node_at g y) && negb (bool_decide (query = []))
      then [query] else []
  | None => []
  end.

(** ** The counts and the sizes *)

(** The [_count] field of the node objects, by [_id]. *)
Definition counts : Type := nat -> Z.

(** Every node is made with [_count = 0]. *)
Definition no_counts : counts := fun _ => 0.

(** [node._count = count] *)
Definition set_count (node : nat) (count : Z) (cs : counts) : counts :=
  fun id => if Nat.eqb id node then count else cs id.

(** One round of [for label in self.edges] in [count]:
    [count += child.count], where [child_count] is the property read on the
    child. *)
Definition count_edge (child_count : nat -> counts -> option (Z * counts))
    (acc : option (Z * counts)) (e : ascii * nat) : option (Z * counts) :=
  match acc with
  | Some (count, cs) =>
      match child_count (snd e) cs with
      | Some (n, cs') => Some (count + n, cs')
      | None => None
      end
  | None => None
  end.

(** The property [DawgNode.count] read on [node]: the value returned and
    the counts left behind.  A [_count] of 0 is taken as not assigned.
    [fuel] bounds the depth of the recursion; [None] when it was too
    small. *)
Fixpoint count (fuel : nat) (g : Dawg) (node : nat) (cs : counts)
    : option (Z * counts) :=
  match fuel with
  | O => None
  | S fuel' =>
      if negb (cs node =? 0) then Some (cs node, cs)
      else
        let count0 := if final (node_at g node) then 0 + 1 else 0 in
        match foldl (count_edge (count fuel' g)) (Some (count0, cs))
                (edges (node_at g node)) with
        | Some (c, cs') => Some (c, set_count node c cs')
        | None => None
        end
  end.

(** [Dawg.node_count] *)
Definition node_count (g : Dawg) : Z :=
  Z.of_nat (length (_minimized_nodes g)) + 1.

(** [Dawg.edge_count] *)
Definition edge_count (g : Dawg) : Z :=
  foldl (fun count node => count + Z.of_nat (length (edges (node_at g node))))
    (Z.of_nat (length (edges (node_at g (_root g)))))
    (_minimized_nodes g).

(** The words accepted from a node, listed along the recursion of
    [count]: the empty word when the node is final, then, for every edge
    in order, the label followed by a word of the child. *)
Fixpoint words_from (fuel : nat) (g : Dawg) (x : nat) : list str :=
  match fuel with
  | O => []
  | S fuel' =>
      (if final (node_at g x) then [[]] else [])
      ++ flat_map (fun e => map (cons (fst e)) (words_from fuel' g (snd e)))
           (edges (node_at g x))
  end.

Definition language (g : Dawg) (x : nat) : list str :=
  words_from (S (rank g x)) g x.

(** Every assigned count is the number of words accepted from its node. *)
Definition counts_ok (g : Dawg) (cs : counts) : Prop :=
  forall y, cs y <> 0 -> cs y = Z.of_nat (length (language g y)).

(** ** The interned nodes *)

Definition label_lt (a b : ascii) : Prop := (N_of_ascii a < N_of_ascii b)%N.

(** What holds, besides [shape_inv], of the builder states a program
    reaches:
    - no two keys of [_minimized_nodes] are equal nodes;
    - every interned node is the child of an interned node or of a node
      of the pending branch;
    - the labels of a node ascend in the order of its edges;
    - some word is accepted from every interned node. *)
Record canonical (g : Dawg) : Prop := {
  cn_distinct : forall i j m1 m2,
    _minimized_nodes g !! i = Some m1 -> _minimized_nodes g !! j = Some m2 ->
    node_at g m1 = node_at g m2 -> i = j;
  cn_linked : forall t, t ∈ _minimized_nodes g ->
    exists x l, (x ∈ chain g \/ x ∈ _minimized_nodes g) /\
                (l, t) ∈ edges (node_at g x);
  cn_sorted : forall x,
    StronglySorted label_lt (map fst (edges (node_at g x)));
  cn_live : forall m, m ∈ _minimized_nodes g ->
    exists w, accepts g m w = true
}.

(** Some word is accepted from every child of the pending branch. *)
Definition live_pending (g : Dawg) : Prop :=
  forall x, x ∈ map snd (_unchecked_nodes g) ->
    exists w, accepts g x w = true.

(** ** display *)

(** ['{}: ({})'.format(node._id, node)] *)
Definition node_line (g : Dawg) (node : nat) : str :=
  str_of_nat node ++ chars ": (" ++ node_str (node_at g node) ++ chars ")".

(** ['    {} goto {}'.format(label, child._id)] *)
Definition edge_line (label : ascii) (child : nat) : str :=
  chars "    " ++ label :: chars " goto " ++ str_of_nat child.

(** One round of [for label in node.edges] in [display]: the line is
    printed and the child pushed.  As in the search, the Python list
    [stack] is kept with its last element first. *)
Definition display_edge (acc : list nat * list str) (e : ascii * nat)
    : list nat * list str :=
  let '(stack, out) := acc in
  let '(label, child) := e in
  (child :: stack, out ++ [edge_line label child]).

(** The [while stack] loop of [display]; [out] is the list of the lines
    printed so far, and [None] means that [fuel] rounds were not enough. *)
Fixpoint display_loop (fuel : nat) (g : Dawg) (stack done : list nat)
    (out : list str) : option (list str) :=
  match fuel with
  | O => None
  | S fuel' =>
      match stack with
      | [] => Some out
      | node :: stack' =>
          if bool_decide (node ∈ done)
          then display_loop fuel' g stack' done out
          else
            let done := node :: done in
            let out := out ++ [node_line g node] in
            let '(stack'', out') :=
              foldl display_edge (stack', out) (edges (node_at g node)) in
            display_loop fuel' g stack'' done out'
      end
  end.

(** [Dawg.display]: the lines it prints. *)
Definition display (g : Dawg) : option (list str) :=
  display_loop (search_fuel g) g [_root g] [] [].

(** The lines [display] prints for one node: the node, then its edges. *)
Definition node_lines (g : Dawg) (x : nat) : list str :=
  node_line g x
  :: map (fun e => edge_line (fst e) (snd e)) (edges (node_at g x)).
(** * Properties *)

Example distance_abc_ab :
  levenshtein_distance_default (chars "abc") (chars "ab") = Some 1.
Proof. reflexivity. Qed.

Example distance_bc_ab :
  levenshtein_distance_default (chars "bc") (chars "ab") = Some 2.
Proof. reflexivity. Qed.

Example distance_adbc_bdac :
  levenshtein_distance_default (chars "adbc") (chars "bdac") = Some 2.
Proof. reflexivity. Qed.

Example distance_empty_bdac :
  levenshtein_distance_default (chars "") (chars "bdac") = Some 4.
Proof. reflexivity. Qed.

Example distance_empty_empty :
  levenshtein_distance_default (chars "") (chars "") = Some 0.
Proof. reflexivity. Qed.

Example edit_distance_kitten :
  edit_distance (chars "kitten") (chars "sitting") = 3.
Proof. reflexivity. Qed.


(** ** Facts about ordered dictionaries *)

Module ODFacts.
Import OD.

Lemma get_set k k' v s :
  get k (set k' v s) = if Z.eqb k' k then Some v else get k s.
Proof.
  induction s as [|[k0 v0] r IH]; simpl.
  - reflexivity.
  - destruct (Z.eqb_spec k0 k'); simpl.
    + subst k0. destruct (Z.eqb k' k); reflexivity.
    + rewrite IH. destruct (Z.eqb_spec k0 k), (Z.eqb_spec k' k);
        congruence.
Qed.

Lemma get_None_keys k s : get k s = None <-> ~ In k (keys s).
Proof.
  induction s as [|[k0 v0] r IH]; simpl.
  - tauto.
  - destruct (Z.eqb k0 k) eqn:E.
    + apply Z.eqb_eq in E. split; [discriminate | tauto].
    + apply Z.eqb_neq in E. tauto.
Qed.

Lemma get_Some_keys k s : In k (keys s) -> exists v, get k s = Some v.
Proof.
  intros Hin. destruct (get k s) as [v|] eqn:E; [eauto|].
  apply get_None_keys in E. contradiction.
Qed.

Lemma get_Some_In k v s : get k s = Some v -> In (k, v) s.
Proof.
  induction s as [|[k0 v0] r IH]; simpl; [discriminate|].
  destruct (Z.eqb k0 k) eqn:E.
  - apply Z.eqb_eq in E. intros [= ->]. subst. now left.
  - intros H. right. now apply IH.
Qed.

Lemma set_absent k v s : get k s = None -> set k v s = s ++ [(k, v)].
Proof.
  induction s as [|[k0 v0] r IH]; simpl; [reflexivity|].
  destruct (Z.eqb k0 k); [discriminate|].
  intros H. now rewrite IH.
Qed.

Lemma get_app k s1 s2 :
  get k (s1 ++ s2) = match get k s1 with Some v => Some v | None => get k s2 end.
Proof.
  induction s1 as [|[k0 v0] r IH]; simpl; [reflexivity|].
  destruct (Z.eqb k0 k); [reflexivity | apply IH].
Qed.

Lemma In_set e k v s : In e (set k v s) -> e = (k, v) \/ In e s.
Proof.
  induction s as [|[k0 v0] r IH]; simpl.
  - intros [<-|[]]. now left.
  - destruct (Z.eqb k0 k); simpl; intuition (auto; congruence).
Qed.

End ODFacts.

Lemma ascending_snoc l x :
  ascending l -> Forall (fun y => y < x) l -> ascending (l ++ [x]).
Proof.
  unfold ascending. induction 1 as [|y l Hl IH Hy]; intros Hx; simpl.
  - repeat constructor.
  - apply Forall_cons_1 in Hx as [Hyx Hx]. constructor.
    + now apply IH.
    + apply Forall_app. split; [assumption | now constructor].
Qed.

Lemma ascending_head_min k l : ascending (k :: l) -> Forall (fun y => k <= y) (k :: l).
Proof.
  intros H. apply StronglySorted_inv in H as [_ H].
  constructor; [lia|]. eapply Forall_impl; [exact H|]. simpl. intros; lia.
Qed.

(** ** Shape of the sparse states (claim C10) *)

Section StateShape.

Variable self : SparseLevenshteinAutomaton.

Lemma keys_snoc (s : OD.t) k v : OD.keys (s ++ [(k, v)]) = OD.keys s ++ [k].
Proof. unfold OD.keys. now rewrite map_app. Qed.

Lemma set_fresh_shape (s : OD.t) k v :
  ascending (OD.keys s) -> Forall (fun y => y < k) (OD.keys s) ->
  OD.set k v s = s ++ [(k, v)] /\ ascending (OD.keys (OD.set k v s)).
Proof.
  intros Hs Hk.
  assert (E : OD.set k v s = s ++ [(k, v)]).
  { apply ODFacts.set_absent, ODFacts.get_None_keys. intros Hin.
    rewrite List.Forall_forall in Hk. apply Hk in Hin. lia. }
  split; [exact E|]. rewrite E, keys_snoc. now apply ascending_snoc.
Qed.

Lemma start_loop_shape rest : forall i cost state,
  ascending (OD.keys state) -> Forall (fun y => y < i) (OD.keys state) ->
  ascending (OD.keys (start_loop self i rest cost state)) /\
  (costs_within (_d self) state ->
   costs_within (_d self) (start_loop self i rest cost state)).
Proof.
  induction rest as [|char rest IH]; intros i cost state Hs Hi; simpl.
  - auto.
  - destruct (Z.leb_spec (cost + _dcost self char) (_d self)) as [Hle|Hgt];
      [|auto].
    destruct (set_fresh_shape state i (cost + _dcost self char) Hs Hi)
      as [E Hs'].
    destruct (IH (i + 1) (cost + _dcost self char)
                (OD.set i (cost + _dcost self char) state)) as [IH1 IH2].
    + exact Hs'.
    + rewrite E, keys_snoc. apply Forall_app. split.
      * eapply Forall_impl; [exact Hi|]. simpl. intros; lia.
      * constructor; [lia | constructor].
    + split; [exact IH1|]. intros Hc. apply IH2. rewrite E.
      apply Forall_app. split; [exact Hc|]. constructor; [exact Hle | constructor].
Qed.

Lemma start_state_shape :
  ascending (OD.keys (start_state self)) /\
  (0 <= _d self -> costs_within (_d self) (start_state self)).
Proof.
  unfold start_state. simpl.
  destruct (start_loop_shape (_str self) 0 0 [(-1, 0)]) as [H1 H2].
  - repeat constructor.
  - repeat constructor.
  - split; [exact H1|]. intros Hd. apply H2. repeat constructor. exact Hd.
Qed.

Lemma step_body_shape char state new_state idx :
  ascending (OD.keys new_state) ->
  Forall (fun y => y <= idx) (OD.keys new_state) ->
  costs_within (_d self) new_state ->
  let r := step_body self char state new_state idx in
  ascending (OD.keys r) /\ Forall (fun y => y <= idx + 1) (OD.keys r) /\
  costs_within (_d self) r.
Proof.
  intros Hs Hi Hc. unfold step_body.
  assert (Hkeep : Forall (fun y => y <= idx + 1) (OD.keys new_state)).
  { eapply Forall_impl; [exact Hi|]. simpl. intros; lia. }
  destruct (idx + 1 =? len (_str self)); [auto|].
  match goal with |- context [if ?c <=? _ then _ else _] => set (cost := c) end.
  destruct (Z.leb_spec cost (_d self)) as [Hle|Hgt]; [|auto].
  destruct (set_fresh_shape new_state (idx + 1) cost Hs) as [E Hs'].
  { eapply Forall_impl; [exact Hi|]. simpl. intros; lia. }
  split; [exact Hs'|]. rewrite E, keys_snoc. split.
  - apply Forall_app. split; [exact Hkeep|]. constructor; [lia | constructor].
  - apply Forall_app. split; [exact Hc|]. constructor; [exact Hle | constructor].
Qed.

Lemma step_fold_shape char state ks : forall new_state,
  ascending ks ->
  ascending (OD.keys new_state) ->
  (forall k k', In k (OD.keys new_state) -> In k' ks -> k <= k') ->
  costs_within (_d self) new_state ->
  let r := foldl (step_body self char state) new_state ks in
  ascending (OD.keys r) /\ costs_within (_d self) r.
Proof.
  induction ks as [|idx ks IH]; intros new_state Hks Hs Hlow Hc; simpl.
  - auto.
  - apply StronglySorted_inv in Hks as [Hks Hidx].
    destruct (step_body_shape char state new_state idx Hs) as (H1 & H2 & H3).
    + apply List.Forall_forall. intros k Hk. apply Hlow; [exact Hk | now left].
    + exact Hc.
    + apply IH; auto.
      intros k k' Hk Hk'. rewrite List.Forall_forall in H2, Hidx.
      specialize (H2 _ Hk). specialize (Hidx _ Hk'). lia.
Qed.

Lemma step_state_shape char state :
  ascending (OD.keys state) ->
  ascending (OD.keys (step_state self char state)) /\
  costs_within (_d self) (step_state self char state).
Proof.
  intros Hs. unfold step_state.
  apply step_fold_shape; [exact Hs| | |].
  - destruct state as [|[key v] r]; [constructor|].
    destruct (_ <=? _); simpl; repeat constructor.
  - destruct state as [|[key v] r]; [simpl; tauto|].
    apply ascending_head_min in Hs. rewrite List.Forall_forall in Hs.
    destruct (_ <=? _); simpl; [|tauto].
    intros k k' [<-|[]] Hk'. now apply Hs.
  - destruct state as [|[key v] r]; [constructor|].
    destruct (Z.leb_spec (OD.at_ ((key, v) :: r) key + _icost self char) (_d self));
      simpl; repeat constructor. assumption.
Qed.

Lemma produced_ascending state :
  produced self state -> ascending (OD.keys state).
Proof.
  induction 1 as [|char state _ IH].
  - apply start_state_shape.
  - now apply step_state_shape.
Qed.

End StateShape.

(** ** The automaton computes the table row by row when nothing is pruned *)

Lemma rowf_S f k : rowf f (S k) = rowf f k ++ [(Z.of_nat k - 1, f k)].
Proof. unfold rowf. rewrite seq_S, map_app. reflexivity. Qed.

Lemma get_rowf f k (i : nat) :
  OD.get (Z.of_nat i - 1) (rowf f k) = if (i <? k)%nat then Some (f i) else None.
Proof.
  induction k as [|k IH].
  - reflexivity.
  - rewrite rowf_S, ODFacts.get_app, IH. simpl.
    destruct (Nat.ltb_spec i k), (Nat.ltb_spec i (S k)),
      (Z.eqb_spec (Z.of_nat k - 1) (Z.of_nat i - 1)); try lia; try reflexivity.
    assert (i = k) by lia. subst. reflexivity.
Qed.

Lemma set_rowf_next f k v :
  v = f k -> OD.set (Z.of_nat k - 1) v (rowf f k) = rowf f (S k).
Proof.
  intros ->. rewrite ODFacts.set_absent, rowf_S; [reflexivity|].
  rewrite get_rowf. now rewrite Nat.ltb_irrefl.
Qed.

Lemma keys_rowf f k :
  OD.keys (rowf f k) = map (fun i : nat => Z.of_nat i - 1) (seq 0 k).
Proof. unfold OD.keys, rowf. rewrite map_map. reflexivity. Qed.

Lemma lev_dp_0_S ic dc rc a b j :
  lev_dp ic dc rc a b 0 (S j) = lev_dp ic dc rc a b 0 j + ic (nth j b Ascii.zero).
Proof. reflexivity. Qed.

Lemma lev_dp_S_0 ic dc rc a b i :
  lev_dp ic dc rc a b (S i) 0 = lev_dp ic dc rc a b i 0 + dc (nth i a Ascii.zero).
Proof. reflexivity. Qed.

Lemma lev_dp_S_S ic dc rc a b i j :
  lev_dp ic dc rc a b (S i) (S j) =
  Z.min (lev_dp ic dc rc a b (S i) j + ic (nth j b Ascii.zero))
    (Z.min (lev_dp ic dc rc a b i (S j) + dc (nth i a Ascii.zero))
       (lev_dp ic dc rc a b i j + rc (nth j b Ascii.zero) (nth i a Ascii.zero))).
Proof. reflexivity. Qed.

Section Exact.

Variable self : SparseLevenshteinAutomaton.
Variable text : str.

Let D (i j : nat) : Z :=
  lev_dp (_icost self) (_dcost self) (_rcost self) (_str self) text i j.

Hypothesis no_pruning :
  forall i j, (i <= length (_str self))%nat -> (j <= length text)%nat ->
    D i j <= _d self.

Lemma start_loop_row rest : forall before,
  _str self = before ++ rest ->
  start_loop self (len before) rest (D (length before) 0)
    (rowf (fun i => D i 0) (S (length before)))
  = rowf (fun i => D i 0) (S (length (_str self))).
Proof.
  induction rest as [|char rest IH]; intros before E; cbn [start_loop].
  - rewrite E, app_nil_r. reflexivity.
  - assert (Hc : D (length before) 0 + _dcost self char = D (S (length before)) 0).
    { unfold D. rewrite lev_dp_S_0, E, nth_middle. reflexivity. }
    rewrite Hc.
    assert (Hle : D (S (length before)) 0 <= _d self).
    { apply no_pruning; [|lia]. rewrite E, length_app. simpl. lia. }
    apply Z.leb_le in Hle. rewrite Hle.
    replace (len before) with (Z.of_nat (S (length before)) - 1)
      by (unfold len; lia).
    rewrite set_rowf_next by reflexivity.
    specialize (IH (before ++ [char])).
    rewrite length_app in IH. simpl in IH.
    replace (length before + 1)%nat with (S (length before)) in IH by lia.
    replace (len (before ++ [char])) with (Z.of_nat (S (length before)) - 1 + 1)
      in IH by (unfold len; rewrite length_app; simpl; lia).
    apply IH. rewrite <- app_assoc. exact E.
Qed.

Lemma start_state_row :
  start_state self = rowf (fun i => D i 0) (S (length (_str self))).
Proof.
  unfold start_state. simpl.
  exact (start_loop_row (_str self) [] eq_refl).
Qed.

Lemma step_body_row char f g (p : nat) :
  (p < length (_str self))%nat ->
  g (S p) = Z.min (f (S p) + _icost self char)
              (Z.min (g p + _dcost self (nth p (_str self) Ascii.zero))
                 (f p + _rcost self char (nth p (_str self) Ascii.zero))) ->
  g (S p) <= _d self ->
  step_body self char (rowf f (S (length (_str self)))) (rowf g (S p))
    (Z.of_nat p - 1)
  = rowf g (S (S p)).
Proof.
  intros Hp Hg Hle. unfold step_body.
  replace (Z.of_nat p - 1 + 1) with (Z.of_nat (S p) - 1) by lia.
  destruct (Z.eqb_spec (Z.of_nat (S p) - 1) (len (_str self))) as [E|_];
    [unfold len in E; lia|].
  unfold OD.at_, char_at. rewrite !get_rowf.
  replace (Z.to_nat (Z.of_nat (S p) - 1)) with p by lia.
  destruct (Nat.ltb_spec p (S (length (_str self)))); [|lia].
  destruct (Nat.ltb_spec p (S p)); [|lia].
  destruct (Nat.ltb_spec (S p) (S (length (_str self)))); [|lia].
  simpl default. rewrite <- Hg.
  apply Z.leb_le in Hle. rewrite Hle.
  now apply set_rowf_next.
Qed.

Lemma step_body_last char state new_state :
  step_body self char state new_state (Z.of_nat (length (_str self)) - 1)
  = new_state.
Proof.
  unfold step_body.
  destruct (Z.eqb_spec (Z.of_nat (length (_str self)) - 1 + 1) (len (_str self)))
    as [_|E]; [reflexivity | unfold len in E; lia].
Qed.

Lemma step_fold_row char f g (r : nat) : forall p : nat,
  (p + r = S (length (_str self)))%nat ->
  (forall q : nat, (q < length (_str self))%nat ->
     g (S q) = Z.min (f (S q) + _icost self char)
                 (Z.min (g q + _dcost self (nth q (_str self) Ascii.zero))
                    (f q + _rcost self char (nth q (_str self) Ascii.zero))) /\
     g (S q) <= _d self) ->
  foldl (step_body self char (rowf f (S (length (_str self)))))
    (rowf g (Nat.min (S p) (S (length (_str self)))))
    (map (fun i : nat => Z.of_nat i - 1) (seq p r))
  = rowf g (S (length (_str self))).
Proof.
  induction r as [|r IH]; intros p Hp Hg; cbn [seq map foldl].
  - f_equal. lia.
  - destruct (Nat.eq_dec p (length (_str self))) as [->|Hne].
    + rewrite step_body_last.
      replace (Nat.min (S (length (_str self))) (S (length (_str self))))
        with (Nat.min (S (S (length (_str self)))) (S (length (_str self))))
        by lia.
      apply IH; [lia | exact Hg].
    + replace (Nat.min (S p) (S (length (_str self)))) with (S p) by lia.
      destruct (Hg p) as [Hg1 Hg2]; [lia|].
      rewrite (step_body_row char f g p) by (auto; lia).
      replace (S (S p)) with (Nat.min (S (S p)) (S (length (_str self)))) by lia.
      apply IH; [lia | exact Hg].
Qed.

Lemma step_state_head char key v r :
  step_state self char ((key, v) :: r)
  = foldl (step_body self char ((key, v) :: r))
      (if v + _icost self char <=? _d self
       then [(key, v + _icost self char)] else [])
      (OD.keys ((key, v) :: r)).
Proof.
  unfold step_state, OD.at_. cbn [OD.get]. rewrite Z.eqb_refl. reflexivity.
Qed.

Lemma step_row (j : nat) :
  (j < length text)%nat ->
  step_state self (nth j text Ascii.zero)
    (rowf (fun i => D i j) (S (length (_str self))))
  = rowf (fun i => D i (S j)) (S (length (_str self))).
Proof.
  intros Hj.
  assert (Hhead : rowf (fun i => D i j) (S (length (_str self)))
                  = (-1, D 0 j) :: map (fun i : nat => (Z.of_nat i - 1, D i j))
                                     (seq 1 (length (_str self))))
    by reflexivity.
  rewrite Hhead, step_state_head, <- Hhead, keys_rowf.
  assert (H0 : D 0 j + _icost self (nth j text Ascii.zero) = D 0 (S j))
    by (unfold D; now rewrite lev_dp_0_S).
  rewrite H0.
  assert (Hle : D 0 (S j) <= _d self) by (apply no_pruning; lia).
  apply Z.leb_le in Hle. rewrite Hle.
  change [(-1, D 0 (S j))]
    with (rowf (fun i => D i (S j)) (Nat.min 1 (S (length (_str self))))).
  apply (step_fold_row _ (fun i => D i j) (fun i => D i (S j))); [lia|].
  intros q Hq. split.
  - unfold D. rewrite lev_dp_S_S. reflexivity.
  - apply no_pruning; lia.
Qed.

Lemma run_row (j : nat) :
  (j <= length text)%nat ->
  run self (take j text) = rowf (fun i => D i j) (S (length (_str self))).
Proof.
  induction j as [|j IH]; intros Hj.
  - rewrite take_0. apply start_state_row.
  - destruct (lookup_lt_is_Some_2 text j) as [c Hc]; [lia|].
    rewrite (take_S_r _ _ _ Hc). unfold run in *. rewrite foldl_app. simpl.
    rewrite IH by lia. unfold step. simpl.
    replace c with (nth j text Ascii.zero).
    + apply step_row. lia.
    + apply nth_lookup_Some with (d := Ascii.zero) in Hc. exact Hc.
Qed.

Lemma run_exact :
  OD.get (len (_str self) - 1) (run self text)
  = Some (D (length (_str self)) (length text)).
Proof.
  rewrite <- (firstn_all text) at 1.
  rewrite run_row by reflexivity.
  unfold len. rewrite get_rowf.
  destruct (Nat.ltb_spec (length (_str self)) (S (length (_str self))));
    [reflexivity | lia].
Qed.

End Exact.

(** ** Properties of the table *)

Lemma nth_In_str (s : str) (i : nat) :
  (i < length s)%nat -> In (nth i s Ascii.zero) s.
Proof. intros H. now apply nth_In. Qed.

Lemma lev_dp_upper ic dc rc a b mc :
  0 <= mc ->
  (forall y, In y b -> ic y <= mc) ->
  (forall x, In x a -> dc x <= mc) ->
  forall i j : nat, (i <= length a)%nat -> (j <= length b)%nat ->
  lev_dp ic dc rc a b i j <= (Z.of_nat i + Z.of_nat j) * mc.
Proof.
  intros Hmc Hic Hdc.
  induction i as [|i IHi].
  - induction j as [|j IHj]; intros Hi Hj.
    + simpl. lia.
    + rewrite lev_dp_0_S.
      specialize (IHj Hi ltac:(lia)).
      specialize (Hic _ (nth_In_str b j ltac:(lia))). nia.
  - intros j Hi Hj. destruct j as [|j].
    + rewrite lev_dp_S_0.
      specialize (IHi 0%nat ltac:(lia) ltac:(lia)).
      specialize (Hdc _ (nth_In_str a i ltac:(lia))). nia.
    + rewrite lev_dp_S_S.
      specialize (IHi (S j) ltac:(lia) ltac:(lia)).
      specialize (Hdc _ (nth_In_str a i ltac:(lia))). nia.
Qed.

Lemma lev_dp_transpose ic dc rc a b : forall i j : nat,
  lev_dp ic dc rc a b i j = lev_dp dc ic (fun x y => rc y x) b a j i.
Proof.
  induction i as [|i IHi].
  - induction j as [|j IHj].
    + reflexivity.
    + rewrite lev_dp_0_S, lev_dp_S_0, IHj. reflexivity.
  - induction j as [|j IHj].
    + rewrite lev_dp_S_0, lev_dp_0_S, IHi. reflexivity.
    + rewrite !lev_dp_S_S, IHj, !IHi. lia.
Qed.

Lemma lev_dp_ext ic dc rc ic' dc' rc' a b :
  (forall y, In y b -> ic y = ic' y) ->
  (forall x, In x a -> dc x = dc' x) ->
  (forall x y, In x a -> In y b -> rc y x = rc' y x) ->
  forall i j : nat, (i <= length a)%nat -> (j <= length b)%nat ->
  lev_dp ic dc rc a b i j = lev_dp ic' dc' rc' a b i j.
Proof.
  intros Hic Hdc Hrc.
  induction i as [|i IHi].
  - induction j as [|j IHj]; intros Hi Hj.
    + reflexivity.
    + rewrite !lev_dp_0_S, IHj by lia.
      rewrite (Hic _ (nth_In_str b j ltac:(lia))). reflexivity.
  - induction j as [|j IHj]; intros Hi Hj.
    + rewrite !lev_dp_S_0, IHi by lia.
      rewrite (Hdc _ (nth_In_str a i ltac:(lia))). reflexivity.
    + rewrite !lev_dp_S_S, IHj, !IHi by lia.
      rewrite (Hic _ (nth_In_str b j ltac:(lia))).
      rewrite (Hdc _ (nth_In_str a i ltac:(lia))).
      rewrite (Hrc _ _ (nth_In_str a i ltac:(lia)) (nth_In_str b j ltac:(lia))).
      reflexivity.
Qed.

Lemma sum_costs_snoc f s c : sum_costs f (s ++ [c]) = sum_costs f s + f c.
Proof. induction s as [|x s IH]; simpl; [lia | rewrite IH; lia]. Qed.

Lemma lev_dp_row0 ic dc rc a b (j : nat) :
  (j <= length b)%nat ->
  lev_dp ic dc rc a b 0 j = sum_costs ic (take j b).
Proof.
  induction j as [|j IH]; intros Hj.
  - reflexivity.
  - destruct (lookup_lt_is_Some_2 b j) as [c Hc]; [lia|].
    rewrite lev_dp_0_S, IH, (take_S_r _ _ _ Hc), sum_costs_snoc by lia.
    apply nth_lookup_Some with (d := Ascii.zero) in Hc. now rewrite Hc.
Qed.

Lemma classic_dp_weighted a b : forall i j : nat,
  classic_dp a b i j
  = lev_dp (unary_cost CostNone) (unary_cost CostNone)
      (replace_cost_fun CostNone) a b i j.
Proof.
  induction i as [|i IHi].
  - induction j as [|j IHj].
    + reflexivity.
    + rewrite lev_dp_0_S, <- IHj. simpl. lia.
  - induction j as [|j IHj].
    + rewrite lev_dp_S_0, <- IHi.
      replace (classic_dp a b i 0) with (Z.of_nat i) by (now destruct i).
      simpl. lia.
    + rewrite lev_dp_S_S, <- IHj, <- !IHi.
      change (classic_dp a b (S i) (S j))
        with (Z.min (classic_dp a b (S i) j + 1)
                (Z.min (classic_dp a b i (S j) + 1)
                   (classic_dp a b i j
                    + (if Ascii.eqb (nth i a Ascii.zero) (nth j b Ascii.zero)
                       then 0 else 1)))).
      simpl unary_cost. simpl replace_cost_fun. simpl table_get.
      simpl table_get2.
      destruct (Ascii.eqb_spec (nth i a Ascii.zero) (nth j b Ascii.zero)),
        (Ascii.eqb_spec (nth j b Ascii.zero) (nth i a Ascii.zero));
        simpl; congruence.
Qed.

(** The distance function returns the last cell of the table whenever no
    insertion or deletion costs more than [max_cost]. *)
Lemma levenshtein_distance_table a b mc icost dcost rcost :
  0 <= mc ->
  (forall y, In y b -> unary_cost icost y <= mc) ->
  (forall x, In x a -> unary_cost dcost x <= mc) ->
  levenshtein_distance a b mc icost dcost rcost
  = Some (weighted_distance (unary_cost icost) (unary_cost dcost)
            (replace_cost_fun rcost) a b).
Proof.
  intros Hmc Hic Hdc. unfold levenshtein_distance.
  set (self := new_automaton a ((len a + len b) * mc) icost dcost rcost).
  change (OD.get (len (_str self) - 1) (run self b)
          = Some (lev_dp (_icost self) (_dcost self) (_rcost self) (_str self)
                    b (length (_str self)) (length b))).
  apply run_exact.
  intros i j Hi Hj. simpl in *.
  pose proof (lev_dp_upper (unary_cost icost) (unary_cost dcost)
                (replace_cost_fun rcost) a b mc Hmc Hic Hdc i j Hi Hj).
  unfold len. nia.
Qed.

(** ** Claims about the distance function and the automaton *)

(** C2: with every cost argument left at its default,
    [levenshtein_distance(A, B)] returns the classical edit distance of [A]
    and [B] given by the standard dynamic-programming recurrence. *)
Theorem levenshtein_distance_default_classical (a b : str) :
  levenshtein_distance_default a b = Some (edit_distance a b).
Proof.
  unfold levenshtein_distance_default, edit_distance.
  rewrite levenshtein_distance_table.
  - unfold weighted_distance. now rewrite classic_dp_weighted.
  - lia.
  - intros y _. simpl. lia.
  - intros x _. simpl. lia.
Qed.

Lemma sum_costs_default (s : str) : sum_costs (unary_cost CostNone) s = len s.
Proof.
  unfold len. induction s as [|c s IH]; simpl in *; [reflexivity|].
  rewrite IH. lia.
Qed.

(** C5, as the code has it, for integer costs ([max_cost] and every value
    of a cost table or cost function a Python [int]):
    [levenshtein_distance("", S)] is the sum of the insertion costs of the
    characters of [S] whenever each of them lies between 0 and [max_cost];
    it is [len(S)] under the default costs. *)
Theorem levenshtein_distance_from_empty (s : str) (mc : Z)
    (icost dcost : cost_arg ascii) (rcost : cost_arg (ascii * ascii)) :
  (forall c, In c s -> 0 <= unary_cost icost c <= mc) ->
  levenshtein_distance [] s mc icost dcost rcost
    = Some (sum_costs (unary_cost icost) s)
  /\ levenshtein_distance_default [] s = Some (len s).
Proof.
  intros Hc. split.
  - destruct s as [|c s].
    + reflexivity.
    + rewrite levenshtein_distance_table.
      * unfold weighted_distance. simpl length at 1.
        rewrite lev_dp_row0, firstn_all by reflexivity. reflexivity.
      * specialize (Hc c ltac:(now left)). lia.
      * intros y Hy. apply Hc. exact Hy.
      * intros x [].
  - unfold levenshtein_distance_default.
    rewrite levenshtein_distance_table.
    + unfold weighted_distance. simpl length at 1.
      rewrite lev_dp_row0, firstn_all by reflexivity.
      now rewrite sum_costs_default.
    + lia.
    + intros y _. simpl. lia.
    + intros x [].
Qed.

Lemma levenshtein_distance_from_empty_witness :
  levenshtein_distance [] (chars "ab") 3
    (CostTable [("a"%char, 2); ("b"%char, 3)]) CostNone CostNone = Some 5
  /\ levenshtein_distance_default [] (chars "ab") = Some 2.
Proof.
  apply (levenshtein_distance_from_empty (chars "ab") 3
           (CostTable [("a"%char, 2); ("b"%char, 3)]) CostNone CostNone).
  intros c [<-|[<-|[]]]; simpl; lia.
Defined.

(** C5 as stated fails: with insertion of ["a"] free and deletion at its
    default cost 1, the distance from the empty string to ["a"] is 0, not
    the deletion cost 1; and with an insertion cost of 5, above [max_cost],
    the call raises [KeyError] instead of returning a sum. *)
Lemma levenshtein_distance_from_empty_not_deletions :
  levenshtein_distance [] (chars "a") 1
    (CostTable [("a"%char, 0)]) CostNone CostNone
  <> Some (sum_costs (unary_cost CostNone) (chars "a"))
  /\ levenshtein_distance [] (chars "a") 1
       (CostTable [("a"%char, 5)]) (CostTable [("a"%char, 5)]) CostNone
     = None.
Proof. split; vm_compute; [discriminate | reflexivity]. Qed.

(** C6, as the code has it: with a table for [replace_cost], the
    replacement cost of an identical pair is 0 whatever the table holds; for
    distinct characters it is the table's entry when the pair is a key of the
    table and 1 otherwise. *)
Theorem replace_cost_table (string : str) (d : Z) (icost dcost : cost_arg ascii)
    (table : list ((ascii * ascii) * Z)) (x y : ascii) :
  let rcost := _rcost (new_automaton string d icost dcost (CostTable table)) in
  (x = y -> rcost x y = 0) /\
  (x <> y -> forall v, NoDup (map fst table) -> In ((x, y), v) table ->
     rcost x y = v) /\
  (x <> y -> (forall v, ~ In ((x, y), v) table) -> rcost x y = 1).
Proof.
  simpl. split; [|split].
  - intros ->. now rewrite Ascii.eqb_refl.
  - intros Hne v Hnd Hin.
    destruct (Ascii.eqb_spec x y) as [|_]; [contradiction|]. simpl.
    induction table as [|[[x' y'] v'] r IH]; [destruct Hin|].
    simpl in *. apply NoDup_cons in Hnd as [Hfresh Hnd].
    destruct (Ascii.eqb_spec x' x), (Ascii.eqb_spec y' y); simpl;
      destruct Hin as [E|Hin]; try congruence; try (now apply IH).
    subst. exfalso. apply Hfresh. apply list_elem_of_In.
    change (x, y) with (fst ((x, y), v)). now apply in_map.
  - intros Hne Hno.
    destruct (Ascii.eqb_spec x y) as [|_]; [contradiction|]. simpl.
    induction table as [|[[x' y'] v'] r IH]; [reflexivity|].
    simpl. destruct (Ascii.eqb_spec x' x), (Ascii.eqb_spec y' y); simpl.
    + subst. exfalso. apply (Hno v'). now left.
    + apply IH. intros v Hin. apply (Hno v). now right.
    + apply IH. intros v Hin. apply (Hno v). now right.
    + apply IH. intros v Hin. apply (Hno v). now right.
Qed.

Lemma replace_cost_table_witness :
  let rcost := _rcost (new_automaton (chars "ab") 1 CostNone CostNone
                         (CostTable [(("d"%char, "z"%char), 4)])) in
  rcost "d"%char "d"%char = 0 /\ rcost "d"%char "z"%char = 4
  /\ rcost "z"%char "d"%char = 1.
Proof.
  pose proof (replace_cost_table (chars "ab") 1 CostNone CostNone
                [(("d"%char, "z"%char), 4)]) as H.
  split; [|split].
  - destruct (H "d"%char "d"%char) as (H1 & _ & _). now apply H1.
  - destruct (H "d"%char "z"%char) as (_ & H2 & _).
    apply H2; [discriminate | | now left].
    repeat constructor. intros Hin. inversion Hin.
  - destruct (H "z"%char "d"%char) as (_ & _ & H3).
    apply H3; [discriminate|].
    intros v [E|[]]. discriminate.
Defined.

(** C6 as stated fails: an identical pair that is a key of the table still
    costs 0, not the table's entry. *)
Lemma replace_cost_identical_pair_in_table :
  In (("a"%char, "a"%char), 5) [(("a"%char, "a"%char), 5)] /\
  _rcost (new_automaton (chars "ab") 1 CostNone CostNone
            (CostTable [(("a"%char, "a"%char), 5)])) "a"%char "a"%char <> 5.
Proof. split; [now left | vm_compute; discriminate]. Qed.

(** C8, as the code has it, for integer costs ([max_cost] and every value
    of a cost table or cost function a Python [int]): when the cost
    functions are symmetric and no insertion or deletion of a character of
    [A] or [B] costs more than [max_cost] (nor less than 0), both calls
    return, and they return the same distance. *)
Theorem levenshtein_distance_symmetric (a b : str) (mc : Z)
    (icost dcost : cost_arg ascii) (rcost : cost_arg (ascii * ascii)) :
  (forall c, In c (a ++ b) -> unary_cost icost c = unary_cost dcost c) ->
  (forall x y, replace_cost_fun rcost x y = replace_cost_fun rcost y x) ->
  (forall c, In c (a ++ b) -> 0 <= unary_cost icost c <= mc) ->
  exists v,
    levenshtein_distance a b mc icost dcost rcost = Some v /\
    levenshtein_distance b a mc icost dcost rcost = Some v.
Proof.
  intros Hsym Hrsym Hbound.
  assert (Hin_a : forall c, In c a -> In c (a ++ b))
    by (intros; apply in_or_app; now left).
  assert (Hin_b : forall c, In c b -> In c (a ++ b))
    by (intros; apply in_or_app; now right).
  destruct (a ++ b) as [|c0 rest] eqn:Hab.
  - apply app_eq_nil in Hab as [-> ->]. eexists. split; reflexivity.
  - assert (Hmc : 0 <= mc) by (specialize (Hbound c0 ltac:(now left)); lia).
    exists (weighted_distance (unary_cost icost) (unary_cost dcost)
              (replace_cost_fun rcost) a b).
    split.
    + apply levenshtein_distance_table; [exact Hmc| |].
      * intros y Hy. apply Hbound. auto.
      * intros x Hx. rewrite <- Hsym by auto. apply Hbound. auto.
    + rewrite levenshtein_distance_table; [|exact Hmc| |].
      * f_equal. unfold weighted_distance.
        rewrite (lev_dp_transpose _ _ _ a b).
        apply lev_dp_ext; try lia.
        -- intros y Hy. apply Hsym. auto.
        -- intros x Hx. symmetry. apply Hsym. auto.
        -- intros x y _ _. apply Hrsym.
      * intros y Hy. apply Hbound. auto.
      * intros x Hx. rewrite <- Hsym by auto. apply Hbound. auto.
Qed.

Lemma levenshtein_distance_symmetric_witness :
  exists v,
    levenshtein_distance (chars "abc") (chars "ab") 1
      CostNone CostNone CostNone = Some v /\
    levenshtein_distance (chars "ab") (chars "abc") 1
      CostNone CostNone CostNone = Some v.
Proof.
  apply levenshtein_distance_symmetric.
  - reflexivity.
  - intros x y. simpl.
    destruct (Ascii.eqb_spec x y), (Ascii.eqb_spec y x); simpl; congruence.
  - intros c _. simpl. lia.
Defined.

(** C8 as stated fails: with the same table for insertion and deletion
    (["a"] costs 10, ["b"] costs 0) and the default, symmetric replacement
    cost, the call on ("ab", "a") raises [KeyError] while the call on
    ("a", "ab") returns 0. *)
Lemma levenshtein_distance_not_symmetric :
  let table := CostTable [("a"%char, 10); ("b"%char, 0)] in
  (forall c, unary_cost table c = unary_cost table c) /\
  (forall x y, replace_cost_fun CostNone x y = replace_cost_fun CostNone y x) /\
  levenshtein_distance (chars "ab") (chars "a") 1 table table CostNone
  <> levenshtein_distance (chars "a") (chars "ab") 1 table table CostNone.
Proof.
  split; [reflexivity|]. split.
  - intros x y. simpl.
    destruct (Ascii.eqb_spec x y), (Ascii.eqb_spec y x); simpl; congruence.
  - vm_compute. discriminate.
Qed.

(** C10, as the code has it: every state produced by [start_state], or by
    [step] from such a state, lists its positions in strictly ascending
    order, so its first key is its smallest; every cost stored by [step] is
    at most the budget, and so is every cost of a produced state when the
    budget is not negative ([start_state] stores the sentinel cost 0
    without comparing it to the budget). *)
Theorem produced_state_shape (self : SparseLevenshteinAutomaton)
    (state : OD.t) :
  produced self state ->
  ascending (OD.keys state) /\
  (forall key v rest, state = (key, v) :: rest ->
     Forall (fun k => key <= k) (OD.keys state)) /\
  (0 <= _d self -> costs_within (_d self) state) /\
  (forall char, costs_within (_d self) (step self char (Some state))).
Proof.
  intros Hp. pose proof (produced_ascending self state Hp) as Hasc.
  split; [exact Hasc|]. split; [|split].
  - intros key v rest ->. now apply ascending_head_min.
  - intros Hd. destruct Hp as [|char state' Hp'].
    + now apply start_state_shape.
    + apply step_state_shape. now apply (produced_ascending self).
  - intros char. now apply step_state_shape.
Qed.

Lemma produced_state_shape_witness :
  let self := new_automaton (chars "abc") 1 CostNone CostNone CostNone in
  let state := step self "a"%char (Some (start_state self)) in
  ascending (OD.keys state) /\
  (forall key v rest, state = (key, v) :: rest ->
     Forall (fun k => key <= k) (OD.keys state)) /\
  (0 <= _d self -> costs_within (_d self) state) /\
  (forall char, costs_within (_d self) (step self char (Some state))).
Proof.
  apply produced_state_shape. apply produced_step, produced_start.
Defined.

(** C10 as stated fails: with the default (non-negative) costs and budget
    -1, [start_state] still stores the sentinel cost 0, above the budget. *)
Lemma start_state_negative_budget :
  let self := new_automaton (chars "ab") (-1) CostNone CostNone CostNone in
  (forall c, 0 <= _icost self c) /\ (forall c, 0 <= _dcost self c) /\
  (forall x y, 0 <= _rcost self x y) /\
  produced self (start_state self) /\
  ~ costs_within (_d self) (start_state self).
Proof.
  simpl. repeat split; try (intros; lia).
  - intros x y. destruct (Ascii.eqb x y); simpl; lia.
  - apply (produced_start (new_automaton (chars "ab") (-1) CostNone CostNone CostNone)).
  - intros H. vm_compute in H. inversion H as [|? ? Hle _]. apply Hle. reflexivity.
Qed.

(** ** The ordering guard of [insert] (claims C3 and C7) *)

Lemma ascii_compare_eq x y : Ascii.compare x y = Eq <-> x = y.
Proof.
  split.
  - apply Ascii.compare_eq_iff.
  - intros ->. unfold Ascii.compare. apply N.compare_refl.
Qed.

Lemma ascii_compare_lt x y :
  Ascii.compare x y = Lt <-> (N_of_ascii x < N_of_ascii y)%N.
Proof. unfold Ascii.compare. apply N.compare_lt_iff. Qed.

Lemma ascii_compare_gt x y :
  Ascii.compare x y = Gt <-> (N_of_ascii y < N_of_ascii x)%N.
Proof. unfold Ascii.compare. apply N.compare_gt_iff. Qed.

Lemma str_lt_irrefl a : ~ str_lt a a.
Proof.
  induction a as [|x a IH]; intros H; inversion H; subst.
  - lia.
  - contradiction.
Qed.

Lemma str_compare_lt a : forall b, str_compare a b = Lt <-> str_lt a b.
Proof.
  induction a as [|x a IH]; intros [|y b]; simpl.
  - split; [discriminate | intros H; inversion H].
  - split; [constructor | reflexivity].
  - split; [discriminate | intros H; inversion H].
  - destruct (Ascii.compare x y) eqn:E.
    + apply (proj1 (ascii_compare_eq _ _)) in E. subst y. rewrite IH. split.
      * now constructor.
      * intros H. inversion H; subst; [lia | assumption].
    + apply (proj1 (ascii_compare_lt _ _)) in E. split; [now constructor | reflexivity].
    + apply (proj1 (ascii_compare_gt _ _)) in E. split; [discriminate|].
      intros H. inversion H; subst; [lia|]. lia.
Qed.

Lemma str_compare_gt a : forall b, str_compare a b = Gt <-> str_lt b a.
Proof.
  induction a as [|x a IH]; intros [|y b]; simpl.
  - split; [discriminate | intros H; inversion H].
  - split; [discriminate | intros H; inversion H].
  - split; [constructor | reflexivity].
  - destruct (Ascii.compare x y) eqn:E.
    + apply (proj1 (ascii_compare_eq _ _)) in E. subst y. rewrite IH. split.
      * now constructor.
      * intros H. inversion H; subst; [lia | assumption].
    + apply (proj1 (ascii_compare_lt _ _)) in E. split; [discriminate|].
      intros H. inversion H; subst; [lia|]. lia.
    + apply (proj1 (ascii_compare_gt _ _)) in E. split; [now constructor | reflexivity].
Qed.

Lemma str_leb_false a b : str_leb a b = false <-> str_lt b a.
Proof.
  unfold str_leb. rewrite <- str_compare_gt.
  destruct (str_compare a b); split; congruence.
Qed.

Lemma insert_raises word g :
  insert word g = Raised OrderingViolation
  <-> ~ str_lt (_previous_word g) word.
Proof.
  unfold insert. rewrite <- str_leb_false.
  destruct (str_leb word (_previous_word g)).
  - split; [discriminate | reflexivity].
  - destruct (add_suffix _ _ _). split; [discriminate | congruence].
Qed.

Lemma insert_previous_word word g g' :
  insert word g = Returned g' -> _previous_word g' = word.
Proof.
  unfold insert. destruct (str_leb word (_previous_word g)); [discriminate|].
  destruct (add_suffix _ _ _). intros [= <-]. reflexivity.
Qed.

(** C3: [insert(word)] raises the ordering error exactly when [word] is not
    strictly greater than the previous word of the builder; a word that was
    accepted becomes the previous word, so that inserting it again, or
    inserting a smaller word, raises; inserting ["b"] and then ["a"]
    raises. *)
Theorem insert_ordering (g : Dawg) (word : str) :
  (insert word g = Raised OrderingViolation
   <-> ~ str_lt (_previous_word g) word) /\
  (forall g', insert word g = Returned g' ->
     _previous_word g' = word /\
     insert word g' = Raised OrderingViolation /\
     forall smaller, str_lt smaller word ->
       insert smaller g' = Raised OrderingViolation) /\
  (exists g1, insert (chars "b") Dawg_new = Returned g1 /\
              insert (chars "a") g1 = Raised OrderingViolation).
Proof.
  split; [apply insert_raises|]. split.
  - intros g' Hg'. apply insert_previous_word in Hg'.
    split; [exact Hg'|]. split.
    + apply insert_raises. rewrite Hg'. apply str_lt_irrefl.
    + intros smaller Hlt. apply insert_raises. rewrite Hg'. intros Hgt.
      apply str_compare_lt in Hlt. apply str_compare_gt in Hgt. congruence.
  - eexists. split; reflexivity.
Qed.

(** C7, as the code has it: inserting the empty string raises the ordering
    error in every builder state, the fresh one included, where the
    previous word is the empty string itself; the ordering error is the
    only error [insert] raises. *)
Theorem insert_empty_string (g : Dawg) :
  insert [] g = Raised OrderingViolation /\
  (forall word e, insert word g = Raised e -> e = OrderingViolation).
Proof.
  split.
  - apply insert_raises. intros H. inversion H.
  - intros word []. reflexivity.
Qed.

(** C7 as stated fails: inserting the empty string into a fresh builder
    does not succeed. *)
Lemma insert_empty_string_fresh :
  insert (chars "") Dawg_new = Raised OrderingViolation.
Proof. reflexivity. Qed.

(** ** Edge dictionaries *)

Lemma edges_get_set c c' t es :
  edges_get c (edges_set c' t es)
  = if Ascii.eqb c' c then Some t else edges_get c es.
Proof.
  induction es as [|[c0 t0] r IH]; simpl.
  - reflexivity.
  - destruct (Ascii.eqb_spec c0 c'); simpl.
    + subst c0. destruct (Ascii.eqb c' c); reflexivity.
    + rewrite IH. destruct (Ascii.eqb_spec c0 c), (Ascii.eqb_spec c' c);
        congruence.
Qed.

Lemma edges_get_None c es : edges_get c es = None <-> c ∉ map fst es.
Proof.
  induction es as [|[c0 t0] r IH]; simpl.
  - split; [intros _; apply not_elem_of_nil | reflexivity].
  - rewrite not_elem_of_cons. destruct (Ascii.eqb_spec c0 c).
    + split; [discriminate | intros [? _]; congruence].
    + rewrite IH. split; [intros; split; congruence | tauto].
Qed.

Lemma edges_get_Some_elem c t es : edges_get c es = Some t -> (c, t) ∈ es.
Proof.
  induction es as [|[c0 t0] r IH]; simpl; [discriminate|].
  destruct (Ascii.eqb_spec c0 c).
  - intros [= ->]. subst. apply elem_of_cons. now left.
  - intros H. apply elem_of_cons. right. now apply IH.
Qed.

Lemma elem_edges_get c t es :
  NoDup (map fst es) -> (c, t) ∈ es -> edges_get c es = Some t.
Proof.
  induction es as [|[c0 t0] r IH]; simpl; intros Hnd Hin.
  - now apply elem_of_nil in Hin.
  - apply NoDup_cons in Hnd as [Hfresh Hnd].
    apply elem_of_cons in Hin as [[= <- <-]|Hin].
    + now rewrite Ascii.eqb_refl.
    + destruct (Ascii.eqb_spec c0 c) as [->|_]; [|now apply IH].
      exfalso. apply Hfresh. apply list_elem_of_fmap. now exists (c, t).
Qed.

Lemma keys_edges_set c t es :
  NoDup (map fst es) -> NoDup (map fst (edges_set c t es)).
Proof.
  induction es as [|[c0 t0] r IH]; simpl; intros Hnd.
  - apply NoDup_singleton.
  - apply NoDup_cons in Hnd as [Hfresh Hnd].
    destruct (Ascii.eqb_spec c0 c); simpl.
    + subst. now apply NoDup_cons.
    + apply NoDup_cons. split; [|now apply IH].
      intros Hin. apply list_elem_of_fmap in Hin as [[c1 t1] [E Hin]].
      simpl in E. subst c1. apply Hfresh.
      clear -Hin n. induction r as [|[c2 t2] r IH]; simpl in *.
      * apply list_elem_of_singleton in Hin. congruence.
      * destruct (Ascii.eqb_spec c2 c).
        -- apply elem_of_cons in Hin as [Hin|Hin]; [congruence|].
           apply elem_of_cons. right. apply list_elem_of_fmap. now exists (c0, t1).
        -- apply elem_of_cons in Hin as [[= <- <-]|Hin];
             apply elem_of_cons; [now left | right; now apply IH].
Qed.

Lemma elem_edges_set l t c m es :
  NoDup (map fst es) ->
  (l, t) ∈ edges_set c m es -> (l, t) = (c, m) \/ ((l, t) ∈ es /\ l <> c).
Proof.
  induction es as [|[c0 t0] r IH]; simpl; intros Hnd Hin.
  - apply list_elem_of_singleton in Hin. now left.
  - apply NoDup_cons in Hnd as [Hfresh Hnd].
    destruct (Ascii.eqb_spec c0 c).
    + subst c0. apply elem_of_cons in Hin as [Hin|Hin]; [now left|].
      right. split; [apply elem_of_cons; now right|].
      intros ->. apply Hfresh. apply list_elem_of_fmap. now exists (c, t).
    + apply elem_of_cons in Hin as [[= -> ->]|Hin].
      * right. split; [apply elem_of_cons; now left | assumption].
      * destruct (IH Hnd Hin) as [?|[? ?]]; [now left|].
        right. split; [apply elem_of_cons; now right | assumption].
Qed.

(** ** Reading the store after an update *)

Lemma node_alter (F : DawgNode -> DawgNode) i ns x :
  default new_node (alter F i ns !! x)
  = if bool_decide (x = i /\ (i < length ns)%nat)
    then F (default new_node (ns !! i))
    else default new_node (ns !! x).
Proof.
  case_bool_decide as H.
  - destruct H as [-> Hi]. rewrite list_lookup_alter_eq.
    destruct (lookup_lt_is_Some_2 ns i Hi) as [n ->]. reflexivity.
  - destruct (decide (x = i)) as [->|Hne].
    + rewrite list_lookup_alter_eq.
      rewrite (lookup_ge_None_2 ns i) by lia. reflexivity.
    + now rewrite list_lookup_alter_ne.
Qed.

Lemma node_snoc ns x :
  default new_node ((ns ++ [new_node]) !! x) = default new_node (ns !! x).
Proof.
  destruct (lt_eq_lt_dec x (length ns)) as [[Hlt | ->] | Hgt].
  - now rewrite lookup_app_l.
  - rewrite lookup_app_r, Nat.sub_diag by lia. simpl.
    now rewrite lookup_ge_None_2.
  - rewrite !lookup_ge_None_2; [reflexivity|lia|].
    rewrite length_app. simpl. lia.
Qed.

(** ** The invariant is kept by one round of [_minimize] *)

Section PopEntry.

Variables (g : Dawg) (u : list (nat * ascii * nat)) (p : nat) (c : ascii)
  (ch : nat).
Hypothesis Hinv : shape_inv g.
Hypothesis Hu : _unchecked_nodes g = u ++ [(p, c, ch)].

Let chain0 : list nat := _root g :: map snd u.

Lemma pop_chain : chain g = chain0 ++ [ch].
Proof. unfold chain, chain0. rewrite Hu, map_app. reflexivity. Qed.

Lemma pop_chain0_length : length chain0 = S (length u).
Proof. unfold chain0. simpl. now rewrite length_map. Qed.

Lemma pop_parent : chain0 !! length u = Some p.
Proof.
  pose proof (sh_linked g Hinv (length u) p c ch) as H.
  rewrite Hu, pop_chain in H.
  rewrite (lookup_app_l chain0) in H by (rewrite pop_chain0_length; lia).
  apply H. rewrite lookup_app_r, Nat.sub_diag by lia. reflexivity.
Qed.

Lemma pop_nodup0 : NoDup chain0.
Proof.
  pose proof (sh_nodup g Hinv) as H. rewrite pop_chain in H.
  now apply NoDup_app in H as (H & _ & _).
Qed.

Lemma pop_child_fresh : ch ∉ chain0.
Proof.
  pose proof (sh_nodup g Hinv) as H. rewrite pop_chain in H.
  apply NoDup_app in H as (_ & H & _). intros Hin.
  apply (H ch Hin). apply list_elem_of_singleton. reflexivity.
Qed.

Lemma pop_chain0_sub x : x ∈ chain0 -> x ∈ chain g.
Proof. rewrite pop_chain. intros H. apply elem_of_app. now left. Qed.

Lemma pop_parent_in : p ∈ chain0.
Proof. eapply list_elem_of_lookup_2. apply pop_parent. Qed.

Lemma pop_entry_parent i p' c' ch' :
  u !! i = Some (p', c', ch') -> chain0 !! i = Some p'.
Proof.
  intros Hi. pose proof (lookup_lt_Some _ _ _ Hi) as Hlt.
  pose proof (sh_linked g Hinv i p' c' ch') as H.
  rewrite Hu, pop_chain in H.
  rewrite (lookup_app_l chain0) in H by (rewrite pop_chain0_length; lia).
  apply H. now rewrite lookup_app_l.
Qed.

Lemma pop_other_parent p' c' ch' : (p', c', ch') ∈ u -> p' <> p /\ p' <> ch.
Proof.
  intros Hin. apply list_elem_of_lookup in Hin as [i Hi].
  pose proof (lookup_lt_Some _ _ _ Hi) as Hlt.
  apply pop_entry_parent in Hi. split.
  - intros ->. pose proof (NoDup_lookup _ _ _ _ pop_nodup0 Hi pop_parent). lia.
  - intros ->. apply pop_child_fresh. eapply list_elem_of_lookup_2. exact Hi.
Qed.

Lemma pop_in_unchecked x l t :
  (x, l, t) ∈ _unchecked_nodes g -> (x, l, t) ∈ u \/ (x, l, t) = (p, c, ch).
Proof.
  rewrite Hu. intros H. apply elem_of_app in H as [H|H]; [now left|].
  apply list_elem_of_singleton in H. now right.
Qed.

(** The child is a duplicate of the interned node [m]: the parent's edge is
    redirected to [m]. *)
Lemma shape_pop_redirect m :
  m ∈ _minimized_nodes g ->
  shape_inv
    {| nodes :=
         alter (fun n => {| final := final n;
                            edges := edges_set c m (edges n) |})
           p (nodes g);
       _previous_word := _previous_word g;
       _root := _root g;
       _unchecked_nodes := u;
       _minimized_nodes := _minimized_nodes g |}.
Proof.
  intros Hm.
  destruct (sh_chain g Hinv p (pop_chain0_sub _ pop_parent_in)) as [Hp Hpmin].
  apply list_elem_of_lookup in Hm as [jm Hjm].
  constructor; unfold node_at, chain; simpl.
  - rewrite length_alter. apply (sh_root g Hinv).
  - apply pop_entry_parent.
  - apply pop_nodup0.
  - intros x Hx. rewrite length_alter.
    apply (sh_chain g Hinv). now apply pop_chain0_sub.
  - intros j m' Hj. rewrite length_alter.
    destruct (sh_min g Hinv j m' Hj) as [Hlt Hedges]. split; [exact Hlt|].
    rewrite node_alter. case_bool_decide as Hd; [|exact Hedges].
    destruct Hd as [-> _]. exfalso. apply Hpmin.
    eapply list_elem_of_lookup_2. exact Hj.
  - intros x l t. rewrite node_alter. case_bool_decide as Hd.
    + destruct Hd as [-> _]. simpl. intros Hin.
      apply elem_edges_set in Hin; [|apply (sh_keys g Hinv)].
      destruct Hin as [[= -> ->]|[Hin Hne]].
      * left. eapply list_elem_of_lookup_2. exact Hjm.
      * destruct (sh_edges g Hinv p l t Hin) as [?|Hun]; [now left|].
        apply pop_in_unchecked in Hun as [?|[= ? ?]]; [now right | congruence].
    + intros Hin.
      destruct (sh_edges g Hinv x l t Hin) as [?|Hun]; [now left|].
      apply pop_in_unchecked in Hun as [?|[= -> -> ->]]; [now right|].
      exfalso. apply Hd. split; [reflexivity | exact Hp].
  - intros x l t. rewrite length_alter, node_alter. case_bool_decide as Hd.
    + destruct Hd as [-> _]. simpl. intros Hin.
      apply elem_edges_set in Hin; [|apply (sh_keys g Hinv)].
      destruct Hin as [[= -> ->]|[Hin Hne]].
      * apply (sh_min g Hinv jm m Hjm).
      * apply (sh_targets g Hinv p l t Hin).
    + apply (sh_targets g Hinv).
  - intros x. rewrite node_alter. case_bool_decide as Hd.
    + simpl. apply keys_edges_set, (sh_keys g Hinv).
    + apply (sh_keys g Hinv).
  - intros p' c' ch' Hin. rewrite node_alter.
    destruct (pop_other_parent _ _ _ Hin) as [Hne _].
    case_bool_decide as Hd; [destruct Hd; congruence|].
    apply (sh_link_edge g Hinv). rewrite Hu. apply elem_of_app. now left.
Qed.

(** The child is new: it is interned. *)
Lemma shape_pop_intern :
  shape_inv
    {| nodes := nodes g;
       _previous_word := _previous_word g;
       _root := _root g;
       _unchecked_nodes := u;
       _minimized_nodes := _minimized_nodes g ++ [ch] |}.
Proof.
  assert (Hch : ch ∈ chain g).
  { rewrite pop_chain. apply elem_of_app. right.
    apply list_elem_of_singleton. reflexivity. }
  constructor; unfold node_at, chain; simpl.
  - apply (sh_root g Hinv).
  - apply pop_entry_parent.
  - apply pop_nodup0.
  - intros x Hx.
    destruct (sh_chain g Hinv x (pop_chain0_sub _ Hx)) as [Hlt Hmin].
    split; [exact Hlt|]. rewrite elem_of_app, list_elem_of_singleton.
    intros [?| ->]; [contradiction|]. now apply pop_child_fresh.
  - intros j m Hj. apply lookup_app_Some in Hj as [Hj|[Hge Hj]].
    + destruct (sh_min g Hinv j m Hj) as [Hlt Hedges]. split; [exact Hlt|].
      intros l t Hin. destruct (Hedges l t Hin) as (j' & Hj' & Hl).
      exists j'. split; [exact Hj'|]. now apply lookup_app_l_Some.
    + apply list_lookup_singleton_Some in Hj as [Hj0 <-].
      split; [apply (sh_chain g Hinv ch Hch)|].
      intros l t Hin. destruct (sh_edges g Hinv ch l t Hin) as [Ht|Hun].
      * apply list_elem_of_lookup in Ht as [j' Hj'].
        exists j'. split; [|now apply lookup_app_l_Some].
        apply lookup_lt_Some in Hj'. lia.
      * exfalso. apply pop_in_unchecked in Hun as [Hun|[= E _ _]].
        -- now apply pop_other_parent in Hun as [_ ?].
        -- apply pop_child_fresh. rewrite E. apply pop_parent_in.
  - intros x l t Hin. rewrite elem_of_app, list_elem_of_singleton.
    destruct (sh_edges g Hinv x l t Hin) as [?|Hun]; [now left; left|].
    apply pop_in_unchecked in Hun as [?|[= _ _ ->]]; [now right|].
    left. now right.
  - apply (sh_targets g Hinv).
  - apply (sh_keys g Hinv).
  - intros p' c' ch' Hin. apply (sh_link_edge g Hinv).
    rewrite Hu. apply elem_of_app. now left.
Qed.

End PopEntry.

Lemma minimize_step_last g u p c ch :
  _unchecked_nodes g = u ++ [(p, c, ch)] ->
  minimize_step g (length (_unchecked_nodes g) - 1)
  = match find_minimized g ch with
    | Some m =>
        {| nodes :=
             alter (fun n => {| final := final n;
                                edges := edges_set c m (edges n) |})
               p (nodes g);
           _previous_word := _previous_word g;
           _root := _root g;
           _unchecked_nodes := u;
           _minimized_nodes := _minimized_nodes g |}
    | None =>
        {| nodes := nodes g;
           _previous_word := _previous_word g;
           _root := _root g;
           _unchecked_nodes := u;
           _minimized_nodes := _minimized_nodes g ++ [ch] |}
    end.
Proof.
  intros Hu. unfold minimize_step. rewrite Hu.
  replace (length (u ++ [(p, c, ch)]) - 1)%nat with (length u)
    by (rewrite length_app; simpl; lia).
  rewrite lookup_app_r, Nat.sub_diag by lia. simpl.
  destruct (find_minimized g ch); simpl; rewrite ?Hu, removelast_last;
    reflexivity.
Qed.

(** ** The rendering of a node determines it *)

Lemma uint_digits d :
  Forall (fun c => is_digit c = true)
    (list_ascii_of_string (NilEmpty.string_of_uint d)).
Proof. induction d; simpl; constructor; auto. Qed.

Lemma str_of_nat_digits n : Forall (fun c => is_digit c = true) (str_of_nat n).
Proof. apply uint_digits. Qed.

Lemma str_of_nat_inj n n' : str_of_nat n = str_of_nat n' -> n = n'.
Proof.
  unfold str_of_nat. intros H.
  apply (f_equal string_of_list_ascii) in H.
  rewrite !string_of_list_ascii_of_string in H.
  apply (f_equal NilEmpty.uint_of_string) in H.
  rewrite !NilEmpty.usu in H. injection H as H.
  now apply Unsigned.to_uint_inj.
Qed.

Lemma digits_split a1 : forall a2 r1 r2,
  Forall (fun c => is_digit c = true) a1 ->
  Forall (fun c => is_digit c = true) a2 ->
  no_digit_head r1 -> no_digit_head r2 ->
  a1 ++ r1 = a2 ++ r2 -> a1 = a2 /\ r1 = r2.
Proof.
  induction a1 as [|c a1 IH]; intros [|c' a2] r1 r2 H1 H2 Hr1 Hr2 E; simpl in E.
  - now split.
  - subst r1. apply Forall_cons_1 in H2 as [H2 _]. simpl in Hr1. congruence.
  - subst r2. apply Forall_cons_1 in H1 as [H1 _]. simpl in Hr2. congruence.
  - injection E as <- E.
    apply Forall_cons_1 in H1 as [_ H1]. apply Forall_cons_1 in H2 as [_ H2].
    destruct (IH a2 r1 r2 H1 H2 Hr1 Hr2 E) as [-> ->]. now split.
Qed.

Lemma render_edges_head es : no_digit_head (render_edges es).
Proof. destruct es as [|[l t] r]; simpl; [exact I | reflexivity]. Qed.

Lemma render_edges_inj es : forall es',
  render_edges es = render_edges es' -> es = es'.
Proof.
  induction es as [|[l t] r IH]; intros [|[l' t'] r'] E; simpl in E;
    try discriminate; [reflexivity|].
  injection E as <- E.
  apply digits_split in E as [Et Er];
    auto using str_of_nat_digits, render_edges_head.
  apply str_of_nat_inj in Et. subst t'. now rewrite (IH r' Er).
Qed.

Lemma node_str_inj n n' : node_str n = node_str n' -> n = n'.
Proof.
  destruct n as [f es], n' as [f' es']. unfold node_str. simpl.
  intros E. injection E as Ef Ees.
  apply render_edges_inj in Ees. subst es'.
  destruct f, f'; try reflexivity; discriminate.
Qed.

Lemma find_minimized_Some g ch m :
  find_minimized g ch = Some m ->
  m ∈ _minimized_nodes g /\ node_at g m = node_at g ch.
Proof.
  unfold find_minimized. intros H. apply find_some in H as [Hin Heq].
  split; [now apply list_elem_of_In|].
  unfold node_eqb in Heq. apply bool_decide_eq_true in Heq.
  now apply node_str_inj.
Qed.

Lemma minimize_step_fields g :
  _unchecked_nodes g <> [] ->
  let g' := minimize_step g (length (_unchecked_nodes g) - 1) in
  _unchecked_nodes g' = removelast (_unchecked_nodes g) /\
  _root g' = _root g /\ _previous_word g' = _previous_word g /\
  length (nodes g') = length (nodes g).
Proof.
  intros Hne.
  destruct (exists_last Hne) as (u & [[p c] ch] & Hu). simpl.
  rewrite (minimize_step_last g u p c ch Hu), Hu, removelast_last.
  destruct (find_minimized g ch); simpl; rewrite ?length_alter; auto.
Qed.

Lemma minimize_unfold d g :
  _minimize d g
  = if decide (d < length (_unchecked_nodes g))%nat
    then _minimize d (minimize_step g (length (_unchecked_nodes g) - 1))
    else g.
Proof.
  unfold _minimize at 1. case_decide as Hd.
  - assert (Hne : _unchecked_nodes g <> [])
      by (intros E; rewrite E in Hd; simpl in Hd; lia).
    destruct (minimize_step_fields g Hne) as (Hu & _).
    unfold _minimize. rewrite Hu.
    replace (length (removelast (_unchecked_nodes g)))
      with (length (_unchecked_nodes g) - 1)%nat
      by (rewrite removelast_firstn_len, length_take; lia).
    replace (length (_unchecked_nodes g) - d)%nat
      with (S (length (_unchecked_nodes g) - 1 - d)) by lia.
    rewrite seq_S, rev_app_distr. simpl.
    replace (d + (length (_unchecked_nodes g) - 1 - d))%nat
      with (length (_unchecked_nodes g) - 1)%nat by lia.
    reflexivity.
  - replace (length (_unchecked_nodes g) - d)%nat with 0%nat by lia.
    reflexivity.
Qed.

(** Induction over the rounds of [_minimize]. *)
Lemma minimize_ind (P : Dawg -> Prop) d :
  (forall g u p c ch,
     P g -> _unchecked_nodes g = u ++ [(p, c, ch)] ->
     (d <= length u)%nat ->
     P (minimize_step g (length (_unchecked_nodes g) - 1))) ->
  forall g, P g -> P (_minimize d g).
Proof.
  intros Hstep g.
  remember (length (_unchecked_nodes g)) as n eqn:Hn.
  revert g Hn. induction n as [|n IH]; intros g Hn Hg;
    rewrite minimize_unfold; case_decide as Hd; try exact Hg; [lia|].
  assert (Hne : _unchecked_nodes g <> [])
    by (intros E; rewrite E in Hn; discriminate).
  destruct (exists_last Hne) as (u & [[p c] ch] & Hu).
  assert (Hlen : length u = n)
    by (rewrite Hu, length_app in Hn; simpl in Hn; lia).
  apply IH.
  - destruct (minimize_step_fields g Hne) as (-> & _).
    rewrite Hu, removelast_last. now symmetry.
  - apply (Hstep g u p c ch Hg Hu). lia.
Qed.

Lemma shape_minimize_step g u p c ch :
  shape_inv g -> _unchecked_nodes g = u ++ [(p, c, ch)] ->
  shape_inv (minimize_step g (length (_unchecked_nodes g) - 1)).
Proof.
  intros Hinv Hu. rewrite (minimize_step_last g u p c ch Hu).
  destruct (find_minimized g ch) as [m|] eqn:Hf.
  - apply find_minimized_Some in Hf as [Hm _].
    now apply (shape_pop_redirect g u p c ch).
  - now apply (shape_pop_intern g u p c ch).
Qed.

Lemma shape_minimize d g : shape_inv g -> shape_inv (_minimize d g).
Proof.
  apply (minimize_ind shape_inv). intros g0 u p c ch Hg Hu _.
  now apply (shape_minimize_step g0 u p c ch).
Qed.

Lemma minimize_fields d g :
  _unchecked_nodes (_minimize d g) = take d (_unchecked_nodes g) /\
  _root (_minimize d g) = _root g /\
  _previous_word (_minimize d g) = _previous_word g /\
  length (nodes (_minimize d g)) = length (nodes g).
Proof.
  remember (length (_unchecked_nodes g)) as n eqn:Hn.
  revert g Hn. induction n as [|n IH]; intros g Hn;
    rewrite minimize_unfold; case_decide as Hd; try lia.
  - rewrite take_ge by lia. auto.
  - assert (Hne : _unchecked_nodes g <> [])
      by (intros E; rewrite E in Hn; discriminate).
    destruct (minimize_step_fields g Hne) as (Hu & Hr & Hp & Hl).
    destruct (IH (minimize_step g (length (_unchecked_nodes g) - 1)))
      as (IHu & IHr & IHp & IHl).
    + rewrite Hu, removelast_firstn_len, length_take. lia.
    + rewrite IHu, IHr, IHp, IHl, Hu, Hr, Hp, Hl.
      rewrite removelast_firstn_len, take_take.
      repeat split; try reflexivity. f_equal. lia.
  - rewrite take_ge by lia. auto.
Qed.

(** ** The invariant is kept by the loop that adds the suffix *)

Lemma node_at_add_node g node char x :
  (node < length (nodes g))%nat ->
  node_at (add_node node char g) x
  = if bool_decide (x = node)
    then {| final := final (node_at g node);
            edges := edges_set char (length (nodes g)) (edges (node_at g node)) |}
    else node_at g x.
Proof.
  intros Hlt. unfold node_at, add_node. simpl.
  rewrite node_alter, !node_snoc.
  case_bool_decide as H1; case_bool_decide as H2; try reflexivity.
  - destruct H1. contradiction.
  - exfalso. apply H1. split; [exact H2|]. rewrite length_app. simpl. lia.
Qed.

Lemma chain_add_node g node char :
  chain (add_node node char g) = chain g ++ [length (nodes g)].
Proof. unfold chain, add_node. simpl. rewrite map_app. reflexivity. Qed.

Lemma length_nodes_add_node g node char :
  length (nodes (add_node node char g)) = S (length (nodes g)).
Proof.
  unfold add_node. simpl. rewrite length_alter, length_app. simpl. lia.
Qed.

Lemma chain_length g : length (chain g) = S (length (_unchecked_nodes g)).
Proof. unfold chain. simpl. now rewrite length_map. Qed.

Lemma shape_add_node g node char :
  shape_inv g ->
  chain g !! length (_unchecked_nodes g) = Some node ->
  shape_inv (add_node node char g).
Proof.
  intros Hinv Hnode.
  assert (Hin : node ∈ chain g) by (eapply list_elem_of_lookup_2; exact Hnode).
  destruct (sh_chain g Hinv node Hin) as [Hlt Hnmin].
  assert (Hfresh : length (nodes g) ∉ chain g).
  { intros H. apply (sh_chain g Hinv) in H as [H _]. lia. }
  constructor.
  - rewrite length_nodes_add_node. pose proof (sh_root g Hinv). simpl. lia.
  - intros i p c ch. rewrite chain_add_node.
    change (_unchecked_nodes (add_node node char g))
      with (_unchecked_nodes g ++ [(node, char, length (nodes g))]).
    intros Hi. apply lookup_app_Some in Hi as [Hi|[Hge Hi]].
    + pose proof (lookup_lt_Some _ _ _ Hi).
      rewrite lookup_app_l by (rewrite chain_length; lia).
      now apply (sh_linked g Hinv i p c ch).
    + apply list_lookup_singleton_Some in Hi as [Hi0 [= <- <- <-]].
      replace i with (length (_unchecked_nodes g)) by lia.
      rewrite lookup_app_l by (rewrite chain_length; lia). exact Hnode.
  - rewrite chain_add_node. apply NoDup_app. split; [apply (sh_nodup g Hinv)|].
    split; [|apply NoDup_singleton].
    intros x Hx Hx'. apply list_elem_of_singleton in Hx'. subst x. contradiction.
  - intros x. rewrite chain_add_node, length_nodes_add_node, elem_of_app.
    intros [Hx|Hx].
    + destruct (sh_chain g Hinv x Hx). split; [lia | assumption].
    + apply list_elem_of_singleton in Hx. subst x. split; [lia|].
      intros H. apply list_elem_of_lookup in H as [j Hj].
      apply (sh_min g Hinv) in Hj as [Hj _]. lia.
  - intros j m Hj. rewrite length_nodes_add_node.
    change (_minimized_nodes (add_node node char g))
      with (_minimized_nodes g) in *.
    destruct (sh_min g Hinv j m Hj) as [Hm Hedges]. split; [lia|].
    rewrite node_at_add_node by exact Hlt.
    case_bool_decide as Hd; [|exact Hedges].
    subst m. exfalso. apply Hnmin. eapply list_elem_of_lookup_2. exact Hj.
  - intros x l t. rewrite node_at_add_node by exact Hlt.
    change (_minimized_nodes (add_node node char g)) with (_minimized_nodes g).
    change (_unchecked_nodes (add_node node char g))
      with (_unchecked_nodes g ++ [(node, char, length (nodes g))]).
    rewrite elem_of_app, list_elem_of_singleton.
    case_bool_decide as Hd.
    + subst x. simpl. intros Hl.
      apply elem_edges_set in Hl; [|apply (sh_keys g Hinv)].
      destruct Hl as [[= -> ->]|[Hl _]]; [right; now right|].
      destruct (sh_edges g Hinv node l t Hl); [now left | right; now left].
    + intros Hl.
      destruct (sh_edges g Hinv x l t Hl); [now left | right; now left].
  - intros x l t. rewrite node_at_add_node, length_nodes_add_node by exact Hlt.
    case_bool_decide as Hd.
    + simpl. intros Hl.
      apply elem_edges_set in Hl; [|apply (sh_keys g Hinv)].
      destruct Hl as [[= -> ->]|[Hl _]]; [lia|].
      pose proof (sh_targets g Hinv node l t Hl). lia.
    + intros Hl. pose proof (sh_targets g Hinv x l t Hl). lia.
  - intros x. rewrite node_at_add_node by exact Hlt. case_bool_decide.
    + simpl. apply keys_edges_set, (sh_keys g Hinv).
    + apply (sh_keys g Hinv).
  - intros p c ch.
    change (_unchecked_nodes (add_node node char g))
      with (_unchecked_nodes g ++ [(node, char, length (nodes g))]).
    rewrite elem_of_app, list_elem_of_singleton.
    rewrite node_at_add_node by exact Hlt. intros [Hp|[= -> -> ->]].
    + case_bool_decide as Hd; [|now apply (sh_link_edge g Hinv)].
      subst p. exfalso. apply list_elem_of_lookup in Hp as [i Hi].
      pose proof (lookup_lt_Some _ _ _ Hi).
      apply (sh_linked g Hinv) in Hi.
      pose proof (NoDup_lookup _ _ _ _ (sh_nodup g Hinv) Hi Hnode). lia.
    + rewrite bool_decide_true by reflexivity. simpl.
      rewrite edges_get_set. now rewrite Ascii.eqb_refl.
Qed.

Lemma chain_last_add_node g node char :
  chain (add_node node char g)
    !! length (_unchecked_nodes (add_node node char g))
  = Some (length (nodes g)).
Proof.
  rewrite chain_add_node.
  change (_unchecked_nodes (add_node node char g))
    with (_unchecked_nodes g ++ [(node, char, length (nodes g))]).
  rewrite length_app.
  rewrite lookup_app_r by (rewrite chain_length; simpl; lia).
  rewrite chain_length. simpl length.
  replace (length (_unchecked_nodes g) + 1 - S (length (_unchecked_nodes g)))%nat
    with 0%nat by lia.
  reflexivity.
Qed.

Lemma shape_add_suffix suffix : forall g node,
  shape_inv g ->
  chain g !! length (_unchecked_nodes g) = Some node ->
  shape_inv (add_suffix suffix node g).2.
Proof.
  induction suffix as [|char rest IH]; intros g node Hinv Hnode; simpl.
  - exact Hinv.
  - apply IH.
    + now apply shape_add_node.
    + apply chain_last_add_node.
Qed.

(** ** [node.final = True] and the other fields keep the invariant *)

Lemma edges_alter_final (i : nat) (ns : list DawgNode) (x : nat) :
  edges (default new_node
           (alter (fun n => {| final := true; edges := edges n |}) i ns !! x))
  = edges (default new_node (ns !! x)).
Proof. rewrite node_alter. case_bool_decide as H; [destruct H as [-> _]|]; reflexivity. Qed.

Lemma shape_set_final g node word :
  shape_inv g ->
  shape_inv
    {| nodes := nodes (set_final node g);
       _previous_word := word;
       _root := _root (set_final node g);
       _unchecked_nodes := _unchecked_nodes (set_final node g);
       _minimized_nodes := _minimized_nodes (set_final node g) |}.
Proof.
  intros Hinv.
  constructor; unfold node_at, chain; simpl;
    rewrite ?length_alter; try setoid_rewrite edges_alter_final;
    try setoid_rewrite length_alter.
  - apply (sh_root g Hinv).
  - apply (sh_linked g Hinv).
  - apply (sh_nodup g Hinv).
  - apply (sh_chain g Hinv).
  - apply (sh_min g Hinv).
  - apply (sh_edges g Hinv).
  - apply (sh_targets g Hinv).
  - apply (sh_keys g Hinv).
  - apply (sh_link_edge g Hinv).
Qed.

Lemma chain_last g :
  chain g !! length (_unchecked_nodes g)
  = Some match last (_unchecked_nodes g) with
         | None => _root g
         | Some (_, _, child) => child
         end.
Proof.
  unfold chain.
  destruct (_unchecked_nodes g) as [|e u] using rev_ind; [reflexivity|].
  rewrite last_snoc, map_app, length_app. simpl.
  replace (length u + 1)%nat with (S (length u)) by lia. simpl.
  rewrite lookup_app_r by (rewrite length_map; lia).
  rewrite length_map, Nat.sub_diag. now destruct e as [[? ?] ?].
Qed.

Lemma shape_insert word g g' :
  shape_inv g -> insert word g = Returned g' -> shape_inv g'.
Proof.
  intros Hinv. unfold insert.
  destruct (str_leb word (_previous_word g)); [discriminate|].
  destruct (add_suffix _ _ _) as [node g1] eqn:Hadd. intros [= <-].
  apply shape_set_final.
  change g1 with ((node, g1).2). rewrite <- Hadd.
  apply shape_add_suffix.
  - now apply shape_minimize.
  - apply chain_last.
Qed.

Lemma shape_new : shape_inv Dawg_new.
Proof.
  constructor; unfold node_at, chain; simpl.
  - lia.
  - intros i p c ch H. now rewrite lookup_nil in H.
  - apply NoDup_singleton.
  - intros x Hx. apply list_elem_of_singleton in Hx. subst.
    split; [lia | apply not_elem_of_nil].
  - intros j m H. now rewrite lookup_nil in H.
  - intros [|x] l t H; simpl in H; now apply elem_of_nil in H.
  - intros [|x] l t H; simpl in H; now apply elem_of_nil in H.
  - intros [|x]; simpl; apply NoDup_nil_2.
  - intros p c ch H. now apply elem_of_nil in H.
Qed.

Lemma reachable_shape g : reachable g -> shape_inv g.
Proof.
  induction 1 as [|word g g' _ IH Hins|g _ IH].
  - apply shape_new.
  - now apply (shape_insert word g g').
  - now apply shape_minimize.
Qed.

(** ** Every edge decreases the rank (claim C9) *)

Lemma index_of_Some x l : forall i,
  index_of x l = Some i -> l !! i = Some x.
Proof.
  induction l as [|y r IH]; intros i; simpl; [discriminate|].
  destruct (Nat.eqb_spec y x) as [->|Hne].
  - intros [= <-]. reflexivity.
  - destruct (index_of x r) as [i'|]; [|discriminate].
    intros [= <-]. simpl. now apply IH.
Qed.

Lemma index_of_None x l : index_of x l = None -> x ∉ l.
Proof.
  induction l as [|y r IH]; simpl; intros H.
  - apply not_elem_of_nil.
  - destruct (Nat.eqb_spec y x) as [->|Hne]; [discriminate|].
    destruct (index_of x r); [discriminate|].
    apply not_elem_of_cons. split; [congruence | now apply IH].
Qed.

Lemma index_of_first x l : forall j,
  l !! j = Some x -> exists i, index_of x l = Some i /\ (i <= j)%nat.
Proof.
  induction l as [|y r IH]; intros j Hj; [now rewrite lookup_nil in Hj|].
  simpl. destruct (Nat.eqb_spec y x) as [->|Hne].
  - exists 0%nat. split; [reflexivity | lia].
  - destruct j as [|j]; simpl in Hj; [congruence|].
    destruct (IH j Hj) as (i & -> & Hi). exists (S i). split; [reflexivity | lia].
Qed.

Lemma index_of_NoDup x l j :
  NoDup l -> l !! j = Some x -> index_of x l = Some j.
Proof.
  intros Hnd Hj. destruct (index_of_first x l j Hj) as (i & Hi & _).
  rewrite Hi. f_equal. apply index_of_Some in Hi.
  apply (NoDup_lookup _ _ _ _ Hnd Hi Hj).
Qed.

Lemma rank_interned g j m :
  _minimized_nodes g !! j = Some m -> (rank g m <= j)%nat.
Proof.
  intros Hj. unfold rank.
  destruct (index_of_first m _ j Hj) as (i & -> & Hi). exact Hi.
Qed.

Lemma rank_not_interned g x :
  x ∉ _minimized_nodes g -> (length (_minimized_nodes g) <= rank g x)%nat.
Proof.
  intros Hx. unfold rank.
  destruct (index_of x (_minimized_nodes g)) as [j|] eqn:E.
  - exfalso. apply Hx. apply index_of_Some in E.
    eapply list_elem_of_lookup_2. exact E.
  - destruct (index_of x (chain g)); lia.
Qed.

Lemma edge_rank g x l t :
  shape_inv g -> (l, t) ∈ edges (node_at g x) -> (rank g t < rank g x)%nat.
Proof.
  intros Hinv Hl.
  destruct (index_of x (_minimized_nodes g)) as [j|] eqn:Ex.
  - pose proof (index_of_Some _ _ _ Ex) as Hj.
    destruct (sh_min g Hinv j x Hj) as [_ Hedges].
    destruct (Hedges l t Hl) as (j' & Hlt & Hj').
    pose proof (rank_interned g j' t Hj').
    unfold rank at 2. rewrite Ex. lia.
  - pose proof (index_of_None _ _ Ex) as Hx.
    destruct (sh_edges g Hinv x l t Hl) as [Ht|Hun].
    + apply list_elem_of_lookup in Ht as [j' Hj'].
      pose proof (rank_interned g j' t Hj').
      pose proof (lookup_lt_Some _ _ _ Hj').
      pose proof (rank_not_interned g x Hx). lia.
    + apply list_elem_of_lookup in Hun as [i Hi].
      pose proof (lookup_lt_Some _ _ _ Hi) as Hlt.
      pose proof (sh_linked g Hinv i x l t Hi) as Hpx.
      assert (Hpt : chain g !! S i = Some t).
      { unfold chain. simpl. rewrite list_lookup_fmap, Hi. reflexivity. }
      assert (Htmin : t ∉ _minimized_nodes g).
      { apply (sh_chain g Hinv). eapply list_elem_of_lookup_2. exact Hpt. }
      unfold rank. rewrite Ex.
      rewrite (index_of_NoDup _ _ _ (sh_nodup g Hinv) Hpx).
      destruct (index_of t (_minimized_nodes g)) as [jt|] eqn:Et.
      { exfalso. apply Htmin. apply index_of_Some in Et.
        eapply list_elem_of_lookup_2. exact Et. }
      rewrite (index_of_NoDup _ _ _ (sh_nodup g Hinv) Hpt). lia.
Qed.

Lemma path_rank g x y :
  shape_inv g -> tc (edge g) x y -> (rank g y < rank g x)%nat.
Proof.
  intros Hinv. induction 1 as [x y [l Hl]|x y z [l Hl] _ IH].
  - apply (edge_rank g x l y Hinv). now apply list_elem_of_In.
  - pose proof (edge_rank g x l y Hinv). rewrite list_elem_of_In in H.
    specialize (H Hl). lia.
Qed.

Lemma shape_acyclic g : shape_inv g -> acyclic g.
Proof.
  intros Hinv x Hx. pose proof (path_rank g x x Hinv Hx). lia.
Qed.

Lemma insert_all_reachable words : forall g g',
  reachable g -> insert_all words g = Returned g' -> reachable g'.
Proof.
  induction words as [|word rest IH]; intros g g' Hg; simpl.
  - intros [= <-]. exact Hg.
  - destruct (insert word g) as [g1|] eqn:Hins; [|discriminate].
    apply IH. now apply (reachable_insert word g g1).
Qed.

Lemma build_reachable words g : build words = Returned g -> reachable g.
Proof.
  unfold build. destruct (insert_all words Dawg_new) as [g1|] eqn:E;
    [|discriminate].
  intros [= <-]. apply reachable_finish.
  now apply (insert_all_reachable words Dawg_new g1 reachable_new).
Qed.

(** C9: the graph of every builder state reached by successful inserts and
    by [finish] is acyclic, and so is the graph after any run of
    [_minimize], whose edge rewriting therefore introduces no cycle. *)
Theorem reachable_acyclic (g : Dawg) :
  reachable g ->
  acyclic g /\ forall down_to, acyclic (_minimize down_to g).
Proof.
  intros Hr. apply reachable_shape in Hr. split.
  - now apply shape_acyclic.
  - intros d. now apply shape_acyclic, shape_minimize.
Qed.

Lemma reachable_acyclic_witness :
  exists g, build [chars "ab"; chars "bb"] = Returned g /\ acyclic g /\
            forall down_to, acyclic (_minimize down_to g).
Proof.
  eexists. split; [vm_compute; reflexivity|].
  apply reachable_acyclic.
  apply (build_reachable [chars "ab"; chars "bb"]).
  vm_compute. reflexivity.
Defined.

(** ** Interned nodes are never modified *)

(** This is what makes the probe of [_minimized_nodes] by the current
    rendering of its keys agree with Python's, which keeps the hash a key
    had when it was stored. *)

Lemma keeps_interned_refl g : keeps_interned g g.
Proof. intros m Hm. now split. Qed.

Lemma keeps_interned_trans g1 g2 g3 :
  keeps_interned g1 g2 -> keeps_interned g2 g3 -> keeps_interned g1 g3.
Proof.
  intros H12 H23 m Hm. destruct (H12 m Hm) as [Hm2 E2].
  destruct (H23 m Hm2) as [Hm3 E3]. split; [exact Hm3 | congruence].
Qed.

Lemma frozen_minimize_step g u p c ch :
  shape_inv g -> _unchecked_nodes g = u ++ [(p, c, ch)] ->
  keeps_interned g (minimize_step g (length (_unchecked_nodes g) - 1)).
Proof.
  intros Hinv Hu m Hm. rewrite (minimize_step_last g u p c ch Hu).
  destruct (find_minimized g ch) as [m'|]; unfold node_at; simpl.
  - split; [exact Hm|]. rewrite node_alter.
    case_bool_decide as Hd; [|reflexivity].
    destruct Hd as [-> _]. exfalso.
    apply (sh_chain g Hinv p); [|exact Hm].
    apply (pop_chain0_sub g u p c ch Hu), (pop_parent_in g u p c ch Hinv Hu).
  - split; [|reflexivity]. apply elem_of_app. now left.
Qed.

Lemma frozen_minimize d g :
  shape_inv g -> keeps_interned g (_minimize d g).
Proof.
  intros Hinv.
  enough (H : shape_inv (_minimize d g) /\ keeps_interned g (_minimize d g))
    by apply H.
  apply (minimize_ind (fun g' => shape_inv g' /\ keeps_interned g g')).
  - intros g0 u p c ch [Hg0 Hk] Hu _. split.
    + now apply (shape_minimize_step g0 u p c ch).
    + apply (keeps_interned_trans g g0); [exact Hk|].
      now apply (frozen_minimize_step g0 u p c ch).
  - split; [exact Hinv | apply keeps_interned_refl].
Qed.

Lemma frozen_add_node g node char :
  shape_inv g -> chain g !! length (_unchecked_nodes g) = Some node ->
  keeps_interned g (add_node node char g).
Proof.
  intros Hinv Hnode m Hm.
  assert (Hin : node ∈ chain g) by (eapply list_elem_of_lookup_2; exact Hnode).
  destruct (sh_chain g Hinv node Hin) as [Hlt Hnmin].
  split; [exact Hm|]. rewrite node_at_add_node by exact Hlt.
  case_bool_decide as Hd; [|reflexivity]. subst m. contradiction.
Qed.

Lemma frozen_add_suffix suffix : forall g node,
  shape_inv g -> chain g !! length (_unchecked_nodes g) = Some node ->
  keeps_interned g (add_suffix suffix node g).2.
Proof.
  induction suffix as [|char rest IH]; intros g node Hinv Hnode; simpl.
  - apply keeps_interned_refl.
  - apply (keeps_interned_trans g (add_node node char g)).
    + now apply frozen_add_node.
    + apply IH; [now apply shape_add_node | apply chain_last_add_node].
Qed.

Lemma add_suffix_last suffix : forall g node,
  chain g !! length (_unchecked_nodes g) = Some node ->
  let r := add_suffix suffix node g in
  chain r.2 !! length (_unchecked_nodes r.2) = Some r.1.
Proof.
  induction suffix as [|char rest IH]; intros g node Hnode; simpl.
  - exact Hnode.
  - apply IH, chain_last_add_node.
Qed.

Lemma frozen_set_final g last word :
  shape_inv g -> last ∈ chain g ->
  keeps_interned g
    {| nodes := nodes (set_final last g);
       _previous_word := word;
       _root := _root (set_final last g);
       _unchecked_nodes := _unchecked_nodes (set_final last g);
       _minimized_nodes := _minimized_nodes (set_final last g) |}.
Proof.
  intros Hinv Hlast m Hm. split; [exact Hm|].
  unfold node_at. simpl. rewrite node_alter.
  case_bool_decide as Hd; [|reflexivity]. destruct Hd as [-> _].
  exfalso. now apply (sh_chain g Hinv last).
Qed.

Lemma frozen_insert word g g' :
  shape_inv g -> insert word g = Returned g' -> keeps_interned g g'.
Proof.
  intros Hinv. unfold insert.
  destruct (str_leb word (_previous_word g)); [discriminate|].
  pose proof (shape_minimize (common_prefix word (_previous_word g)) g Hinv)
    as Hinv1.
  pose proof (frozen_add_suffix (drop (common_prefix word (_previous_word g)) word)
                _ _ Hinv1 (chain_last _)) as H2.
  pose proof (shape_add_suffix (drop (common_prefix word (_previous_word g)) word)
                _ _ Hinv1 (chain_last _)) as Hinv2.
  pose proof (add_suffix_last (drop (common_prefix word (_previous_word g)) word)
                _ _ (chain_last (_minimize (common_prefix word (_previous_word g)) g)))
    as Hlast.
  destruct (add_suffix _ _ _) as [last g2]. simpl in H2, Hinv2, Hlast.
  intros [= <-].
  apply (keeps_interned_trans g _ _
           (frozen_minimize (common_prefix word (_previous_word g)) g Hinv)).
  apply (keeps_interned_trans _ g2 _ H2).
  apply (frozen_set_final g2 last word Hinv2).
  eapply list_elem_of_lookup_2. exact Hlast.
Qed.

(** Every later state of the builder holds an interned node unchanged. *)
Lemma interned_frozen g :
  reachable g ->
  (forall word g', insert word g = Returned g' -> keeps_interned g g') /\
  keeps_interned g (finish g).
Proof.
  intros Hr. apply reachable_shape in Hr. split.
  - intros word g'. now apply frozen_insert.
  - now apply frozen_minimize.
Qed.

(** ** The words accepted from a node *)

Lemma accepts_nil g x : accepts g x [] = final (node_at g x).
Proof. reflexivity. Qed.

Lemma accepts_cons g x c w :
  accepts g x (c :: w)
  = match edges_get c (edges (node_at g x)) with
    | Some t => accepts g t w
    | None => false
    end.
Proof. unfold accepts. simpl. now destruct (edges_get _ _). Qed.

Lemma walk_app g w1 : forall x w2,
  walk g x (w1 ++ w2)
  = match walk g x w1 with Some y => walk g y w2 | None => None end.
Proof.
  induction w1 as [|c w1 IH]; intros x w2; simpl; [reflexivity|].
  destruct (edges_get _ _); [apply IH | reflexivity].
Qed.

Lemma accepts_node_eq g x y w :
  node_at g x = node_at g y -> accepts g x w = accepts g y w.
Proof.
  intros E. destruct w; [now rewrite !accepts_nil, E|].
  now rewrite !accepts_cons, E.
Qed.

Lemma accepts_ext g g' :
  (forall x, node_at g' x = node_at g x) ->
  forall w x, accepts g' x w = accepts g x w.
Proof.
  intros E. induction w as [|c w IH]; intros x.
  - now rewrite !accepts_nil, E.
  - rewrite !accepts_cons, E. destruct (edges_get _ _); [apply IH | reflexivity].
Qed.

Lemma walk_ext g g' :
  (forall x, edges (node_at g' x) = edges (node_at g x)) ->
  forall w x, walk g' x w = walk g x w.
Proof.
  intros E. induction w as [|c w IH]; intros x; simpl; [reflexivity|].
  rewrite E. destruct (edges_get _ _); [apply IH | reflexivity].
Qed.

Lemma accepts_dead g x w :
  node_at g x = new_node -> accepts g x w = false.
Proof.
  intros E. destruct w; [now rewrite accepts_nil, E|].
  now rewrite accepts_cons, E.
Qed.

(** ** [_minimize] keeps the words accepted from every node *)

Lemma accepts_minimize_step g u p c ch :
  shape_inv g -> _unchecked_nodes g = u ++ [(p, c, ch)] ->
  forall w x,
    accepts (minimize_step g (length (_unchecked_nodes g) - 1)) x w
    = accepts g x w.
Proof.
  intros Hinv Hu. rewrite (minimize_step_last g u p c ch Hu).
  destruct (find_minimized g ch) as [m|] eqn:Hf.
  - apply find_minimized_Some in Hf as [Hm Heq].
    set (g' := {| nodes := _ |}).
    assert (Hp : (p < length (nodes g))%nat).
    { apply (sh_chain g Hinv). apply (pop_chain0_sub g u p c ch Hu).
      apply (pop_parent_in g u p c ch Hinv Hu). }
    assert (Hlink : edges_get c (edges (node_at g p)) = Some ch).
    { apply (sh_link_edge g Hinv). rewrite Hu. apply elem_of_app. right.
      apply list_elem_of_singleton. reflexivity. }
    assert (Hnode : forall x, node_at g' x
              = if bool_decide (x = p)
                then {| final := final (node_at g p);
                        edges := edges_set c m (edges (node_at g p)) |}
                else node_at g x).
    { intros x. unfold node_at, g'. simpl. rewrite node_alter.
      case_bool_decide as H1; case_bool_decide as H2; try reflexivity.
      - destruct H1. contradiction.
      - exfalso. apply H1. now split. }
    induction w as [|l w IH]; intros x.
    + rewrite !accepts_nil, Hnode. case_bool_decide; [subst|]; reflexivity.
    + rewrite !accepts_cons, Hnode. case_bool_decide as Hx.
      * subst x. simpl. rewrite edges_get_set.
        destruct (Ascii.eqb_spec c l) as [<-|Hne].
        -- rewrite Hlink, IH. now apply accepts_node_eq.
        -- destruct (edges_get l _); [apply IH | reflexivity].
      * destruct (edges_get l _); [apply IH | reflexivity].
  - apply accepts_ext. reflexivity.
Qed.

Lemma accepts_minimize d g :
  shape_inv g ->
  forall w x, accepts (_minimize d g) x w = accepts g x w.
Proof.
  intros Hinv.
  enough (H : shape_inv (_minimize d g) /\
              forall w x, accepts (_minimize d g) x w = accepts g x w)
    by apply H.
  apply (minimize_ind (fun g' =>
           shape_inv g' /\ forall w x, accepts g' x w = accepts g x w)).
  - intros g0 u p c ch [Hg0 Hacc] Hu _. split.
    + now apply (shape_minimize_step g0 u p c ch).
    + intros w x. rewrite (accepts_minimize_step g0 u p c ch Hg0 Hu). apply Hacc.
  - split; [exact Hinv | reflexivity].
Qed.

(** ** The labels of the pending branch *)

Lemma labels_ok_weaken b w g : labels_ok b w g -> labels_ok false w g.
Proof.
  intros [H1 H2]. split; [exact H1|].
  intros i x l t Hi Hl. destruct (H2 i x l t Hi Hl) as (c & Hc & Hle & _).
  exists c. split; [exact Hc|]. split; [exact Hle | discriminate].
Qed.

Lemma labels_minimize_step b w g u p c ch :
  shape_inv g -> labels_ok b w g ->
  _unchecked_nodes g = u ++ [(p, c, ch)] ->
  labels_ok false w (minimize_step g (length (_unchecked_nodes g) - 1)).
Proof.
  intros Hinv [H1 H2] Hu.
  assert (Hchain : forall i x, (_root g :: map snd u) !! i = Some x ->
                               chain g !! i = Some x).
  { intros i x Hi. rewrite (pop_chain g u p c ch Hu).
    now apply lookup_app_l_Some. }
  assert (Hentry : forall i e, u !! i = Some e -> _unchecked_nodes g !! i = Some e).
  { intros i e Hi. rewrite Hu. now apply lookup_app_l_Some. }
  assert (Hold : forall i x l t,
            (_root g :: map snd u) !! i = Some x ->
            (l, t) ∈ edges (node_at g x) ->
            exists c0, w !! i = Some c0 /\ (N_of_ascii l <= N_of_ascii c0)%N /\
                       (false = true -> i = length u -> l <> c0)).
  { intros i x l t Hi Hl.
    destruct (H2 i x l t (Hchain _ _ Hi) Hl) as (c0 & Hc0 & Hle & _).
    exists c0. split; [exact Hc0|]. split; [exact Hle | discriminate]. }
  rewrite (minimize_step_last g u p c ch Hu).
  destruct (find_minimized g ch) as [m|] eqn:Hf.
  - split; unfold chain, node_at; simpl.
    + intros i p' c' ch' Hi. apply (H1 i p' c' ch'). now apply Hentry.
    + intros i x l t Hi. rewrite node_alter. case_bool_decide as Hd.
      * destruct Hd as [-> _]. simpl. intros Hl.
        apply elem_edges_set in Hl; [|apply (sh_keys g Hinv)].
        destruct Hl as [[= -> ->]|[Hl _]]; [|now apply (Hold i p l t)].
        pose proof (NoDup_lookup _ _ _ _ (pop_nodup0 g u p c ch Hinv Hu) Hi
                      (pop_parent g u p c ch Hinv Hu)) as ->.
        exists c. split; [|split; [lia | discriminate]].
        apply (H1 (length u) p c ch). rewrite Hu.
        rewrite lookup_app_r, Nat.sub_diag by lia. reflexivity.
      * now apply Hold.
  - split; unfold chain, node_at; simpl.
    + intros i p' c' ch' Hi. apply (H1 i p' c' ch'). now apply Hentry.
    + apply Hold.
Qed.

Lemma labels_minimize b w d g :
  shape_inv g -> labels_ok b w g -> labels_ok false w (_minimize d g).
Proof.
  intros Hinv Hl.
  enough (H : shape_inv (_minimize d g) /\ labels_ok false w (_minimize d g))
    by apply H.
  apply (minimize_ind (fun g' => shape_inv g' /\ labels_ok false w g')).
  - intros g0 u p c ch [Hg0 Hl0] Hu _. split.
    + now apply (shape_minimize_step g0 u p c ch).
    + now apply (labels_minimize_step false w g0 u p c ch).
  - split; [exact Hinv | now apply (labels_ok_weaken b)].
Qed.

Lemma common_prefix_spec previous word :
  str_lt previous word ->
  let cp := common_prefix word previous in
  (cp <= length previous)%nat /\ (cp < length word)%nat /\
  (forall i, (i < cp)%nat -> word !! i = previous !! i) /\
  (forall c, previous !! cp = Some c ->
     exists c', word !! cp = Some c' /\ (N_of_ascii c < N_of_ascii c')%N).
Proof.
  induction 1 as [y b|x y a b Hxy|x a b Hlt IH]; simpl.
  - repeat split; try lia. intros c. discriminate.
  - destruct (Ascii.eqb_spec y x) as [->|Hne]; [lia|]. simpl.
    repeat split; try lia. intros c [= <-]. now exists y.
  - rewrite Ascii.eqb_refl. destruct IH as (H1 & H2 & H3 & H4). simpl.
    repeat split; try lia.
    + intros [|i] Hi; simpl; [reflexivity | apply H3; lia].
    + exact H4.
Qed.

Lemma labels_switch previous word g :
  str_lt previous word ->
  labels_ok false previous g ->
  length (_unchecked_nodes g) = common_prefix word previous ->
  labels_ok true word g.
Proof.
  intros Hlt [H1 H2] Hlen.
  destruct (common_prefix_spec previous word Hlt) as (Hcp1 & Hcp2 & Hcp3 & Hcp4).
  split.
  - intros i p c ch Hi. pose proof (lookup_lt_Some _ _ _ Hi).
    rewrite Hcp3 by lia. now apply (H1 i p c ch).
  - intros i x l t Hi Hl.
    pose proof (lookup_lt_Some _ _ _ Hi) as Hilt. rewrite chain_length in Hilt.
    destruct (H2 i x l t Hi Hl) as (c & Hc & Hle & _).
    destruct (decide (i = common_prefix word previous)) as [->|Hne].
    + destruct (Hcp4 c Hc) as (c' & Hc' & Hlt').
      exists c'. split; [exact Hc'|]. split; [lia|].
      intros _ _ ->. lia.
    + exists c. split; [rewrite Hcp3 by lia; exact Hc|].
      split; [exact Hle|]. intros _ E. lia.
Qed.

Lemma labels_add_node w g node char :
  shape_inv g -> labels_ok true w g ->
  chain g !! length (_unchecked_nodes g) = Some node ->
  w !! length (_unchecked_nodes g) = Some char ->
  labels_ok true w (add_node node char g).
Proof.
  intros Hinv [H1 H2] Hnode Hchar.
  assert (Hin : node ∈ chain g) by (eapply list_elem_of_lookup_2; exact Hnode).
  destruct (sh_chain g Hinv node Hin) as [Hlt _].
  split.
  - intros i p c ch.
    change (_unchecked_nodes (add_node node char g))
      with (_unchecked_nodes g ++ [(node, char, length (nodes g))]).
    intros Hi. apply lookup_app_Some in Hi as [Hi|[Hge Hi]].
    + now apply (H1 i p c ch).
    + apply list_lookup_singleton_Some in Hi as [Hi0 [= <- <- <-]].
      replace i with (length (_unchecked_nodes g)) by lia. exact Hchar.
  - intros i x l t. rewrite chain_add_node.
    change (_unchecked_nodes (add_node node char g))
      with (_unchecked_nodes g ++ [(node, char, length (nodes g))]).
    rewrite length_app. simpl length.
    intros Hi. apply lookup_app_Some in Hi as [Hi|[Hge Hi]].
    + pose proof (lookup_lt_Some _ _ _ Hi) as Hilt.
      rewrite chain_length in Hilt.
      rewrite node_at_add_node by exact Hlt. case_bool_decide as Hd.
      * subst x. simpl. intros Hl.
        pose proof (NoDup_lookup _ _ _ _ (sh_nodup g Hinv) Hi Hnode) as ->.
        apply elem_edges_set in Hl; [|apply (sh_keys g Hinv)].
        destruct Hl as [[= -> ->]|[Hl _]].
        -- exists char. split; [exact Hchar|]. split; [lia|]. intros _ E. lia.
        -- destruct (H2 _ node l t Hnode Hl) as (c & Hc & Hle & _).
           exists c. split; [exact Hc|]. split; [exact Hle|]. intros _ E. lia.
      * intros Hl. destruct (H2 i x l t Hi Hl) as (c & Hc & Hle & _).
        exists c. split; [exact Hc|]. split; [exact Hle|]. intros _ E. lia.
    + apply list_lookup_singleton_Some in Hi as [Hi0 <-].
      rewrite node_at_add_node by exact Hlt.
      rewrite bool_decide_false by lia.
      unfold node_at. rewrite lookup_ge_None_2 by lia. simpl.
      intros Hl. now apply elem_of_nil in Hl.
Qed.

Lemma labels_fresh w g node char :
  labels_ok true w g ->
  chain g !! length (_unchecked_nodes g) = Some node ->
  w !! length (_unchecked_nodes g) = Some char ->
  edges_get char (edges (node_at g node)) = None.
Proof.
  intros [_ H2] Hnode Hchar. apply edges_get_None. intros Hin.
  apply list_elem_of_fmap in Hin as [[l t] [E Hl]]. simpl in E. subst l.
  destruct (H2 _ node char t Hnode Hl) as (c & Hc & _ & Hne).
  rewrite Hchar in Hc. injection Hc as <-. now apply Hne.
Qed.

Lemma accepts_add_node g node char :
  (node < length (nodes g))%nat ->
  edges_get char (edges (node_at g node)) = None ->
  forall w x, accepts (add_node node char g) x w = accepts g x w.
Proof.
  intros Hlt Hfresh.
  assert (Hdead : node_at g (length (nodes g)) = new_node).
  { unfold node_at. now rewrite lookup_ge_None_2. }
  induction w as [|l w IH]; intros x.
  - rewrite !accepts_nil, node_at_add_node by exact Hlt.
    case_bool_decide; [subst|]; reflexivity.
  - rewrite !accepts_cons, node_at_add_node by exact Hlt.
    case_bool_decide as Hd.
    + subst x. simpl. rewrite edges_get_set.
      destruct (Ascii.eqb_spec char l) as [<-|Hne].
      * rewrite Hfresh, IH. now apply accepts_dead.
      * destruct (edges_get l _); [apply IH | reflexivity].
    + destruct (edges_get l _); [apply IH | reflexivity].
Qed.

(** ** The loop that adds the suffix *)

Lemma labels_length w g b :
  labels_ok b w g -> (length (_unchecked_nodes g) <= length w)%nat.
Proof.
  intros [H1 _].
  destruct (_unchecked_nodes g) as [|e u _] using rev_ind; [simpl; lia|].
  destruct e as [[p c] ch].
  specialize (H1 (length u) p c ch).
  rewrite lookup_app_r, Nat.sub_diag in H1 by lia.
  specialize (H1 eq_refl). apply lookup_lt_Some in H1.
  rewrite length_app. simpl. lia.
Qed.

Lemma add_suffix_spec w suffix : forall g node,
  shape_inv g -> labels_ok true w g ->
  chain g !! length (_unchecked_nodes g) = Some node ->
  drop (length (_unchecked_nodes g)) w = suffix ->
  let r := add_suffix suffix node g in
  shape_inv r.2 /\ labels_ok true w r.2 /\
  length (_unchecked_nodes r.2) = length w /\
  chain r.2 !! length w = Some r.1 /\
  (forall u x, accepts r.2 x u = accepts g x u) /\
  _root r.2 = _root g.
Proof.
  induction suffix as [|char rest IH]; intros g node Hinv Hlab Hnode Hdrop.
  - simpl. pose proof (labels_length w g true Hlab) as Hle.
    assert (Hlen : length (_unchecked_nodes g) = length w).
    { apply (f_equal length) in Hdrop. rewrite length_drop in Hdrop.
      simpl in Hdrop. lia. }
    rewrite <- Hlen. split; [exact Hinv|]. split; [exact Hlab|]. auto.
  - assert (Hchar : w !! length (_unchecked_nodes g) = Some char).
    { pose proof (lookup_drop w (length (_unchecked_nodes g)) 0) as H.
      rewrite Hdrop, Nat.add_0_r in H. symmetry. exact H. }
    assert (Hin : node ∈ chain g) by (eapply list_elem_of_lookup_2; exact Hnode).
    destruct (sh_chain g Hinv node Hin) as [Hlt _].
    cbn [add_suffix].
    destruct (IH (add_node node char g) (length (nodes g)))
      as (H1 & H2 & H3 & H4 & H5 & H6).
    + now apply shape_add_node.
    + now apply labels_add_node.
    + apply chain_last_add_node.
    + change (_unchecked_nodes (add_node node char g))
        with (_unchecked_nodes g ++ [(node, char, length (nodes g))]).
      rewrite length_app. simpl length.
      rewrite (drop_S _ _ _ Hchar) in Hdrop. injection Hdrop as <-.
      f_equal. lia.
    + split; [exact H1|]. split; [exact H2|]. split; [exact H3|].
      split; [exact H4|]. split; [|exact H6].
      intros u x. rewrite H5. apply accepts_add_node; [exact Hlt|].
      now apply (labels_fresh w).
Qed.

(** ** Walking along the pending branch *)

Lemma chain_lookup_S g i x :
  chain g !! S i = Some x ->
  exists p c, _unchecked_nodes g !! i = Some (p, c, x).
Proof.
  unfold chain. simpl. rewrite list_lookup_fmap.
  destruct (_unchecked_nodes g !! i) as [[[p c] ch]|]; [|discriminate].
  simpl. intros [= <-]. eauto.
Qed.

Lemma walk_chain g w :
  shape_inv g ->
  (forall i p c ch,
     _unchecked_nodes g !! i = Some (p, c, ch) -> w !! i = Some c) ->
  forall i x, chain g !! i = Some x -> walk g (_root g) (take i w) = Some x.
Proof.
  intros Hinv H1. induction i as [|i IH]; intros x Hi.
  - rewrite take_0. simpl. unfold chain in Hi. simpl in Hi. congruence.
  - destruct (chain_lookup_S g i x Hi) as (p & c & He).
    pose proof (sh_linked g Hinv i p c x He) as Hp.
    rewrite (take_S_r _ _ _ (H1 i p c x He)), walk_app, (IH p Hp). simpl.
    rewrite (sh_link_edge g Hinv p c x); [reflexivity|].
    eapply list_elem_of_lookup_2. exact He.
Qed.

Lemma walk_interned g :
  shape_inv g ->
  forall u m y, m ∈ _minimized_nodes g -> walk g m u = Some y ->
                y ∈ _minimized_nodes g.
Proof.
  intros Hinv. induction u as [|l u IH]; intros m y Hm; simpl.
  - intros [= <-]. exact Hm.
  - destruct (edges_get l _) as [t|] eqn:Ht; [|discriminate].
    apply IH. apply edges_get_Some_elem in Ht.
    apply list_elem_of_lookup in Hm as [j Hj].
    destruct (sh_min g Hinv j m Hj) as [_ He].
    destruct (He l t Ht) as (j' & _ & Hj').
    eapply list_elem_of_lookup_2. exact Hj'.
Qed.

Lemma walk_to_last g w last :
  shape_inv g ->
  (forall i p c ch,
     _unchecked_nodes g !! i = Some (p, c, ch) -> w !! i = Some c) ->
  length (_unchecked_nodes g) = length w ->
  chain g !! length w = Some last ->
  forall u i x, chain g !! i = Some x -> walk g x u = Some last ->
                u = drop i w.
Proof.
  intros Hinv H1 Hlen Hlast.
  assert (Hlast_min : last ∉ _minimized_nodes g).
  { apply (sh_chain g Hinv). eapply list_elem_of_lookup_2. exact Hlast. }
  induction u as [|l u IH]; intros i x Hi; simpl.
  - intros [= ->].
    pose proof (NoDup_lookup _ _ _ _ (sh_nodup g Hinv) Hi Hlast) as ->.
    now rewrite drop_all.
  - destruct (edges_get l _) as [t|] eqn:Ht; [|discriminate].
    intros Hwalk. apply edges_get_Some_elem in Ht.
    destruct (sh_edges g Hinv x l t Ht) as [Hmin|Hun].
    + exfalso. apply Hlast_min. now apply (walk_interned g Hinv u t last).
    + apply list_elem_of_lookup in Hun as [i' Hi'].
      pose proof (sh_linked g Hinv i' x l t Hi') as Hx.
      pose proof (NoDup_lookup _ _ _ _ (sh_nodup g Hinv) Hx Hi) as ->.
      assert (Ht' : chain g !! S i = Some t).
      { unfold chain. simpl. rewrite list_lookup_fmap, Hi'. reflexivity. }
      rewrite (drop_S _ _ _ (H1 i x l t Hi')). f_equal.
      now apply (IH (S i) t).
Qed.

(** ** Marking the last node final *)

Lemma accepts_set_final g last word x u :
  (last < length (nodes g))%nat ->
  accepts
    {| nodes := nodes (set_final last g);
       _previous_word := word;
       _root := _root (set_final last g);
       _unchecked_nodes := _unchecked_nodes (set_final last g);
       _minimized_nodes := _minimized_nodes (set_final last g) |} x u
  = accepts g x u || bool_decide (walk g x u = Some last).
Proof.
  intros Hlt. unfold accepts.
  rewrite (walk_ext g) by (intros y; unfold node_at; simpl; apply edges_alter_final).
  destruct (walk g x u) as [y|].
  - unfold node_at. simpl. rewrite node_alter. case_bool_decide as Hd.
    + destruct Hd as [-> _]. simpl.
      rewrite bool_decide_true by reflexivity. now rewrite orb_true_r.
    + rewrite bool_decide_false; [now rewrite orb_false_r|].
      intros [= ->]. apply Hd. now split.
  - rewrite bool_decide_false by discriminate. reflexivity.
Qed.

Lemma labels_set_final b w g last word :
  labels_ok b w g ->
  labels_ok b w
    {| nodes := nodes (set_final last g);
       _previous_word := word;
       _root := _root (set_final last g);
       _unchecked_nodes := _unchecked_nodes (set_final last g);
       _minimized_nodes := _minimized_nodes (set_final last g) |}.
Proof.
  intros [H1 H2]. split; unfold chain, node_at; simpl.
  - exact H1.
  - intros i x l t. rewrite edges_alter_final. apply H2.
Qed.

(** ** One call of [insert] *)

Lemma insert_spec word g g' words :
  stable g -> holds g words -> insert word g = Returned g' ->
  stable g' /\ holds g' (words ++ [word]) /\ _root g' = _root g.
Proof.
  intros (Hinv & Hlab & Hlen) Hholds. unfold insert.
  destruct (str_leb word (_previous_word g)) eqn:Hleb; [discriminate|].
  apply str_leb_false in Hleb.
  destruct (common_prefix_spec _ _ Hleb) as (Hcp & Hcp' & _).
  set (cp := common_prefix word (_previous_word g)) in *.
  destruct (minimize_fields cp g) as (Hu1 & Hr1 & Hp1 & _).
  pose proof (shape_minimize cp g Hinv) as Hinv1.
  assert (Hlen1 : length (_unchecked_nodes (_minimize cp g)) = cp).
  { rewrite Hu1, length_take. lia. }
  assert (Hlab1 : labels_ok true word (_minimize cp g)).
  { apply (labels_switch (_previous_word g)); [exact Hleb| |exact Hlen1].
    now apply (labels_minimize true). }
  pose proof (add_suffix_spec word (drop cp word) (_minimize cp g) _
                Hinv1 Hlab1 (chain_last _)) as Hspec.
  rewrite Hlen1 in Hspec. specialize (Hspec eq_refl).
  destruct (add_suffix _ _ _) as [last g2]. simpl in Hspec.
  destruct Hspec as (Hinv2 & Hlab2 & Hlen2 & Hlast & Hacc & Hroot).
  intros [= <-].
  assert (Hlast_lt : (last < length (nodes g2))%nat).
  { apply (sh_chain g2 Hinv2). eapply list_elem_of_lookup_2. exact Hlast. }
  set (g3 := {| nodes := nodes (set_final last g2);
                _previous_word := word;
                _root := _root (set_final last g2);
                _unchecked_nodes := _unchecked_nodes (set_final last g2);
                _minimized_nodes := _minimized_nodes (set_final last g2) |}).
  change (stable g3 /\ holds g3 (words ++ [word]) /\ _root g3 = _root g).
  split; [|split].
  - split; [now apply shape_set_final|]. split.
    + now apply labels_set_final.
    + exact Hlen2.
  - intros u. unfold g3. rewrite accepts_set_final by exact Hlast_lt. simpl.
    rewrite Hroot, Hr1, Hacc, accepts_minimize by exact Hinv.
    rewrite orb_true_iff, (Hholds u), elem_of_app, list_elem_of_singleton.
    rewrite bool_decide_eq_true.
    assert (Hw : walk g2 (_root g) u = Some last <-> u = word).
    { rewrite <- Hr1, <- Hroot. split.
      - intros Hwalk.
        apply (walk_to_last g2 word last Hinv2 (proj1 Hlab2) Hlen2 Hlast u 0%nat
                 (_root g2)); [reflexivity | exact Hwalk].
      - intros ->.
        rewrite <- (firstn_all word) at 1.
        now apply (walk_chain g2 word Hinv2 (proj1 Hlab2)). }
    rewrite Hw. reflexivity.
  - simpl. now rewrite Hroot, Hr1.
Qed.

Lemma stable_new : stable Dawg_new /\ holds Dawg_new [].
Proof.
  split; [split; [apply shape_new|split]|].
  - split.
    + intros i p c ch H. simpl in H. now rewrite lookup_nil in H.
    + intros [|i] x l t; unfold chain; simpl; [|intros H; now rewrite lookup_nil in H].
      intros [= <-] H. simpl in H. now apply elem_of_nil in H.
  - reflexivity.
  - intros w. split.
    + destruct w as [|c w]; discriminate.
    + intros H. now apply elem_of_nil in H.
Qed.

Lemma insert_all_spec words : forall g g' before,
  stable g -> holds g before -> insert_all words g = Returned g' ->
  stable g' /\ holds g' (before ++ words) /\ _root g' = _root g.
Proof.
  induction words as [|word rest IH]; intros g g' before Hst Hh; simpl.
  - intros [= <-]. now rewrite app_nil_r.
  - destruct (insert word g) as [g1|] eqn:Hins; [|discriminate].
    destruct (insert_spec word g g1 before Hst Hh Hins) as (Hst1 & Hh1 & Hr1).
    intros Hrest. destruct (IH g1 g' _ Hst1 Hh1 Hrest) as (H1 & H2 & H3).
    split; [exact H1|]. split; [|congruence].
    rewrite <- app_assoc in H2. exact H2.
Qed.

(** A finished dictionary accepts exactly the inserted words. *)
Lemma build_spec words g :
  build words = Returned g -> shape_inv g /\ holds g words.
Proof.
  unfold build. destruct (insert_all words Dawg_new) as [g1|] eqn:E;
    [|discriminate].
  intros [= <-].
  destruct stable_new as [Hst Hh].
  destruct (insert_all_spec words Dawg_new g1 [] Hst Hh E)
    as ((Hinv & _) & Hh1 & _).
  split; [now apply shape_minimize|].
  intros w. unfold finish.
  destruct (minimize_fields 0 g1) as (_ & -> & _).
  rewrite accepts_minimize by exact Hinv. apply Hh1.
Qed.

(** ** When [build] returns *)

Lemma insert_returns word g :
  str_lt (_previous_word g) word -> exists g', insert word g = Returned g'.
Proof.
  intros Hlt. unfold insert.
  destruct (str_leb word (_previous_word g)) eqn:E.
  - exfalso. assert (Hf : str_leb word (_previous_word g) = false)
      by now apply str_leb_false.
    congruence.
  - destruct (add_suffix _ _ _). eauto.
Qed.

(** [insert_all] returns exactly when each word is strictly greater than
    the one before it, the first one being greater than the previous word
    of the builder. *)
Lemma insert_all_returns words : forall g,
  (exists g', insert_all words g = Returned g')
  <-> increasing (_previous_word g) words.
Proof.
  induction words as [|word rest IH]; intros g; simpl.
  - split; [tauto | eauto].
  - split.
    + intros [g' H]. destruct (insert word g) as [g1|] eqn:Hins; [|discriminate].
      split.
      * destruct (str_leb word (_previous_word g)) eqn:E.
        -- unfold insert in Hins. rewrite E in Hins. discriminate.
        -- now apply str_leb_false.
      * rewrite <- (insert_previous_word word g g1 Hins). apply IH. eauto.
    + intros [Hlt Hrest]. destruct (insert_returns word g Hlt) as [g1 Hins].
      rewrite Hins. apply IH. now rewrite (insert_previous_word word g g1 Hins).
Qed.

Lemma build_returns words :
  (exists g, build words = Returned g) <-> increasing [] words.
Proof.
  rewrite <- (insert_all_returns words Dawg_new). unfold build.
  destruct (insert_all words Dawg_new) as [g1|]; split; intros [g H];
    eauto; discriminate.
Qed.

(** ** Every stored cost is the cost of an alignment *)

Section Sound.

Variable self : SparseLevenshteinAutomaton.
Variable text : str.

Let D (i j : nat) : Z :=
  lev_dp (_icost self) (_dcost self) (_rcost self) (_str self) text i j.

Lemma start_loop_prefix rest : forall before,
  _str self = before ++ rest ->
  exists p : nat, (p <= length (_str self))%nat /\
    start_loop self (len before) rest (D (length before) 0)
      (rowf (fun i => D i 0) (S (length before)))
    = rowf (fun i => D i 0) (S p).
Proof.
  induction rest as [|char rest IH]; intros before E; cbn [start_loop].
  - exists (length before). split; [|reflexivity].
    rewrite E, length_app. lia.
  - assert (Hc : D (length before) 0 + _dcost self char = D (S (length before)) 0).
    { unfold D. rewrite lev_dp_S_0, E, nth_middle. reflexivity. }
    rewrite Hc.
    destruct (D (S (length before)) 0 <=? _d self).
    + replace (len before) with (Z.of_nat (S (length before)) - 1)
        by (unfold len; lia).
      rewrite set_rowf_next by reflexivity.
      specialize (IH (before ++ [char])).
      rewrite length_app in IH. simpl in IH.
      replace (length before + 1)%nat with (S (length before)) in IH by lia.
      replace (len (before ++ [char])) with (Z.of_nat (S (length before)) - 1 + 1)
        in IH by (unfold len; rewrite length_app; simpl; lia).
      apply IH. rewrite <- app_assoc. exact E.
    + exists (length before). split; [|reflexivity].
      rewrite E, length_app. lia.
Qed.

Lemma start_state_sound : sound_state self text 0 (start_state self).
Proof.
  destruct (start_loop_prefix (_str self) [] eq_refl) as (p & Hp & E).
  assert (Hst : start_state self = rowf (fun i => D i 0) (S p))
    by (rewrite <- E; reflexivity).
  rewrite Hst. clear E Hst.
  intros k c Hk.
  assert (Hin : In k (OD.keys (rowf (fun i => D i 0) (S p)))).
  { destruct (OD.get k _) eqn:G; [|discriminate].
    destruct (in_dec Z.eq_dec k (OD.keys (rowf (fun i => D i 0) (S p))))
      as [?|Hno]; [assumption|].
    apply ODFacts.get_None_keys in Hno. congruence. }
  rewrite keys_rowf in Hin. apply in_map_iff in Hin as (i & <- & Hi).
  apply in_seq in Hi. rewrite get_rowf in Hk.
  destruct (Nat.ltb_spec i (S p)); [|discriminate]. injection Hk as <-.
  exists i. split; [reflexivity|]. split; [lia|]. fold (D i 0). lia.
Qed.

Lemma lev_dp_insert_le (i j : nat) :
  D i (S j) <= D i j + _icost self (nth j text Ascii.zero).
Proof.
  unfold D. destruct i; [rewrite lev_dp_0_S; lia|].
  rewrite lev_dp_S_S. lia.
Qed.

Lemma lev_dp_delete_le (i j : nat) :
  D (S i) (S j) <= D i (S j) + _dcost self (nth i (_str self) Ascii.zero).
Proof. unfold D. rewrite lev_dp_S_S. lia. Qed.

Lemma lev_dp_replace_le (i j : nat) :
  D (S i) (S j)
  <= D i j + _rcost self (nth j text Ascii.zero) (nth i (_str self) Ascii.zero).
Proof. unfold D. rewrite lev_dp_S_S. lia. Qed.

Lemma sound_key (j : nat) s k c (i : nat) :
  sound_state self text j s -> OD.get k s = Some c -> k = Z.of_nat i - 1 ->
  (i <= length (_str self))%nat /\ D i j <= c.
Proof.
  intros Hs Hk ->. destruct (Hs _ _ Hk) as (i' & E & Hi' & Hle).
  assert (i' = i) by lia. subst i'. split; [exact Hi' | exact Hle].
Qed.

Lemma step_body_sound (j : nat) state new_state idx :
  sound_state self text j state ->
  sound_state self text (S j) new_state ->
  In idx (OD.keys state) ->
  sound_state self text (S j)
    (step_body self (nth j text Ascii.zero) state new_state idx).
Proof.
  intros Hs Hn Hidx. unfold step_body.
  destruct (Z.eqb_spec (idx + 1) (len (_str self))) as [|Hne]; [exact Hn|].
  destruct (ODFacts.get_Some_keys idx state Hidx) as [v Hv].
  destruct (Hs _ _ Hv) as (i & -> & Hi & Hle).
  change (D i j <= v) in Hle.
  assert (Hi' : (i < length (_str self))%nat) by (unfold len in Hne; lia).
  unfold OD.at_. rewrite Hv. simpl default.
  unfold char_at. replace (Z.to_nat (Z.of_nat i - 1 + 1)) with i by lia.
  match goal with |- context [if ?c <=? _ then _ else _] => set (cost := c) end.
  assert (Hcost : D (S i) (S j) <= cost).
  { unfold cost.
    pose proof (lev_dp_replace_le i j) as Hr.
    destruct (OD.get (Z.of_nat i - 1) new_state) as [v'|] eqn:Hv';
      destruct (OD.get (Z.of_nat i - 1 + 1) state) as [v''|] eqn:Hv''.
    - destruct (sound_key (S j) new_state _ v' i Hn Hv' eq_refl) as [_ H1].
      destruct (sound_key j state _ v'' (S i) Hs Hv'' ltac:(lia)) as [_ H2].
      pose proof (lev_dp_delete_le i j). pose proof (lev_dp_insert_le (S i) j).
      lia.
    - destruct (sound_key (S j) new_state _ v' i Hn Hv' eq_refl) as [_ H1].
      pose proof (lev_dp_delete_le i j). lia.
    - destruct (sound_key j state _ v'' (S i) Hs Hv'' ltac:(lia)) as [_ H2].
      pose proof (lev_dp_insert_le (S i) j). lia.
    - lia. }
  destruct (cost <=? _d self); [|exact Hn].
  intros k c. rewrite ODFacts.get_set.
  destruct (Z.eqb_spec (Z.of_nat i - 1 + 1) k) as [<-|_]; [|apply Hn].
  intros [= <-]. exists (S i). split; [lia|]. split; [lia | exact Hcost].
Qed.

Lemma step_fold_sound (j : nat) state ks : forall new_state,
  sound_state self text j state ->
  sound_state self text (S j) new_state ->
  (forall idx, In idx ks -> In idx (OD.keys state)) ->
  sound_state self text (S j)
    (foldl (step_body self (nth j text Ascii.zero) state) new_state ks).
Proof.
  induction ks as [|idx ks IH]; intros new_state Hs Hn Hks; simpl.
  - exact Hn.
  - apply IH; [exact Hs| |intros; apply Hks; now right].
    apply step_body_sound; [exact Hs | exact Hn | apply Hks; now left].
Qed.

Lemma step_state_sound (j : nat) state :
  sound_state self text j state ->
  sound_state self text (S j) (step_state self (nth j text Ascii.zero) state).
Proof.
  intros Hs. unfold step_state.
  apply step_fold_sound; [exact Hs| |auto].
  destruct state as [|[key v] r]; [intros k c; discriminate|].
  unfold OD.at_. cbn [OD.get]. rewrite Z.eqb_refl. simpl default.
  destruct (_ <=? _); [|intros k c; discriminate].
  intros k c. simpl. destruct (Z.eqb_spec key k) as [<-|_]; [|discriminate].
  intros [= <-].
  destruct (Hs key v) as (i & -> & Hi & Hle).
  { simpl. now rewrite Z.eqb_refl. }
  exists i. split; [reflexivity|]. split; [exact Hi|].
  pose proof (lev_dp_insert_le i j). change (D i j <= v) in Hle.
  change (D i (S j) <= v + _icost self (nth j text Ascii.zero)). lia.
Qed.

Lemma run_sound (j : nat) :
  (j <= length text)%nat -> sound_state self text j (run self (take j text)).
Proof.
  induction j as [|j IH]; intros Hj.
  - rewrite take_0. apply start_state_sound.
  - destruct (lookup_lt_is_Some_2 text j) as [c Hc]; [lia|].
    rewrite (take_S_r _ _ _ Hc). unfold run in *. rewrite foldl_app. simpl.
    unfold step. simpl.
    replace c with (nth j text Ascii.zero)
      by (apply nth_lookup_Some with (d := Ascii.zero) in Hc; exact Hc).
    apply step_state_sound, IH. lia.
Qed.

Lemma is_match_sound :
  is_match self (run self text) = true ->
  D (length (_str self)) (length text) <= _d self.
Proof.
  unfold is_match. intros H. apply Z.leb_le in H.
  pose proof (run_sound (length text) (Nat.le_refl _)) as Hs.
  rewrite firstn_all in Hs.
  destruct (OD.get (len (_str self) - 1) (run self text)) as [c|] eqn:G.
  - destruct (sound_key _ _ _ c (length (_str self)) Hs G eq_refl) as [_ Hle].
    simpl in H. lia.
  - simpl in H. lia.
Qed.

End Sound.

Lemma produced_run self state :
  produced self state -> exists word, state = run self word.
Proof.
  induction 1 as [|char state _ [word ->]].
  - now exists [].
  - exists (word ++ [char]). unfold run. now rewrite foldl_app.
Qed.

(** The keys of a produced state are positions of the pattern, or -1. *)
Lemma produced_keys_range self state k :
  produced self state -> In k (OD.keys state) ->
  -1 <= k <= len (_str self) - 1.
Proof.
  intros Hp Hk. destruct (produced_run self state Hp) as [word ->].
  destruct (ODFacts.get_Some_keys k _ Hk) as [c Hc].
  pose proof (run_sound self word (length word) (Nat.le_refl _)) as Hs.
  rewrite firstn_all in Hs.
  destruct (Hs k c Hc) as (i & -> & Hi & _). unfold len. lia.
Qed.

(** ** The search loop ends *)

Section Pending.

Variable g : Dawg.

Let weight (searched : list nat) (x : nat) : nat :=
  if bool_decide (x ∈ searched) then 0%nat
  else S (length (edges (node_at g x))).

Lemma weight_sum_mono node searched ids :
  (sum_list (map (weight (node :: searched)) ids)
   <= sum_list (map (weight searched) ids))%nat.
Proof.
  induction ids as [|x r IH]; simpl; [lia|].
  assert ((weight (node :: searched) x <= weight searched x)%nat); [|lia].
  unfold weight. repeat case_bool_decide; try lia.
  exfalso. apply H. apply elem_of_cons. now right.
Qed.

Lemma weight_sum_expand node searched ids :
  NoDup ids -> node ∈ ids -> node ∉ searched ->
  (sum_list (map (weight (node :: searched)) ids)
   + S (length (edges (node_at g node)))
   <= sum_list (map (weight searched) ids))%nat.
Proof.
  induction ids as [|x r IH]; intros Hnd Hin Hns.
  - now apply elem_of_nil in Hin.
  - apply NoDup_cons in Hnd as [Hx Hnd]. simpl.
    apply elem_of_cons in Hin as [<-|Hin].
    + pose proof (weight_sum_mono node searched r).
      unfold weight at 1 3.
      rewrite bool_decide_true by (apply elem_of_cons; now left).
      rewrite bool_decide_false by exact Hns. lia.
    + specialize (IH Hnd Hin Hns).
      assert (weight (node :: searched) x = weight searched x); [|lia].
      unfold weight. assert (x <> node) by (intros ->; contradiction).
      repeat case_bool_decide; try reflexivity.
      * apply elem_of_cons in H0 as [?|?]; contradiction.
      * exfalso. apply H0. apply elem_of_cons. now right.
Qed.

Lemma pending_expand node searched :
  node ∉ searched ->
  (pending g (node :: searched) + length (edges (node_at g node))
   <= pending g searched)%nat.
Proof.
  intros Hns. unfold pending. fold (weight (node :: searched)).
  fold (weight searched).
  destruct (decide (node < length (nodes g))%nat) as [Hlt|Hge].
  - pose proof (weight_sum_expand node searched (seq 0 (length (nodes g)))
                  (NoDup_seq _ _)) as H.
    specialize (H ltac:(apply elem_of_seq; lia) Hns). lia.
  - pose proof (weight_sum_mono node searched (seq 0 (length (nodes g)))).
    unfold node_at. rewrite lookup_ge_None_2 by lia. simpl. lia.
Qed.

End Pending.

Lemma visit_fold_length lev_auto g word state es : forall stack matched,
  (length (foldl (visit_edge lev_auto g word state) (stack, matched) es).1
   <= length stack + length es)%nat.
Proof.
  induction es as [|[char child] es IH]; intros stack matched; cbn [foldl].
  - simpl. lia.
  - unfold visit_edge at 2.
    destruct (can_match _); simpl length; etransitivity; try apply IH;
      simpl; lia.
Qed.

Lemma search_loop_ends lev_auto g fuel : forall stack searched matched,
  (length stack + pending g searched < fuel)%nat ->
  exists r, search_loop fuel lev_auto g stack searched matched = Some r.
Proof.
  induction fuel as [|fuel IH]; intros stack searched matched Hfuel; [lia|].
  destruct stack as [|[[word node] state] stack]; simpl.
  - now exists matched.
  - case_bool_decide as Hsearched.
    + apply IH. simpl in Hfuel. lia.
    + pose proof (visit_fold_length lev_auto g word state
                    (edges (node_at g node)) stack matched) as Hlen.
      destruct (foldl _ _ _) as [stack' matched']. simpl in Hlen.
      apply IH.
      pose proof (pending_expand g node searched Hsearched).
      simpl in Hfuel. lia.
Qed.

(** The search returns on every graph: [search_fuel] rounds are enough. *)
Lemma levenshtein_search_returns g query max_distance icost dcost rcost :
  exists r,
    levenshtein_search g query max_distance icost dcost rcost = Some r.
Proof.
  unfold levenshtein_search. apply search_loop_ends.
  unfold search_fuel. simpl. lia.
Qed.

(** ** What the search loop keeps true *)

Section SearchSound.

Variable lev_auto : SparseLevenshteinAutomaton.
Variable g : Dawg.
Hypothesis Hinv : shape_inv g.

Lemma run_snoc word char :
  run lev_auto (word ++ [char])
  = step lev_auto char (Some (run lev_auto word)).
Proof. unfold run. now rewrite foldl_app. Qed.

Lemma set_add_ok matched w :
  Forall (matched_ok lev_auto g) matched -> matched_ok lev_auto g w ->
  Forall (matched_ok lev_auto g) (set_add w matched).
Proof.
  intros Hm Hw. unfold set_add. case_bool_decide; [exact Hm|].
  apply Forall_app. split; [exact Hm|]. now constructor.
Qed.

Lemma visit_edge_ok word node state stack matched char child :
  frame_ok lev_auto g (word, node, state) ->
  (char, child) ∈ edges (node_at g node) ->
  Forall (frame_ok lev_auto g) stack ->
  Forall (matched_ok lev_auto g) matched ->
  let r := visit_edge lev_auto g word state (stack, matched) (char, child) in
  Forall (frame_ok lev_auto g) r.1 /\ Forall (matched_ok lev_auto g) r.2 /\
  (length r.1 <= S (length stack))%nat.
Proof.
  intros [Hwalk Hstate] Hedge Hstack Hmatched. simpl in Hwalk, Hstate.
  assert (Hwalk' : walk g (_root g) (word ++ [char]) = Some child).
  { rewrite walk_app, Hwalk. simpl.
    rewrite (elem_edges_get char child); [reflexivity| |exact Hedge].
    apply (sh_keys g Hinv). }
  assert (Hrun : step lev_auto char (Some state) = run lev_auto (word ++ [char])).
  { now rewrite run_snoc, Hstate. }
  unfold visit_edge. cbv zeta. rewrite Hrun. simpl. split; [|split].
  - destruct (can_match _); [|exact Hstack].
    constructor; [|exact Hstack]. split; reflexivity || exact Hwalk'.
  - destruct (is_match lev_auto _) eqn:Hm; simpl; [|exact Hmatched].
    destruct (final (node_at g child)) eqn:Hf; [|exact Hmatched].
    apply set_add_ok; [exact Hmatched|]. split; [|exact Hm].
    unfold accepts. now rewrite Hwalk'.
  - destruct (can_match _); simpl; lia.
Qed.

Lemma visit_fold_ok word node state es : forall stack matched,
  frame_ok lev_auto g (word, node, state) ->
  (forall e, e ∈ es -> e ∈ edges (node_at g node)) ->
  Forall (frame_ok lev_auto g) stack ->
  Forall (matched_ok lev_auto g) matched ->
  let r := foldl (visit_edge lev_auto g word state) (stack, matched) es in
  Forall (frame_ok lev_auto g) r.1 /\ Forall (matched_ok lev_auto g) r.2 /\
  (length r.1 <= length stack + length es)%nat.
Proof.
  induction es as [|[char child] es IH]; intros stack matched Hfr Hes Hs Hm.
  - simpl. repeat split; auto. lia.
  - cbn [foldl].
    destruct (visit_edge_ok word node state stack matched char child Hfr
                (Hes _ ltac:(apply elem_of_cons; now left)) Hs Hm)
      as (H1 & H2 & H3).
    destruct (visit_edge lev_auto g word state (stack, matched) (char, child))
      as [stack1 matched1]. simpl in H1, H2, H3.
    destruct (IH stack1 matched1 Hfr) as (H4 & H5 & H6); auto.
    { intros e He. apply Hes. apply elem_of_cons. now right. }
    repeat split; auto. simpl. lia.
Qed.

Lemma search_loop_sound fuel : forall stack searched matched,
  (length stack + pending g searched < fuel)%nat ->
  Forall (frame_ok lev_auto g) stack ->
  Forall (matched_ok lev_auto g) matched ->
  exists r, search_loop fuel lev_auto g stack searched matched = Some r /\
            Forall (matched_ok lev_auto g) r.
Proof.
  induction fuel as [|fuel IH]; intros stack searched matched Hfuel Hs Hm;
    [lia|].
  destruct stack as [|[[word node] state] stack]; simpl.
  - now exists matched.
  - apply Forall_cons_1 in Hs as [Hfr Hs]. case_bool_decide as Hsearched.
    + apply IH; auto. simpl in Hfuel. lia.
    + pose proof (visit_fold_ok word node state (edges (node_at g node))
                    stack matched Hfr ltac:(auto) Hs Hm) as Hfold.
      destruct (foldl _ _ _) as [stack' matched']. simpl in Hfold.
      destruct Hfold as (H1 & H2 & H3).
      apply IH; auto.
      pose proof (pending_expand g node searched Hsearched).
      simpl in Hfuel. lia.
Qed.

End SearchSound.

(** C1, as the code has it: on a finished dictionary the search returns,
    and every word it returns is an inserted word whose weighted edit
    distance to the query is at most the budget.  (It may leave out such
    words: a node shared by several words is expanded once only, with the
    state of the first word that reaches it.) *)
Theorem levenshtein_search_sound (words : list str) (g : Dawg) (query : str)
    (max_distance : Z) (icost dcost : cost_arg ascii)
    (rcost : cost_arg (ascii * ascii)) :
  build words = Returned g ->
  exists r,
    levenshtein_search g query max_distance icost dcost rcost = Some r /\
    forall w, w ∈ r ->
      w ∈ words /\
      weighted_distance (unary_cost icost) (unary_cost dcost)
        (replace_cost_fun rcost) query w <= max_distance.
Proof.
  intros Hb. destruct (build_spec words g Hb) as [Hinv Hholds].
  unfold levenshtein_search.
  set (self := new_automaton query max_distance icost dcost rcost).
  destruct (search_loop_sound self g Hinv (search_fuel g)
              [([], _root g, start_state self)] [] [])
    as (r & Hr & Hok).
  - unfold search_fuel. simpl. lia.
  - constructor; [|constructor]. split; reflexivity.
  - constructor.
  - exists r. split; [exact Hr|]. intros w Hw.
    rewrite Forall_forall in Hok. destruct (Hok w Hw) as [Hacc Hmatch].
    split; [now apply Hholds|].
    apply (is_match_sound self w Hmatch).
Qed.

Lemma levenshtein_search_sound_witness :
  exists r,
    levenshtein_search (finish
        (match insert_all [chars "ab"; chars "bb"] Dawg_new with
         | Returned g => g
         | Raised _ => Dawg_new
         end)) (chars "ab") 1 CostNone CostNone CostNone = Some r /\
    forall w, w ∈ r ->
      w ∈ [chars "ab"; chars "bb"] /\
      weighted_distance (unary_cost CostNone) (unary_cost CostNone)
        (replace_cost_fun CostNone) (chars "ab") w <= 1.
Proof.
  apply (levenshtein_search_sound [chars "ab"; chars "bb"]).
  vm_compute. reflexivity.
Defined.

(** C1 as stated fails: in the dictionary {"ab", "bb"} both words end in
    the same interned node; with query "ab" and budget 1 that node is
    expanded for the prefix "b" first, so "bb" is returned and "ab", at
    distance 0 from the query, is not. *)
Lemma levenshtein_search_incomplete :
  match build [chars "ab"; chars "bb"] with
  | Returned g =>
      levenshtein_search g (chars "ab") 1 CostNone CostNone CostNone
      = Some [chars "bb"]
  | Raised _ => False
  end /\
  weighted_distance (unary_cost CostNone) (unary_cost CostNone)
    (replace_cost_fun CostNone) (chars "ab") (chars "ab") = 0.
Proof. split; vm_compute; reflexivity. Qed.

(** ** The search with budget 0 and the default costs (claim C4) *)

Lemma search_loop_mono lev_auto g fuel : forall fuel' stack searched matched r,
  (fuel <= fuel')%nat ->
  search_loop fuel lev_auto g stack searched matched = Some r ->
  search_loop fuel' lev_auto g stack searched matched = Some r.
Proof.
  induction fuel as [|fuel IH]; intros fuel' stack searched matched r Hle;
    [discriminate|].
  destruct fuel' as [|fuel']; [lia|]. simpl.
  destruct stack as [|[[word node] state] stack]; [auto|].
  case_bool_decide.
  - apply IH. lia.
  - destruct (foldl _ _ _) as [stack' matched']. apply IH. lia.
Qed.

Lemma insert_all_nonempty words : forall g g',
  insert_all words g = Returned g' -> [] ∉ words.
Proof.
  induction words as [|word rest IH]; intros g g'; simpl.
  - intros _. apply not_elem_of_nil.
  - destruct (insert word g) as [g1|] eqn:Hins; [|discriminate].
    intros Hrest. apply not_elem_of_cons. split; [|now apply (IH g1 g')].
    intros <-.
    assert (H : insert [] g = Raised OrderingViolation)
      by (apply insert_raises; intros H; inversion H).
    congruence.
Qed.

Section Exact0.

Variable query : str.
Variable g : Dawg.
Hypothesis Hinv : shape_inv g.

Let self : SparseLevenshteinAutomaton :=
  new_automaton query 0 CostNone CostNone CostNone.

Lemma exact_start : start_state self = [(-1, 0)].
Proof. unfold start_state, self. simpl. now destruct query. Qed.

Lemma exact_icost char : _icost self char = 1.
Proof. reflexivity. Qed.

Lemma exact_rcost x y : _rcost self x y = if Ascii.eqb x y then 0 else 1.
Proof. unfold self. simpl. now destruct (Ascii.eqb x y). Qed.

Lemma exact_step_single char k :
  step self char (@Some OD.t [(k, 0)])
  = if k + 1 =? len query then []
    else if Ascii.eqb char (char_at query (k + 1)) then [(k + 1, 0)] else [].
Proof.
  change (step self char (@Some OD.t [(k, 0)]))
    with (step_state self char [(k, 0)]).
  rewrite step_state_head. rewrite exact_icost.
  change (_d self) with 0. change (0 + 1 <=? 0) with false.
  cbn [OD.keys map fst foldl]. unfold step_body, OD.at_.
  change (_str self) with query. change (_d self) with 0.
  destruct (k + 1 =? len query); [reflexivity|].
  cbn [OD.get]. rewrite Z.eqb_refl. cbn [default].
  destruct (Z.eqb_spec k (k + 1)) as [E|_]; [lia|].
  rewrite exact_rcost.
  destruct (Ascii.eqb char (char_at query (k + 1))); reflexivity.
Qed.

Lemma exact_step_mid (j : nat) char :
  (j < length query)%nat ->
  step self char (@Some OD.t [(Z.of_nat j - 1, 0)])
  = if Ascii.eqb char (nth j query Ascii.zero)
    then [(Z.of_nat j, 0)] else [].
Proof.
  intros Hj. rewrite exact_step_single. unfold char_at.
  replace (Z.of_nat j - 1 + 1) with (Z.of_nat j) by lia.
  rewrite Nat2Z.id.
  destruct (Z.eqb_spec (Z.of_nat j) (len query)) as [E|_];
    [unfold len in E; lia | reflexivity].
Qed.

Lemma exact_step_end char :
  step self char (@Some OD.t [(len query - 1, 0)]) = [].
Proof.
  rewrite exact_step_single.
  replace (len query - 1 + 1) with (len query) by lia.
  now rewrite Z.eqb_refl.
Qed.

Lemma exact_is_match (j : nat) :
  is_match self [(Z.of_nat j, 0)] = Nat.eqb (S j) (length query).
Proof.
  unfold is_match. change (_d self) with 0. change (_str self) with query.
  cbn [OD.get].
  destruct (Z.eqb_spec (Z.of_nat j) (len query - 1)) as [E|E]; cbn [default];
    destruct (Nat.eqb_spec (S j) (length query)) as [E'|E'];
    try reflexivity; unfold len in E; lia.
Qed.

Lemma visit_dead word state es : forall stack matched,
  (forall char child, (char, child) ∈ es ->
     step self char (Some state) = []) ->
  foldl (visit_edge self g word state) (stack, matched) es = (stack, matched).
Proof.
  induction es as [|[char child] es IH]; intros stack matched Hdead;
    [reflexivity|].
  cbn [foldl]. unfold visit_edge at 2.
  rewrite (Hdead char child) by (apply elem_of_cons; now left).
  simpl. apply IH. intros c t Hin. apply (Hdead c t).
  apply elem_of_cons. now right.
Qed.

Lemma visit_mid word (j : nat) es : forall stack matched,
  (j < length query)%nat ->
  NoDup (map fst es) ->
  foldl (visit_edge self g word [(Z.of_nat j - 1, 0)]) (stack, matched) es
  = match edges_get (nth j query Ascii.zero) es with
    | Some child =>
        ((word ++ [nth j query Ascii.zero], child, [(Z.of_nat j, 0)]) :: stack,
         if Nat.eqb (S j) (length query) && final (node_at g child)
         then set_add (word ++ [nth j query Ascii.zero]) matched
         else matched)
    | None => (stack, matched)
    end.
Proof.
  induction es as [|[char child] es IH]; intros stack matched Hj Hnd;
    [reflexivity|].
  simpl in Hnd. apply NoDup_cons in Hnd as [Hfresh Hnd].
  cbn [foldl edges_get]. unfold visit_edge at 2.
  rewrite (exact_step_mid j char Hj).
  destruct (Ascii.eqb_spec char (nth j query Ascii.zero)) as [->|Hne].
  - rewrite exact_is_match. cbn [can_match].
    apply visit_dead. intros c t Hin. rewrite (exact_step_mid j c Hj).
    destruct (Ascii.eqb_spec c (nth j query Ascii.zero)) as [->|_];
      [|reflexivity].
    exfalso. apply Hfresh. apply list_elem_of_fmap.
    now exists (nth j query Ascii.zero, t).
  - simpl. now apply IH.
Qed.

Lemma search_exact suffix : forall word node searched matched fuel,
  query = word ++ suffix ->
  (forall s, s ∈ searched -> (rank g node < rank g s)%nat) ->
  matched = (if bool_decide (suffix = []) && negb (bool_decide (word = []))
                && final (node_at g node)
             then [query] else []) ->
  (length suffix + 2 <= fuel)%nat ->
  search_loop fuel self g
    [(word, node, [(Z.of_nat (length word) - 1, 0)])] searched matched
  = Some (exact_result query g node suffix).
Proof.
  induction suffix as [|c rest IH];
    intros word node searched matched fuel Hq Hrank Hmatched Hfuel.
  - destruct fuel as [|[|fuel]]; try (simpl in Hfuel; lia).
    rewrite app_nil_r in Hq. subst word.
    cbn [search_loop].
    rewrite bool_decide_false
      by (intros Hin; specialize (Hrank _ Hin); lia).
    rewrite visit_dead by (intros; apply exact_step_end).
    subst matched. unfold exact_result. simpl.
    now rewrite andb_comm.
  - destruct fuel as [|fuel]; [simpl in Hfuel; lia|].
    assert (Hj : (length word < length query)%nat).
    { rewrite Hq, length_app. simpl. lia. }
    assert (Hc : nth (length word) query Ascii.zero = c).
    { rewrite Hq. apply nth_middle. }
    cbn [search_loop].
    rewrite bool_decide_false
      by (intros Hin; specialize (Hrank _ Hin); lia).
    rewrite (visit_mid word (length word)) by (auto; apply (sh_keys g Hinv)).
    rewrite Hc. subst matched.
    rewrite bool_decide_false with (P := c :: rest = []) by discriminate.
    cbn [andb].
    assert (Hres : exact_result query g node (c :: rest)
                   = match edges_get c (edges (node_at g node)) with
                     | Some child => exact_result query g child rest
                     | None => []
                     end).
    { unfold exact_result. cbn [walk]. now destruct (edges_get c _). }
    rewrite Hres.
    destruct (edges_get c (edges (node_at g node))) as [child|] eqn:Hedge.
    + replace (Z.of_nat (length word))
        with (Z.of_nat (length (word ++ [c])) - 1)
        by (rewrite length_app; simpl; lia).
      apply IH.
      * rewrite <- app_assoc. exact Hq.
      * intros s Hs. apply edges_get_Some_elem in Hedge.
        pose proof (edge_rank g node c child Hinv Hedge).
        apply elem_of_cons in Hs as [->|Hs]; [assumption|].
        specialize (Hrank _ Hs). lia.
      * rewrite bool_decide_false with (P := word ++ [c] = [])
          by (destruct word; discriminate).
        cbn [negb]. rewrite andb_true_r.
        assert (Heq : Nat.eqb (S (length word)) (length query)
                      = bool_decide (rest = [])).
        { rewrite Hq, length_app. cbn [length].
          destruct rest; cbn [length].
          - rewrite bool_decide_true by reflexivity. apply Nat.eqb_eq. lia.
          - rewrite bool_decide_false by discriminate. apply Nat.eqb_neq. lia. }
        rewrite Heq.
        destruct (bool_decide (rest = [])) eqn:Hrest; cbn [andb];
          [|reflexivity].
        apply bool_decide_eq_true in Hrest. subst rest.
        destruct (final (node_at g child)); [|reflexivity].
        unfold set_add. rewrite bool_decide_false by apply not_elem_of_nil.
        now rewrite Hq.
      * cbn [length] in Hfuel. lia.
    + destruct fuel; [cbn [length] in Hfuel; lia | reflexivity].
Qed.

End Exact0.
Lemma levenshtein_search_exact_result (g : Dawg) (query : str) :
  shape_inv g ->
  levenshtein_search g query 0 CostNone CostNone CostNone
  = Some (exact_result query g (_root g) query).
Proof.
  intros Hinv. unfold levenshtein_search.
  set (self := new_automaton query 0 CostNone CostNone CostNone).
  destruct (search_loop_sound self g Hinv (search_fuel g)
              [([], _root g, start_state self)] [] [])
    as (r & Hr & _).
  - unfold search_fuel. simpl. lia.
  - constructor; [|constructor]. split; reflexivity.
  - constructor.
  - rewrite Hr. f_equal.
    pose proof (search_exact query g Hinv query [] (_root g) [] []
                  (length query + 2) eq_refl) as He.
    rewrite andb_false_r in He.
    specialize (He ltac:(intros s Hs; now apply elem_of_nil in Hs)
                   eq_refl (Nat.le_refl _)).
    change [(Z.of_nat (length (@nil ascii)) - 1, 0)] with [(-1, 0)] in He.
    rewrite <- (exact_start query) in He. fold self in He.
    apply (search_loop_mono _ _ _ (Nat.max (search_fuel g) (length query + 2)))
      in Hr; [|lia].
    apply (search_loop_mono _ _ _ (Nat.max (search_fuel g) (length query + 2)))
      in He; [|lia].
    enough (Some r = Some (exact_result query g (_root g) query))
      by congruence.
    etransitivity; [symmetry; exact Hr | exact He].
Qed.

(** C4: in a finished dictionary, with the default (unit) costs and budget
    0, the search for a word of the dictionary returns exactly that word,
    and the search for any other string returns nothing. *)
Theorem levenshtein_search_exact (words : list str) (g : Dawg) :
  build words = Returned g ->
  (forall w, w ∈ words ->
     levenshtein_search g w 0 CostNone CostNone CostNone = Some [w]) /\
  (forall q, q ∉ words ->
     levenshtein_search g q 0 CostNone CostNone CostNone = Some []).
Proof.
  intros Hb. destruct (build_spec words g Hb) as [Hinv Hholds].
  assert (Hne : [] ∉ words).
  { unfold build in Hb.
    destruct (insert_all words Dawg_new) as [g1|] eqn:E; [|discriminate].
    now apply (insert_all_nonempty words Dawg_new g1). }
  split.
  - intros w Hw. rewrite (levenshtein_search_exact_result g w Hinv).
    f_equal. unfold exact_result.
    pose proof (proj2 (Hholds w) Hw) as Hacc. unfold accepts in Hacc.
    destruct (walk g (_root g) w) as [y|]; [|discriminate].
    rewrite Hacc. rewrite bool_decide_false; [reflexivity|].
    intros ->. contradiction.
  - intros q Hq. rewrite (levenshtein_search_exact_result g q Hinv).
    f_equal. unfold exact_result.
    assert (Hacc : accepts g (_root g) q <> true)
      by (intros H; apply Hq; now apply Hholds).
    unfold accepts in Hacc.
    destruct (walk g (_root g) q) as [y|]; [|reflexivity].
    destruct (final (node_at g y)); [contradiction | reflexivity].
Qed.

Lemma levenshtein_search_exact_witness :
  let g := finish (match insert_all [chars "ab"; chars "bb"] Dawg_new with
                   | Returned g => g
                   | Raised _ => Dawg_new
                   end) in
  (forall w, w ∈ [chars "ab"; chars "bb"] ->
     levenshtein_search g w 0 CostNone CostNone CostNone = Some [w]) /\
  (forall q, q ∉ [chars "ab"; chars "bb"] ->
     levenshtein_search g q 0 CostNone CostNone CostNone = Some []).
Proof.
  apply (levenshtein_search_exact [chars "ab"; chars "bb"]).
  vm_compute. reflexivity.
Defined.

(** ** Unit insertion and deletion costs: the states are the rows of the
       table cut at the budget *)

Lemma band_S f d k :
  band f d (S k)
  = band f d k ++ (if f k <=? d then [(Z.of_nat k - 1, f k)] else []).
Proof.
  unfold band. rewrite seq_S, List.filter_app, map_app. simpl.
  now destruct (f k <=? d).
Qed.

Lemma get_band f d k (i : nat) :
  OD.get (Z.of_nat i - 1) (band f d k)
  = if (i <? k)%nat && (f i <=? d) then Some (f i) else None.
Proof.
  induction k as [|k IH].
  - reflexivity.
  - rewrite band_S, ODFacts.get_app, IH.
    destruct (Nat.ltb_spec i k), (Nat.ltb_spec i (S k)); try lia; simpl.
    + destruct (f i <=? d) eqn:E; [reflexivity|].
      destruct (f k <=? d); simpl; [|reflexivity].
      destruct (Z.eqb_spec (Z.of_nat k - 1) (Z.of_nat i - 1)); [lia|reflexivity].
    + assert (i = k) by lia. subst i.
      destruct (f k <=? d); simpl; [|reflexivity]. now rewrite Z.eqb_refl.
    + destruct (f k <=? d); simpl; [|reflexivity].
      destruct (Z.eqb_spec (Z.of_nat k - 1) (Z.of_nat i - 1)); [lia|reflexivity].
Qed.

Lemma band_snoc f d k v :
  v = f k -> v <= d ->
  OD.set (Z.of_nat k - 1) v (band f d k) = band f d (S k).
Proof.
  intros -> Hle. rewrite ODFacts.set_absent, band_S.
  - apply Z.leb_le in Hle. now rewrite Hle.
  - rewrite get_band, Nat.ltb_irrefl. reflexivity.
Qed.

Lemma band_skip f d k : d < f k -> band f d (S k) = band f d k.
Proof.
  intros H. rewrite band_S. apply Z.leb_gt in H. rewrite H. apply app_nil_r.
Qed.

Lemma band_stop f d p : forall k,
  (forall i, (p <= i)%nat -> d < f i) ->
  (p <= k)%nat -> band f d k = band f d p.
Proof.
  intros k Hgt. induction k as [|k IH]; intros Hk.
  - now replace p with 0%nat by lia.
  - destruct (Nat.eq_dec p (S k)) as [->|Hne]; [reflexivity|].
    rewrite band_skip by (apply Hgt; lia). apply IH. lia.
Qed.

Lemma band_empty f d k :
  (forall i, (i < k)%nat -> d < f i) -> band f d k = [].
Proof.
  intros H. induction k as [|k IH]; [reflexivity|].
  rewrite band_skip by (apply H; lia). apply IH. intros; apply H; lia.
Qed.

Lemma band_full f d k :
  (forall i, (i < k)%nat -> f i <= d) -> band f d k = rowf f k.
Proof.
  intros H. induction k as [|k IH]; [reflexivity|].
  rewrite band_S, rowf_S, IH by (intros; apply H; lia).
  specialize (H k ltac:(lia)). apply Z.leb_le in H. now rewrite H.
Qed.

(** The first entry of a band is the first cell within the budget. *)
Lemma filter_seq_head (P : nat -> bool) r : forall a i0 rest,
  List.filter P (seq a r) = i0 :: rest ->
  (a <= i0)%nat /\ P i0 = true /\ forall i, (a <= i < i0)%nat -> P i = false.
Proof.
  induction r as [|r IH]; intros a i0 rest; simpl; [discriminate|].
  destruct (P a) eqn:E.
  - intros [= <- _]. repeat split; [lia | exact E | intros; lia].
  - intros H. destruct (IH _ _ _ H) as (H1 & H2 & H3).
    repeat split; [lia | exact H2|].
    intros i Hi. destruct (Nat.eq_dec i a) as [->|]; [exact E | apply H3; lia].
Qed.

Lemma band_head f d k key v rest :
  band f d k = (key, v) :: rest ->
  exists i0 : nat, key = Z.of_nat i0 - 1 /\ v = f i0 /\ f i0 <= d /\
    forall i, (i < i0)%nat -> d < f i.
Proof.
  unfold band. destruct (List.filter _ _) as [|i0 l] eqn:E; [discriminate|].
  simpl. intros [= <- <- _].
  destruct (filter_seq_head _ _ _ _ _ E) as (_ & H2 & H3).
  exists i0. repeat split; [now apply Z.leb_le|].
  intros i Hi. apply Z.leb_gt, H3. lia.
Qed.

Lemma band_nil f d k :
  band f d k = [] -> forall i, (i < k)%nat -> d < f i.
Proof.
  intros E i Hi. destruct (Z.leb_spec (f i) d) as [Hle|]; [|assumption].
  exfalso. pose proof (get_band f d k i) as G. rewrite E in G. simpl in G.
  apply Z.leb_le in Hle. rewrite Hle in G.
  destruct (Nat.ltb_spec i k); [discriminate | lia].
Qed.

Lemma keys_band f d k :
  OD.keys (band f d k)
  = map (fun i : nat => Z.of_nat i - 1)
      (List.filter (fun i => f i <=? d) (seq 0 k)).
Proof. unfold OD.keys, band. now rewrite map_map. Qed.

Section UnitCosts.

Variable self : SparseLevenshteinAutomaton.
Variable text : str.

Hypothesis unit_insert : forall c, _icost self c = 1.
Hypothesis unit_delete : forall c, _dcost self c = 1.
Hypothesis replace_nonneg : forall x y, 0 <= _rcost self x y.
Hypothesis budget_nonneg : 0 <= _d self.

Let D (i j : nat) : Z :=
  lev_dp (_icost self) (_dcost self) (_rcost self) (_str self) text i j.

Lemma unit_row0 (j : nat) : D 0 j = Z.of_nat j.
Proof.
  induction j as [|j IH]; [reflexivity|].
  unfold D in *. rewrite lev_dp_0_S, IH, unit_insert. lia.
Qed.

Lemma unit_col0 (i : nat) : D i 0 = Z.of_nat i.
Proof.
  induction i as [|i IH]; [reflexivity|].
  unfold D in *. rewrite lev_dp_S_0, IH, unit_delete. lia.
Qed.

Lemma unit_SS (i j : nat) :
  D (S i) (S j)
  = Z.min (D (S i) j + 1)
      (Z.min (D i (S j) + 1)
         (D i j + _rcost self (nth j text Ascii.zero)
                    (nth i (_str self) Ascii.zero))).
Proof. unfold D. now rewrite lev_dp_S_S, unit_insert, unit_delete. Qed.

Lemma unit_insert_le (i j : nat) : D i (S j) <= D i j + 1.
Proof.
  destruct i; [rewrite !unit_row0; lia | rewrite unit_SS; lia].
Qed.

Lemma unit_delete_le (i j : nat) : D (S i) j <= D i j + 1.
Proof.
  destruct j; [rewrite !unit_col0; lia | rewrite unit_SS; lia].
Qed.

(** Neighbouring cells differ by at most 1. *)
Lemma unit_up_le (i : nat) : forall j : nat, D i j <= D (S i) j + 1.
Proof.
  induction j as [|j IH].
  - rewrite !unit_col0. lia.
  - rewrite (unit_SS i j).
    pose proof (unit_insert_le i j).
    pose proof (replace_nonneg (nth j text Ascii.zero)
                  (nth i (_str self) Ascii.zero)). lia.
Qed.

Lemma unit_left_le (j : nat) : forall i : nat, D i j <= D i (S j) + 1.
Proof.
  induction i as [|i IH].
  - rewrite !unit_row0. lia.
  - rewrite (unit_SS i j).
    pose proof (unit_delete_le i j).
    pose proof (replace_nonneg (nth j text Ascii.zero)
                  (nth i (_str self) Ascii.zero)). lia.
Qed.

(** A cell within the budget has its diagonal predecessor within it. *)
Lemma unit_diagonal (i j : nat) :
  D (S i) (S j) <= _d self -> D i j <= _d self.
Proof.
  rewrite unit_SS.
  pose proof (unit_up_le i j). pose proof (unit_left_le j i).
  pose proof (replace_nonneg (nth j text Ascii.zero)
                (nth i (_str self) Ascii.zero)). lia.
Qed.

Lemma step_body_band (j q : nat) :
  (q < length (_str self))%nat -> D q j <= _d self ->
  step_body self (nth j text Ascii.zero)
    (band (fun i => D i j) (_d self) (S (length (_str self))))
    (band (fun i => D i (S j)) (_d self) (S q)) (Z.of_nat q - 1)
  = band (fun i => D i (S j)) (_d self) (S (S q)).
Proof.
  intros Hq Hfq. unfold step_body.
  replace (Z.of_nat q - 1 + 1) with (Z.of_nat (S q) - 1) by lia.
  destruct (Z.eqb_spec (Z.of_nat (S q) - 1) (len (_str self))) as [E|_];
    [unfold len in E; lia|].
  unfold OD.at_, char_at. rewrite !get_band.
  replace (Z.to_nat (Z.of_nat (S q) - 1)) with q by lia.
  rewrite unit_insert, unit_delete.
  destruct (Nat.ltb_spec q (S (length (_str self)))); [|lia].
  destruct (Nat.ltb_spec q (S q)); [|lia].
  destruct (Nat.ltb_spec (S q) (S (length (_str self)))); [|lia].
  apply Z.leb_le in Hfq. rewrite Hfq. apply Z.leb_le in Hfq.
  cbn [andb default].
  pose proof (unit_SS q j) as HSS.
  set (r := _rcost self (nth j text Ascii.zero)
              (nth q (_str self) Ascii.zero)) in *.
  destruct (Z.leb_spec (D q (S j)) (_d self)) as [Hdel|Hdel];
    destruct (Z.leb_spec (D (S q) j) (_d self)) as [Hins|Hins];
    match goal with |- context [if ?c <=? _ then _ else _] => set (cost := c) end;
    (destruct (Z.leb_spec cost (_d self)) as [Hc|Hc];
     [apply band_snoc; unfold cost, id in *; lia
     |symmetry; apply band_skip; unfold cost, id in *; lia]).
Qed.

Lemma step_fold_band (j r : nat) : forall p : nat,
  (p + r = S (length (_str self)))%nat ->
  foldl (step_body self (nth j text Ascii.zero)
           (band (fun i => D i j) (_d self) (S (length (_str self)))))
    (band (fun i => D i (S j)) (_d self)
       (Nat.min (S p) (S (length (_str self)))))
    (map (fun i : nat => Z.of_nat i - 1)
       (List.filter (fun i => D i j <=? _d self) (seq p r)))
  = band (fun i => D i (S j)) (_d self) (S (length (_str self))).
Proof.
  induction r as [|r IH]; intros p Hp.
  - simpl. f_equal. lia.
  - cbn [seq List.filter].
    destruct (Nat.eq_dec p (length (_str self))) as [->|Hne].
    + replace (Nat.min (S (length (_str self))) (S (length (_str self))))
        with (Nat.min (S (S (length (_str self)))) (S (length (_str self))))
        by lia.
      destruct (D (length (_str self)) j <=? _d self); cbn [map foldl];
        rewrite ?step_body_last; apply IH; lia.
    + replace (Nat.min (S p) (S (length (_str self)))) with (S p) by lia.
      destruct (Z.leb_spec (D p j) (_d self)) as [Hle|Hgt]; cbn [map foldl].
      * rewrite step_body_band by (auto; lia).
        replace (S (S p))
          with (Nat.min (S (S p)) (S (length (_str self)))) by lia.
        apply IH. lia.
      * rewrite <- (band_skip (fun i => D i (S j)) (_d self) (S p)).
        -- replace (S (S p))
             with (Nat.min (S (S p)) (S (length (_str self)))) by lia.
           apply IH. lia.
        -- destruct (Z.leb_spec (D (S p) (S j)) (_d self)) as [H|H];
             [|exact H].
           apply unit_diagonal in H. lia.
Qed.

Lemma step_band (j : nat) :
  step_state self (nth j text Ascii.zero)
    (band (fun i => D i j) (_d self) (S (length (_str self))))
  = band (fun i => D i (S j)) (_d self) (S (length (_str self))).
Proof.
  assert (Hnext : forall i0 : nat,
            (forall i, (i < i0)%nat -> _d self < D i j) ->
            (0 < i0)%nat ->
            band (fun i => D i (S j)) (_d self) 1 = []).
  { intros i0 Hlow Hpos. apply band_empty. intros i Hi.
    replace i with 0%nat by lia. rewrite unit_row0.
    specialize (Hlow 0%nat Hpos). rewrite unit_row0 in Hlow. lia. }
  destruct (band (fun i => D i j) (_d self) (S (length (_str self))))
    as [|[key v] rest] eqn:E.
  - pose proof (band_nil _ _ _ E) as Hall. symmetry.
    apply band_empty. intros [|i] Hi.
    + specialize (Hall 0%nat ltac:(lia)). cbv beta in *.
      rewrite unit_row0 in Hall. rewrite unit_row0. lia.
    + destruct (Z.leb_spec (D (S i) (S j)) (_d self)) as [H|H]; [|exact H].
      apply unit_diagonal in H. specialize (Hall i ltac:(lia)).
      cbv beta in Hall. lia.
  - destruct (band_head _ _ _ _ _ _ E) as (i0 & -> & -> & Hle & Hlow).
    rewrite step_state_head, <- E, keys_band, unit_insert.
    assert (Hinit : (if D i0 j + 1 <=? _d self
                     then [(Z.of_nat i0 - 1, D i0 j + 1)] else [])
                    = band (fun i => D i (S j)) (_d self)
                        (Nat.min 1 (S (length (_str self))))).
    { replace (Nat.min 1 (S (length (_str self)))) with 1%nat by lia.
      destruct i0 as [|i0].
      - rewrite band_S. change (band _ _ 0) with (@nil (Z * Z)).
        rewrite !unit_row0. simpl app.
        replace (Z.of_nat (S j)) with (Z.of_nat j + 1) by lia. reflexivity.
      - rewrite (Hnext (S i0) Hlow) by lia.
        pose proof (unit_up_le i0 j). specialize (Hlow i0 ltac:(lia)).
        destruct (Z.leb_spec (D (S i0) j + 1) (_d self)); [lia | reflexivity]. }
    etransitivity; [|apply (step_fold_band j (S (length (_str self))) 0); lia].
    f_equal. exact Hinit.
Qed.

Lemma start_loop_band rest : forall before,
  _str self = before ++ rest ->
  Z.of_nat (length before) <= _d self ->
  start_loop self (len before) rest (D (length before) 0)
    (band (fun i => D i 0) (_d self) (S (length before)))
  = band (fun i => D i 0) (_d self) (S (length (_str self))).
Proof.
  induction rest as [|char rest IH]; intros before E Hle; cbn [start_loop].
  - rewrite E, app_nil_r. reflexivity.
  - rewrite unit_delete.
    replace (D (length before) 0 + 1) with (D (S (length before)) 0)
      by (rewrite !unit_col0; lia).
    destruct (Z.leb_spec (D (S (length before)) 0) (_d self)) as [Hc|Hc].
    + replace (len before) with (Z.of_nat (S (length before)) - 1)
        by (unfold len; lia).
      rewrite band_snoc by (auto; lia).
      specialize (IH (before ++ [char])).
      rewrite length_app in IH. cbn [length] in IH.
      replace (length before + 1)%nat with (S (length before)) in IH by lia.
      replace (len (before ++ [char])) with (Z.of_nat (S (length before)) - 1 + 1)
        in IH by (unfold len; rewrite length_app; simpl; lia).
      apply IH; [rewrite <- app_assoc; exact E|].
      rewrite unit_col0 in Hc. lia.
    + symmetry. apply band_stop.
      * intros i Hi. rewrite unit_col0 in *. lia.
      * rewrite E, length_app. simpl. lia.
Qed.

Lemma start_band :
  start_state self
  = band (fun i => D i 0) (_d self) (S (length (_str self))).
Proof.
  rewrite <- (start_loop_band (_str self) [] eq_refl) by (simpl; lia).
  unfold start_state. cbv zeta. f_equal.
  rewrite band_S. change (band _ _ 0) with (@nil (Z * Z)). simpl app.
  destruct (Z.leb_spec (D 0 0) (_d self)) as [_|H]; [reflexivity|].
  change (D 0 0) with 0 in H. lia.
Qed.

Lemma run_band (j : nat) :
  (j <= length text)%nat ->
  run self (take j text)
  = band (fun i => D i j) (_d self) (S (length (_str self))).
Proof.
  induction j as [|j IH]; intros Hj.
  - rewrite take_0. apply start_band.
  - destruct (lookup_lt_is_Some_2 text j) as [c Hc]; [lia|].
    rewrite (take_S_r _ _ _ Hc). unfold run in *. rewrite foldl_app. simpl.
    rewrite IH by lia. unfold step. simpl.
    replace c with (nth j text Ascii.zero)
      by (apply nth_lookup_Some with (d := Ascii.zero) in Hc; exact Hc).
    apply step_band.
Qed.

Lemma is_match_band :
  is_match self (run self text)
  = (D (length (_str self)) (length text) <=? _d self).
Proof.
  rewrite <- (firstn_all text) at 1. rewrite run_band by reflexivity.
  unfold is_match, len. rewrite get_band.
  destruct (Nat.ltb_spec (length (_str self)) (S (length (_str self))))
    as [_|Hn]; [|lia].
  destruct (Z.leb_spec (D (length (_str self)) (length text)) (_d self))
    as [H|H]; simpl.
  - now apply Z.leb_le.
  - apply Z.leb_gt. lia.
Qed.

End UnitCosts.
(** ** A state without entries stays without entries *)

Lemma run_app self w v :
  run self (w ++ v)
  = foldl (fun state char => step self char (Some state)) (run self w) v.
Proof. unfold run. apply foldl_app. Qed.

Lemma feed_nil self v :
  foldl (fun state char => step self char (Some state)) [] v = [].
Proof. induction v as [|c v IH]; [reflexivity | exact IH]. Qed.

Lemma is_match_nil self : is_match self [] = false.
Proof. unfold is_match. simpl. apply Z.leb_gt. lia. Qed.

Lemma can_match_false (state : OD.t) : can_match state = false -> state = [].
Proof. destruct state; [reflexivity | discriminate]. Qed.

Lemma run_dead self w v : run self w = [] -> run self (w ++ v) = [].
Proof. intros E. rewrite run_app, E. apply feed_nil. Qed.

(** ** The table of a longer text *)

(** The columns of the table up to the length of [b] do not depend on what
    follows [b]. *)
Lemma lev_dp_prefix ic dc rc a b v : forall i j : nat,
  (j <= length b)%nat ->
  lev_dp ic dc rc a (b ++ v) i j = lev_dp ic dc rc a b i j.
Proof.
  induction i as [|i IHi]; induction j as [|j IHj]; intros Hj.
  - reflexivity.
  - rewrite !lev_dp_0_S, IHj by lia. rewrite app_nth1 by lia. reflexivity.
  - rewrite !lev_dp_S_0, IHi by lia. reflexivity.
  - rewrite !lev_dp_S_S, IHj, !IHi by lia. rewrite app_nth1 by lia.
    reflexivity.
Qed.

(** Going down a diagonal along equal characters costs nothing. *)
Lemma lev_dp_diagonal ic dc rc a b :
  (forall x, rc x x = 0) ->
  forall k i j : nat,
  (forall t, (t < k)%nat ->
     nth (j + t) b Ascii.zero = nth (i + t) a Ascii.zero) ->
  lev_dp ic dc rc a b (i + k) (j + k) <= lev_dp ic dc rc a b i j.
Proof.
  intros Hrc. induction k as [|k IH]; intros i j H.
  - rewrite !Nat.add_0_r. lia.
  - replace (i + S k)%nat with (S (i + k)) by lia.
    replace (j + S k)%nat with (S (j + k)) by lia.
    rewrite lev_dp_S_S, (H k) by lia. rewrite Hrc.
    specialize (IH i j ltac:(intros; apply H; lia)). lia.
Qed.

Section Prune.

Variable self : SparseLevenshteinAutomaton.

Hypothesis unit_insert : forall c, _icost self c = 1.
Hypothesis unit_delete : forall c, _dcost self c = 1.
Hypothesis replace_nonneg : forall x y, 0 <= _rcost self x y.
Hypothesis replace_same : forall x, _rcost self x x = 0.
Hypothesis budget_nonneg : 0 <= _d self.

Let dist (text : str) : Z :=
  weighted_distance (_icost self) (_dcost self) (_rcost self) (_str self)
    text.

Lemma run_band_all text :
  run self text
  = band (fun i => lev_dp (_icost self) (_dcost self) (_rcost self)
                     (_str self) text i (length text))
      (_d self) (S (length (_str self))).
Proof.
  rewrite <- (firstn_all text) at 1.
  now apply run_band.
Qed.

Lemma is_match_dist text :
  is_match self (run self text) = (dist text <=? _d self).
Proof. now apply is_match_band. Qed.

(** A state with an entry can still be completed to a match: complete the
    text with the rest of the pattern. *)
Lemma can_match_extension w :
  can_match (run self w) = true -> exists v, dist (w ++ v) <= _d self.
Proof.
  rewrite run_band_all.
  destruct (band _ _ _) as [|[key c] rest] eqn:E; [discriminate|]. intros _.
  destruct (band_head _ _ _ _ _ _ E) as (i0 & -> & -> & Hle & _).
  assert (Hi0 : (i0 < S (length (_str self)))%nat).
  { pose proof (get_band (fun i => lev_dp (_icost self) (_dcost self)
                  (_rcost self) (_str self) w i (length w))
                  (_d self) (S (length (_str self))) i0) as G.
    rewrite E in G. cbn [OD.get] in G. rewrite Z.eqb_refl in G.
    destruct (Nat.ltb_spec i0 (S (length (_str self)))); [lia|].
    discriminate. }
  exists (drop i0 (_str self)). unfold dist, weighted_distance.
  rewrite length_app, length_drop.
  pose proof (lev_dp_diagonal (_icost self) (_dcost self) (_rcost self)
                (_str self) (w ++ drop i0 (_str self)) replace_same
                (length (_str self) - i0) i0 (length w)) as Hd.
  replace (i0 + (length (_str self) - i0))%nat with (length (_str self))
    in Hd by lia.
  rewrite (lev_dp_prefix _ _ _ _ w (drop i0 (_str self)) i0 (length w))
    in Hd by lia.
  etransitivity; [apply Hd | exact Hle].
  intros t Ht. rewrite app_nth2_plus.
  rewrite !nth_lookup, lookup_drop. reflexivity.
Qed.

Lemma can_match_dist w :
  can_match (run self w) = true <-> exists v, dist (w ++ v) <= _d self.
Proof.
  split; [apply can_match_extension|].
  intros [v Hv]. destruct (can_match (run self w)) eqn:E; [reflexivity|].
  apply can_match_false in E.
  pose proof (is_match_dist (w ++ v)) as Hm.
  rewrite (run_dead self w v E), is_match_nil in Hm.
  symmetry in Hm. apply Z.leb_gt in Hm. lia.
Qed.

End Prune.

(** ** The default costs *)

Lemma default_unit c : unary_cost CostNone c = 1.
Proof. reflexivity. Qed.

Lemma default_replace_nonneg x y : 0 <= replace_cost_fun CostNone x y.
Proof. simpl. destruct (Ascii.eqb x y); simpl; lia. Qed.

Lemma default_replace_same x : replace_cost_fun CostNone x x = 0.
Proof. simpl. now rewrite Ascii.eqb_refl. Qed.

Lemma lev_dp_nonneg ic dc rc a b :
  (forall y, 0 <= ic y) -> (forall x, 0 <= dc x) ->
  (forall x y, 0 <= rc x y) ->
  forall i j : nat, 0 <= lev_dp ic dc rc a b i j.
Proof.
  intros Hic Hdc Hrc.
  induction i as [|i IHi]; induction j as [|j IHj].
  - simpl. lia.
  - rewrite lev_dp_0_S. specialize (Hic (nth j b Ascii.zero)). lia.
  - rewrite lev_dp_S_0. specialize (IHi 0%nat).
    specialize (Hdc (nth i a Ascii.zero)). lia.
  - rewrite lev_dp_S_S.
    pose proof (IHi j). pose proof (IHi (S j)).
    specialize (Hic (nth j b Ascii.zero)).
    specialize (Hdc (nth i a Ascii.zero)).
    specialize (Hrc (nth j b Ascii.zero) (nth i a Ascii.zero)). lia.
Qed.

Lemma edit_distance_nonneg a b : 0 <= edit_distance a b.
Proof.
  unfold edit_distance. rewrite classic_dp_weighted.
  apply lev_dp_nonneg; intros; try (rewrite default_unit; lia).
  apply default_replace_nonneg.
Qed.

(** ** A negative budget *)

Section NegativeBudget.

Variable self : SparseLevenshteinAutomaton.

Hypothesis unit_insert : forall c, _icost self c = 1.
Hypothesis unit_delete : forall c, _dcost self c = 1.
Hypothesis replace_nonneg : forall x y, 0 <= _rcost self x y.
Hypothesis budget_negative : _d self < 0.

Lemma start_state_negative : start_state self = [(-1, 0)].
Proof.
  unfold start_state. cbv zeta. destruct (_str self) as [|x r];
    [reflexivity|].
  cbn [start_loop]. rewrite unit_delete.
  destruct (Z.leb_spec (0 + 1) (_d self)); [lia | reflexivity].
Qed.

Lemma step_negative char : step_state self char [(-1, 0)] = [].
Proof.
  unfold step_state. cbn [OD.keys map fst foldl].
  change (OD.at_ [(-1, 0)] (-1)) with 0.
  rewrite unit_insert.
  destruct (Z.leb_spec (0 + 1) (_d self)); [lia|].
  unfold step_body.
  change (-1 + 1) with 0.
  change (OD.at_ [(-1, 0)] (-1)) with 0.
  change (OD.get (-1) []) with (@None Z).
  change (OD.get 0 [(-1, 0)]) with (@None Z).
  destruct (0 =? len (_str self)); [reflexivity|]. cbv zeta.
  pose proof (replace_nonneg char (char_at (_str self) 0)).
  destruct (Z.leb_spec (0 + _rcost self char (char_at (_str self) 0))
              (_d self)); [lia | reflexivity].
Qed.

Lemma is_match_negative text : is_match self (run self text) = false.
Proof.
  destruct text as [|c text].
  - unfold run. cbn [foldl]. rewrite start_state_negative.
    unfold is_match. cbn [OD.get].
    destruct (-1 =? len (_str self) - 1); cbn [default]; unfold id;
      apply Z.leb_gt; lia.
  - change (c :: text) with ([c] ++ text). rewrite run_dead.
    + apply is_match_nil.
    + unfold run. cbn [foldl]. unfold step. cbn [default]. unfold id.
      rewrite start_state_negative. apply step_negative.
Qed.

Lemma get_negative text :
  _str self <> [] \/ text <> [] ->
  OD.get (len (_str self) - 1) (run self text) = None.
Proof.
  intros Hne. destruct text as [|c text].
  - unfold run. cbn [foldl]. rewrite start_state_negative. cbn [OD.get].
    destruct Hne as [Hne|Hne]; [|congruence].
    destruct (Z.eqb_spec (-1) (len (_str self) - 1)) as [E|_];
      [|reflexivity].
    exfalso. apply Hne. destruct (_str self); [reflexivity|].
    unfold len in E. cbn [length] in E. lia.
  - change (c :: text) with ([c] ++ text). rewrite run_dead; [reflexivity|].
    unfold run. cbn [foldl]. unfold step. cbn [default]. unfold id.
    rewrite start_state_negative. apply step_negative.
Qed.

End NegativeBudget.

(** The distance function with the default costs, for any [max_cost]. *)
Lemma default_distance_max_cost (a b : str) (mc : Z) :
  levenshtein_distance a b mc CostNone CostNone CostNone
  = if edit_distance a b <=? (len a + len b) * mc
    then Some (edit_distance a b) else None.
Proof.
  unfold levenshtein_distance. cbv zeta.
  set (self := new_automaton a ((len a + len b) * mc) CostNone CostNone
                 CostNone).
  change a with (_str self) at 1.
  assert (He : lev_dp (_icost self) (_dcost self) (_rcost self) (_str self) b
                 (length (_str self)) (length b) = edit_distance a b).
  { unfold edit_distance. now rewrite classic_dp_weighted. }
  destruct (Z.le_gt_cases 0 ((len a + len b) * mc)) as [Hd|Hd].
  - rewrite (run_band_all self default_unit default_unit
               default_replace_nonneg Hd b).
    unfold len at 1. rewrite get_band, He.
    destruct (Nat.ltb_spec (length (_str self)) (S (length (_str self))));
      [reflexivity | lia].
  - rewrite (get_negative self default_unit default_unit
               default_replace_nonneg Hd b).
    + pose proof (edit_distance_nonneg a b).
      destruct (Z.leb_spec (edit_distance a b) ((len a + len b) * mc));
        [lia | reflexivity].
    + destruct a as [|x a]; [|left; discriminate].
      destruct b as [|y b]; [|right; discriminate].
      unfold len in Hd. cbn in Hd. lia.
Qed.
(** ** The count of a node is the number of words accepted from it *)

Lemma str_lt_trans a : forall b c, str_lt a b -> str_lt b c -> str_lt a c.
Proof.
  induction a as [|x a IH]; intros b c Hab Hbc.
  - inversion Hab; subst. inversion Hbc; subst; constructor.
  - inversion Hab; subst; inversion Hbc; subst.
    + apply str_lt_head. lia.
    + now apply str_lt_head.
    + now apply str_lt_head.
    + apply str_lt_tail. now apply (IH b0).
Qed.

Lemma increasing_above previous words :
  increasing previous words -> Forall (str_lt previous) words.
Proof.
  revert previous. induction words as [|w words IH]; intros previous;
    simpl; [constructor|].
  intros [Hlt Hrest]. constructor; [exact Hlt|].
  eapply Forall_impl; [apply IH, Hrest|].
  intros u Hu. now apply (str_lt_trans previous w u).
Qed.

Lemma increasing_NoDup previous words :
  increasing previous words -> NoDup words.
Proof.
  revert previous. induction words as [|w words IH]; intros previous;
    simpl; [constructor|].
  intros [_ Hrest]. apply NoDup_cons. split; [|now apply (IH w)].
  intros Hin. apply increasing_above in Hrest.
  rewrite Forall_forall in Hrest. apply (str_lt_irrefl w). now apply Hrest.
Qed.

Lemma flat_map_ext_elem {A B} (f f' : A -> list B) l :
  (forall a, a ∈ l -> f a = f' a) -> flat_map f l = flat_map f' l.
Proof.
  induction l as [|a l IH]; simpl; intros H; [reflexivity|].
  rewrite H by (apply elem_of_cons; now left).
  rewrite IH; [reflexivity|].
  intros b Hb. apply H. apply elem_of_cons. now right.
Qed.

Lemma map_cons_NoDup (c : ascii) (l : list str) :
  NoDup l -> NoDup (map (cons c) l).
Proof.
  induction 1 as [|w l Hw _ IH]; cbn [map]; [constructor|].
  apply NoDup_cons. split; [|exact IH].
  intros Hin. apply (proj1 (list_elem_of_In _ _)) in Hin.
  apply in_map_iff in Hin as (w' & E & Hw'). injection E as ->.
  apply Hw. now apply list_elem_of_In.
Qed.

Lemma rank_bound g x :
  (rank g x
   <= length (_minimized_nodes g) + 1 + length (_unchecked_nodes g))%nat.
Proof.
  unfold rank. destruct (index_of x (_minimized_nodes g)) as [j|] eqn:E.
  - apply index_of_Some, lookup_lt_Some in E. lia.
  - destruct (index_of x (chain g)); lia.
Qed.

Section Language.

Variable g : Dawg.
Hypothesis Hinv : shape_inv g.

Lemma words_from_fuel : forall f1 f2 x,
  (rank g x < f1)%nat -> (rank g x < f2)%nat ->
  words_from f1 g x = words_from f2 g x.
Proof.
  induction f1 as [|f1 IH]; intros [|f2] x H1 H2; try lia.
  cbn [words_from]. f_equal. apply flat_map_ext_elem. intros [l t] He.
  pose proof (edge_rank g x l t Hinv He). cbn [fst snd]. f_equal.
  apply IH; lia.
Qed.

Lemma language_unfold x :
  language g x
  = (if final (node_at g x) then [[]] else [])
    ++ flat_map (fun e => map (cons (fst e)) (language g (snd e)))
         (edges (node_at g x)).
Proof.
  unfold language at 1. cbn [words_from]. f_equal.
  apply flat_map_ext_elem. intros [l t] He.
  pose proof (edge_rank g x l t Hinv He). cbn [fst snd]. f_equal.
  unfold language. apply words_from_fuel; lia.
Qed.

Lemma language_accepts : forall w x,
  w ∈ language g x <-> accepts g x w = true.
Proof.
  induction w as [|c w IH]; intros x;
    rewrite (language_unfold x), elem_of_app.
  - rewrite accepts_nil. split.
    + intros [H|H].
      * destruct (final _); [reflexivity|]. now apply elem_of_nil in H.
      * apply (proj1 (list_elem_of_In _ _)) in H.
        apply in_flat_map in H as (e & _ & H).
        apply in_map_iff in H as (? & ? & _). discriminate.
    + intros ->. left. now apply list_elem_of_singleton.
  - rewrite accepts_cons. split.
    + intros [H|H].
      * destruct (final _);
          [apply list_elem_of_singleton in H; discriminate
          |now apply elem_of_nil in H].
      * apply (proj1 (list_elem_of_In _ _)) in H.
        apply in_flat_map in H as ([l t] & He & H).
        apply in_map_iff in H as (w' & E & Hw). cbn [fst snd] in *.
        injection E as -> ->.
        rewrite (elem_edges_get c t _ (sh_keys g Hinv x))
          by now apply list_elem_of_In.
        apply IH. now apply list_elem_of_In.
    + destruct (edges_get c _) as [t|] eqn:E; [|discriminate].
      intros Hacc. right.
      apply list_elem_of_In, in_flat_map. exists (c, t). split.
      * apply list_elem_of_In. now apply edges_get_Some_elem.
      * apply in_map. apply list_elem_of_In. now apply IH.
Qed.

Lemma flat_map_cons_NoDup (L : nat -> list str) es :
  NoDup (map fst es) ->
  (forall l t, (l, t) ∈ es -> NoDup (L t)) ->
  NoDup (flat_map (fun e => map (cons (fst e)) (L (snd e))) es).
Proof.
  induction es as [|[l t] es IH]; cbn [flat_map map fst snd]; intros Hk HL;
    [constructor|].
  apply NoDup_cons in Hk as [Hl Hk]. apply NoDup_app. split; [|split].
  - apply map_cons_NoDup. apply (HL l t). apply elem_of_cons. now left.
  - intros w Hw Hw'.
    apply (proj1 (list_elem_of_In _ _)) in Hw.
    apply in_map_iff in Hw as (w1 & <- & _).
    apply (proj1 (list_elem_of_In _ _)) in Hw'.
    apply in_flat_map in Hw' as ([l' t'] & He & Hw').
    apply in_map_iff in Hw' as (w2 & E & _). cbn [fst snd] in E.
    injection E as -> _. apply Hl.
    apply list_elem_of_In. change l with (fst (l, t')). now apply in_map.
  - apply IH; [exact Hk|]. intros l' t' He. apply (HL l' t').
    apply elem_of_cons. now right.
Qed.

Lemma language_NoDup : forall n x, (rank g x < n)%nat -> NoDup (language g x).
Proof.
  induction n as [|n IH]; intros x Hx; [lia|].
  rewrite language_unfold. apply NoDup_app. split; [|split].
  - destruct (final _); [apply NoDup_singleton | constructor].
  - intros w Hw Hw'.
    assert (w = []) as ->.
    { destruct (final _); [now apply list_elem_of_singleton in Hw|].
      now apply elem_of_nil in Hw. }
    apply (proj1 (list_elem_of_In _ _)) in Hw'.
    apply in_flat_map in Hw' as (e & _ & H).
    apply in_map_iff in H as (? & ? & _). discriminate.
  - apply flat_map_cons_NoDup; [apply (sh_keys g Hinv)|].
    intros l t He. apply IH.
    pose proof (edge_rank g x l t Hinv He). lia.
Qed.

(** The list of the accepted words has the length of any list of them
    without repetition. *)
Lemma language_length x (l : list str) :
  NoDup l -> (forall w, w ∈ l <-> accepts g x w = true) ->
  length (language g x) = length l.
Proof.
  intros Hnd Hl. apply Permutation_length, NoDup_Permutation.
  - apply (language_NoDup (S (rank g x))). lia.
  - exact Hnd.
  - intros w. rewrite language_accepts. symmetry. apply Hl.
Qed.

Lemma length_flat_map_cons (L : nat -> list str) es c0 :
  foldl (fun c (e : ascii * nat) => c + Z.of_nat (length (L (snd e)))) c0 es
  = c0 + Z.of_nat
           (length (flat_map (fun e => map (cons (fst e)) (L (snd e))) es)).
Proof.
  revert c0. induction es as [|e es IH]; intros c0; cbn [foldl flat_map].
  - simpl. lia.
  - rewrite IH, length_app, length_map, Nat2Z.inj_add, Z.add_assoc.
    reflexivity.
Qed.

Lemma count_edges fuel :
  (forall x cs, (rank g x < fuel)%nat -> counts_ok g cs ->
     exists cs', count fuel g x cs
                 = Some (Z.of_nat (length (language g x)), cs') /\
                 counts_ok g cs') ->
  forall es c0 cs,
    (forall e, e ∈ es -> (rank g (snd e) < fuel)%nat) -> counts_ok g cs ->
    exists cs',
      foldl (count_edge (count fuel g)) (Some (c0, cs)) es
      = Some (foldl (fun c (e : ascii * nat) =>
                       c + Z.of_nat (length (language g (snd e)))) c0 es,
              cs') /\
      counts_ok g cs'.
Proof.
  intros IH. induction es as [|e es IHes]; intros c0 cs Hes Hcs;
    cbn [foldl].
  - now exists cs.
  - destruct (IH (snd e) cs) as (cs1 & E1 & Hcs1);
      [apply Hes, elem_of_cons; now left | exact Hcs|].
    unfold count_edge at 2. rewrite E1.
    apply IHes; [|exact Hcs1].
    intros e' He'. apply Hes, elem_of_cons. now right.
Qed.

Lemma counts_ok_set x cs :
  counts_ok g cs ->
  counts_ok g (set_count x (Z.of_nat (length (language g x))) cs).
Proof.
  intros Hcs y. unfold set_count.
  destruct (Nat.eqb_spec y x) as [->|_]; [reflexivity | apply Hcs].
Qed.

Lemma count_language : forall fuel x cs,
  (rank g x < fuel)%nat -> counts_ok g cs ->
  exists cs', count fuel g x cs = Some (Z.of_nat (length (language g x)), cs')
              /\ counts_ok g cs'.
Proof.
  induction fuel as [|fuel IH]; intros x cs Hx Hcs; [lia|].
  cbn [count]. destruct (Z.eqb_spec (cs x) 0) as [E|Hne]; cbn [negb].
  - destruct (count_edges fuel IH (edges (node_at g x))
                (if final (node_at g x) then 0 + 1 else 0) cs)
      as (cs1 & E1 & Hcs1); [|exact Hcs|].
    { intros [l t] He. pose proof (edge_rank g x l t Hinv He).
      cbn [snd]. lia. }
    rewrite E1, length_flat_map_cons.
    assert (Hlen : (if final (node_at g x) then 0 + 1 else 0)
                   + Z.of_nat (length (flat_map
                        (fun e => map (cons (fst e)) (language g (snd e)))
                        (edges (node_at g x))))
                   = Z.of_nat (length (language g x))).
    { rewrite (language_unfold x), length_app.
      destruct (final (node_at g x)); simpl length; lia. }
    rewrite Hlen. eexists. split; [reflexivity|].
    now apply counts_ok_set.
  - exists cs. split; [|exact Hcs]. now rewrite (Hcs x Hne).
Qed.

End Language.

Lemma counts_ok_none g : counts_ok g no_counts.
Proof. intros y H. now contradiction H. Qed.

Lemma count_assigns fuel g x cs c cs' :
  count fuel g x cs = Some (c, cs') -> cs x = 0 -> cs' x = c.
Proof.
  destruct fuel as [|fuel]; [discriminate|]. cbn [count]. intros H E.
  rewrite E in H. cbn [Z.eqb negb] in H.
  destruct (foldl _ _ _) as [[c1 cs1]|]; [|discriminate].
  injection H as <- <-. unfold set_count. now rewrite Nat.eqb_refl.
Qed.

Lemma finished_unchecked g : _unchecked_nodes (finish g) = [].
Proof.
  unfold finish. destruct (minimize_fields 0 g) as (-> & _).
  apply take_0.
Qed.

Lemma build_unchecked words g :
  build words = Returned g -> _unchecked_nodes g = [].
Proof.
  unfold build. destruct (insert_all words Dawg_new); [|discriminate].
  intros [= <-]. apply finished_unchecked.
Qed.
(** ** The interned nodes are pairwise different, linked and alive *)

Lemma elem_edges_set_other l t c m es :
  (l, t) ∈ es -> l <> c -> (l, t) ∈ edges_set c m es.
Proof.
  induction es as [|[c' t'] es IH]; cbn [edges_set]; intros H Hne.
  - now apply elem_of_nil in H.
  - destruct (Ascii.eqb_spec c' c) as [->|Hc].
    + apply elem_of_cons in H as [E|H]; [congruence|].
      apply elem_of_cons. now right.
    + apply elem_of_cons in H as [E|H]; apply elem_of_cons;
        [left; exact E | right; now apply IH].
Qed.

Lemma keys_edges_set_present c t es t0 :
  edges_get c es = Some t0 -> map fst (edges_set c t es) = map fst es.
Proof.
  induction es as [|[c' t'] es IH]; cbn [edges_get edges_set];
    [discriminate|].
  destruct (Ascii.eqb_spec c' c) as [->|Hc]; [reflexivity|].
  intros H. cbn [map fst]. f_equal. now apply IH.
Qed.

Lemma keys_edges_set_fresh c t es :
  edges_get c es = None -> map fst (edges_set c t es) = map fst es ++ [c].
Proof.
  induction es as [|[c' t'] es IH]; cbn [edges_get edges_set];
    [reflexivity|].
  destruct (Ascii.eqb_spec c' c) as [->|Hc]; [discriminate|].
  intros H. cbn [map fst app]. f_equal. now apply IH.
Qed.

Lemma StronglySorted_snoc {A} (R : A -> A -> Prop) l x :
  StronglySorted R l -> Forall (fun a => R a x) l ->
  StronglySorted R (l ++ [x]).
Proof.
  induction 1 as [|a l Hs IH Ha]; intros HF; cbn [app].
  - repeat constructor.
  - apply Forall_cons in HF as [Hax HF]. constructor; [now apply IH|].
    apply Forall_app. split; [exact Ha | now constructor].
Qed.

Lemma find_minimized_None g ch m :
  find_minimized g ch = None -> m ∈ _minimized_nodes g ->
  node_at g m <> node_at g ch.
Proof.
  unfold find_minimized. intros H Hm E.
  apply (proj1 (list_elem_of_In _ _)) in Hm.
  pose proof (find_none _ _ H m Hm) as Hf. cbv beta in Hf.
  unfold node_eqb in Hf. rewrite E in Hf.
  rewrite bool_decide_true in Hf by reflexivity. discriminate.
Qed.

Lemma N_of_ascii_inj a b : N_of_ascii a = N_of_ascii b -> a = b.
Proof.
  intros E. rewrite <- (ascii_N_embedding a), <- (ascii_N_embedding b).
  now rewrite E.
Qed.

(** *** One round of [_minimize] *)

Lemma canon_minimize_step g u p c ch :
  shape_inv g -> _unchecked_nodes g = u ++ [(p, c, ch)] ->
  canonical g -> live_pending g ->
  canonical (minimize_step g (length (_unchecked_nodes g) - 1)) /\
  live_pending (minimize_step g (length (_unchecked_nodes g) - 1)).
Proof.
  intros Hinv Hu Hcan Hlive.
  pose proof (accepts_minimize_step g u p c ch Hinv Hu) as Hacc.
  pose proof (frozen_minimize_step g u p c ch Hinv Hu) as Hfro.
  pose proof (pop_chain g u p c ch Hu) as Hchain.
  pose proof (pop_parent_in g u p c ch Hinv Hu) as Hp0.
  pose proof (pop_child_fresh g u p c ch Hinv Hu) as Hch0.
  assert (Hch : ch ∈ chain g).
  { rewrite Hchain. apply elem_of_app. right. now apply list_elem_of_singleton. }
  assert (Hp : p ∈ chain g) by now apply (pop_chain0_sub g u p c ch Hu).
  destruct (sh_chain g Hinv ch Hch) as [_ Hchmin].
  destruct (sh_chain g Hinv p Hp) as [Hplt Hpmin].
  assert (Hlink : edges_get c (edges (node_at g p)) = Some ch).
  { apply (sh_link_edge g Hinv). rewrite Hu. apply elem_of_app. right.
    now apply list_elem_of_singleton. }
  assert (Hpch : p <> ch) by (intros ->; contradiction).
  assert (Hpend : forall x,
            x ∈ map snd u -> x ∈ map snd (_unchecked_nodes g)).
  { intros x Hx. rewrite Hu, map_app. apply elem_of_app. now left. }
  assert (Hlast : ch ∈ map snd (_unchecked_nodes g)).
  { rewrite Hu, map_app. apply elem_of_app. right.
    now apply list_elem_of_singleton. }
  revert Hacc Hfro. rewrite (minimize_step_last g u p c ch Hu).
  destruct (find_minimized g ch) as [m|] eqn:Hf; intros Hacc Hfro.
  - apply find_minimized_Some in Hf as [Hm Heq].
    match goal with |- canonical ?G /\ _ => set (g' := G) in * end.
    assert (Hnode : forall x, x <> p -> node_at g' x = node_at g x).
    { intros x Hx. unfold node_at, g'. cbn [nodes]. rewrite node_alter.
      rewrite bool_decide_false; [reflexivity | intros [? _]; contradiction]. }
    assert (Hnodep : edges (node_at g' p)
                     = edges_set c m (edges (node_at g p))).
    { unfold node_at, g'. cbn [nodes]. rewrite node_alter.
      rewrite bool_decide_true by (split; [reflexivity | exact Hplt]).
      reflexivity. }
    split; [constructor|].
    + intros i j m1 m2 Hi Hj.
      destruct (Hfro m1) as [_ ->];
        [eapply list_elem_of_lookup_2; exact Hi|].
      destruct (Hfro m2) as [_ ->];
        [eapply list_elem_of_lookup_2; exact Hj|].
      now apply (cn_distinct g Hcan).
    + intros t Ht. change (_minimized_nodes g') with (_minimized_nodes g) in *.
      change (chain g') with (_root g :: map snd u).
      destruct (cn_linked g Hcan t Ht) as (x & l & Hx & Hl).
      destruct (decide (x = ch)) as [->|Hxch].
      * exists m, l. split; [now right|].
        destruct (Hfro m Hm) as [_ ->]. now rewrite Heq.
      * assert (Hx' : x ∈ _root g :: map snd u \/ x ∈ _minimized_nodes g).
        { destruct Hx as [Hx|Hx]; [|now right]. left.
          rewrite Hchain in Hx. apply elem_of_app in Hx as [Hx|Hx];
            [exact Hx|]. apply list_elem_of_singleton in Hx. contradiction. }
        exists x, l. split; [exact Hx'|].
        destruct (decide (x = p)) as [->|Hxp].
        -- rewrite Hnodep. apply elem_edges_set_other; [exact Hl|].
           intros ->.
           apply (elem_edges_get _ _ _ (sh_keys g Hinv p)) in Hl.
           rewrite Hlink in Hl. injection Hl as <-. contradiction.
        -- now rewrite (Hnode x Hxp).
    + intros x. destruct (decide (x = p)) as [->|Hxp].
      * rewrite Hnodep, (keys_edges_set_present c m _ ch Hlink).
        apply (cn_sorted g Hcan).
      * rewrite (Hnode x Hxp). apply (cn_sorted g Hcan).
    + intros t Ht. destruct (cn_live g Hcan t Ht) as [w Hw].
      exists w. now rewrite Hacc.
    + intros x Hx. destruct (Hlive x (Hpend x Hx)) as [w Hw].
      exists w. now rewrite Hacc.
  - match goal with |- canonical ?G /\ _ => set (g' := G) in * end.
    assert (Hnode : forall x, node_at g' x = node_at g x) by reflexivity.
    split; [constructor|].
    + intros i j m1 m2. cbn [_minimized_nodes g']. rewrite !Hnode.
      intros Hi Hj E.
      apply lookup_app_Some in Hi as [Hi|[Hige Hi]];
        apply lookup_app_Some in Hj as [Hj|[Hjge Hj]].
      * now apply (cn_distinct g Hcan i j m1 m2).
      * apply list_lookup_singleton_Some in Hj as [_ <-].
        exfalso. apply (find_minimized_None g ch m1 Hf); [|exact E].
        eapply list_elem_of_lookup_2. exact Hi.
      * apply list_lookup_singleton_Some in Hi as [_ <-].
        exfalso. apply (find_minimized_None g ch m2 Hf); [|now symmetry].
        eapply list_elem_of_lookup_2. exact Hj.
      * apply list_lookup_singleton_Some in Hi as [Hi _].
        apply list_lookup_singleton_Some in Hj as [Hj _]. lia.
    + intros t. cbn [_minimized_nodes g'].
      change (chain g') with (_root g :: map snd u).
      intros Ht. apply elem_of_app in Ht as [Ht|Ht].
      * destruct (cn_linked g Hcan t Ht) as (x & l & Hx & Hl).
        exists x, l. split; [|exact Hl].
        destruct Hx as [Hx|Hx].
        -- rewrite Hchain in Hx. apply elem_of_app in Hx as [Hx|Hx];
             [now left | right; apply elem_of_app; now right].
        -- right. apply elem_of_app. now left.
      * apply list_elem_of_singleton in Ht as ->.
        exists p, c. split; [now left|].
        rewrite Hnode. now apply edges_get_Some_elem.
    + intros x. rewrite Hnode. apply (cn_sorted g Hcan).
    + intros t. cbn [_minimized_nodes g']. intros Ht.
      apply elem_of_app in Ht as [Ht|Ht].
      * destruct (cn_live g Hcan t Ht) as [w Hw]. exists w. now rewrite Hacc.
      * apply list_elem_of_singleton in Ht as ->.
        destruct (Hlive ch Hlast) as [w Hw]. exists w. now rewrite Hacc.
    + intros x Hx. destruct (Hlive x (Hpend x Hx)) as [w Hw].
      exists w. now rewrite Hacc.
Qed.

Lemma canon_minimize d g :
  shape_inv g -> canonical g -> live_pending g ->
  canonical (_minimize d g) /\ live_pending (_minimize d g).
Proof.
  intros Hinv Hc Hl.
  enough (H : shape_inv (_minimize d g) /\ canonical (_minimize d g) /\
              live_pending (_minimize d g)) by apply H.
  apply (minimize_ind (fun g' => shape_inv g' /\ canonical g' /\
                                 live_pending g')).
  - intros g0 u p c ch (H0 & H1 & H2) Hu _. split.
    + now apply (shape_minimize_step g0 u p c ch).
    + now apply (canon_minimize_step g0 u p c ch).
  - auto.
Qed.

(** *** The loop that adds the suffix *)

Lemma canon_add_node w g node char :
  shape_inv g -> labels_ok true w g ->
  chain g !! length (_unchecked_nodes g) = Some node ->
  w !! length (_unchecked_nodes g) = Some char ->
  canonical g -> canonical (add_node node char g).
Proof.
  intros Hinv Hlab Hnode Hchar Hcan.
  assert (Hin : node ∈ chain g) by (eapply list_elem_of_lookup_2; exact Hnode).
  destruct (sh_chain g Hinv node Hin) as [Hlt Hnmin].
  pose proof (labels_fresh w g node char Hlab Hnode Hchar) as Hfresh.
  pose proof (frozen_add_node g node char Hinv Hnode) as Hfro.
  pose proof (accepts_add_node g node char Hlt Hfresh) as Hacc.
  constructor.
  - intros i j m1 m2.
    change (_minimized_nodes (add_node node char g))
      with (_minimized_nodes g).
    intros Hi Hj.
    destruct (Hfro m1) as [_ ->]; [eapply list_elem_of_lookup_2; exact Hi|].
    destruct (Hfro m2) as [_ ->]; [eapply list_elem_of_lookup_2; exact Hj|].
    now apply (cn_distinct g Hcan).
  - intros t.
    change (_minimized_nodes (add_node node char g))
      with (_minimized_nodes g).
    intros Ht. destruct (cn_linked g Hcan t Ht) as (x & l & Hx & Hl).
    exists x, l. split.
    + destruct Hx as [Hx|Hx]; [left | now right].
      rewrite chain_add_node. apply elem_of_app. now left.
    + rewrite node_at_add_node by exact Hlt.
      case_bool_decide as Hd; [|exact Hl]. subst x. cbn [edges].
      apply elem_edges_set_other; [exact Hl|]. intros ->.
      apply edges_get_None in Hfresh. apply Hfresh.
      apply list_elem_of_fmap. now exists (char, t).
  - intros x. rewrite node_at_add_node by exact Hlt.
    case_bool_decide as Hd; [|apply (cn_sorted g Hcan)]. subst x.
    cbn [edges]. rewrite (keys_edges_set_fresh _ _ _ Hfresh).
    apply StronglySorted_snoc; [apply (cn_sorted g Hcan)|].
    apply Forall_forall. intros l Hl.
    apply list_elem_of_fmap in Hl as [[l' t] [-> Hl]]. cbn [fst].
    destruct Hlab as [_ H2].
    destruct (H2 _ node l' t Hnode Hl) as (c0 & Hc0 & Hle & Hne).
    rewrite Hchar in Hc0. injection Hc0 as <-. unfold label_lt.
    assert (N_of_ascii l' <> N_of_ascii char).
    { intros E. apply N_of_ascii_inj in E. now apply Hne. }
    lia.
  - intros m.
    change (_minimized_nodes (add_node node char g))
      with (_minimized_nodes g).
    intros Hm. destruct (cn_live g Hcan m Hm) as [u Hu].
    exists u. now rewrite Hacc.
Qed.

Lemma canon_add_suffix w suffix : forall g node,
  shape_inv g -> labels_ok true w g ->
  chain g !! length (_unchecked_nodes g) = Some node ->
  drop (length (_unchecked_nodes g)) w = suffix ->
  canonical g -> canonical (add_suffix suffix node g).2.
Proof.
  induction suffix as [|char rest IH]; intros g node Hinv Hlab Hnode Hdrop
    Hcan; [exact Hcan|].
  assert (Hchar : w !! length (_unchecked_nodes g) = Some char).
  { pose proof (lookup_drop w (length (_unchecked_nodes g)) 0) as H.
    rewrite Hdrop, Nat.add_0_r in H. symmetry. exact H. }
  cbn [add_suffix]. apply IH.
  - now apply shape_add_node.
  - now apply labels_add_node.
  - apply chain_last_add_node.
  - change (_unchecked_nodes (add_node node char g))
      with (_unchecked_nodes g ++ [(node, char, length (nodes g))]).
    rewrite length_app. simpl length.
    rewrite (drop_S _ _ _ Hchar) in Hdrop. injection Hdrop as <-.
    f_equal. lia.
  - now apply (canon_add_node w).
Qed.

(** *** The end of [insert] *)

Lemma canon_set_final g last word :
  shape_inv g -> last ∈ chain g -> canonical g ->
  canonical
    {| nodes := nodes (set_final last g);
       _previous_word := word;
       _root := _root (set_final last g);
       _unchecked_nodes := _unchecked_nodes (set_final last g);
       _minimized_nodes := _minimized_nodes (set_final last g) |}.
Proof.
  intros Hinv Hlast Hcan.
  pose proof (frozen_set_final g last word Hinv Hlast) as Hfro.
  destruct (sh_chain g Hinv last Hlast) as [Hlt _].
  match goal with |- canonical ?G => set (g' := G) in * end.
  assert (Hedges : forall x, edges (node_at g' x) = edges (node_at g x)).
  { intros x. unfold node_at, g'. cbn [nodes set_final].
    apply edges_alter_final. }
  constructor.
  - intros i j m1 m2.
    change (_minimized_nodes g') with (_minimized_nodes g).
    intros Hi Hj.
    destruct (Hfro m1) as [_ ->]; [eapply list_elem_of_lookup_2; exact Hi|].
    destruct (Hfro m2) as [_ ->]; [eapply list_elem_of_lookup_2; exact Hj|].
    now apply (cn_distinct g Hcan).
  - intros t. change (_minimized_nodes g') with (_minimized_nodes g).
    change (chain g') with (chain g).
    intros Ht. destruct (cn_linked g Hcan t Ht) as (x & l & Hx & Hl).
    exists x, l. split; [exact Hx|]. now rewrite Hedges.
  - intros x. rewrite Hedges. apply (cn_sorted g Hcan).
  - intros m. change (_minimized_nodes g') with (_minimized_nodes g).
    intros Hm. destruct (cn_live g Hcan m Hm) as [u Hu]. exists u.
    unfold g'. rewrite accepts_set_final by exact Hlt.
    now rewrite Hu.
Qed.

Lemma live_set_final g w last word :
  shape_inv g ->
  (forall i p c ch,
     _unchecked_nodes g !! i = Some (p, c, ch) -> w !! i = Some c) ->
  length (_unchecked_nodes g) = length w ->
  chain g !! length w = Some last ->
  live_pending
    {| nodes := nodes (set_final last g);
       _previous_word := word;
       _root := _root (set_final last g);
       _unchecked_nodes := _unchecked_nodes (set_final last g);
       _minimized_nodes := _minimized_nodes (set_final last g) |}.
Proof.
  intros Hinv H1 Hlen Hlast x.
  assert (Hlt : (last < length (nodes g))%nat).
  { apply (sh_chain g Hinv). eapply list_elem_of_lookup_2. exact Hlast. }
  cbn [_unchecked_nodes set_final]. intros Hx.
  apply list_elem_of_lookup in Hx as [i Hi].
  assert (Hc : chain g !! S i = Some x) by exact Hi.
  exists (drop (S i) w). rewrite accepts_set_final by exact Hlt.
  apply orb_true_iff. right. apply bool_decide_eq_true.
  pose proof (walk_chain g w Hinv H1 (S i) x Hc) as Hwx.
  pose proof (walk_chain g w Hinv H1 (length w) last Hlast) as Hw.
  rewrite firstn_all in Hw.
  rewrite <- (take_drop (S i) w), walk_app, Hwx in Hw. exact Hw.
Qed.

Lemma insert_canonical word g g' :
  stable g -> canonical g -> live_pending g ->
  insert word g = Returned g' ->
  canonical g' /\ live_pending g'.
Proof.
  intros (Hinv & Hlab & Hlen) Hcan Hlive. unfold insert.
  destruct (str_leb word (_previous_word g)) eqn:Hleb; [discriminate|].
  apply str_leb_false in Hleb.
  destruct (common_prefix_spec _ _ Hleb) as (Hcp & Hcp' & _).
  set (cp := common_prefix word (_previous_word g)) in *.
  destruct (minimize_fields cp g) as (Hu1 & Hr1 & Hp1 & _).
  pose proof (shape_minimize cp g Hinv) as Hinv1.
  assert (Hlen1 : length (_unchecked_nodes (_minimize cp g)) = cp).
  { rewrite Hu1, length_take. lia. }
  assert (Hlab1 : labels_ok true word (_minimize cp g)).
  { apply (labels_switch (_previous_word g)); [exact Hleb| |exact Hlen1].
    now apply (labels_minimize true). }
  destruct (canon_minimize cp g Hinv Hcan Hlive) as [Hcan1 _].
  pose proof (add_suffix_spec word (drop cp word) (_minimize cp g) _
                Hinv1 Hlab1 (chain_last _)) as Hspec.
  pose proof (canon_add_suffix word (drop cp word) (_minimize cp g) _
                Hinv1 Hlab1 (chain_last _)) as Hcs.
  rewrite Hlen1 in Hspec, Hcs. specialize (Hspec eq_refl).
  specialize (Hcs eq_refl Hcan1).
  destruct (add_suffix _ _ _) as [last g2]. simpl in Hspec, Hcs.
  destruct Hspec as (Hinv2 & Hlab2 & Hlen2 & Hlast & Hacc & Hroot).
  intros [= <-].
  assert (Hlast_in : last ∈ chain g2)
    by (eapply list_elem_of_lookup_2; exact Hlast).
  split.
  - now apply canon_set_final.
  - apply (live_set_final g2 word last word); auto. apply Hlab2.
Qed.

Lemma canonical_new : canonical Dawg_new /\ live_pending Dawg_new.
Proof.
  split; [constructor|].
  - intros i j m1 m2 H. cbn in H. now rewrite lookup_nil in H.
  - intros t H. now apply elem_of_nil in H.
  - intros [|x]; cbn; constructor.
  - intros m H. now apply elem_of_nil in H.
  - intros x H. now apply elem_of_nil in H.
Qed.

Lemma insert_all_canonical words : forall g g' before,
  stable g -> holds g before -> canonical g -> live_pending g ->
  insert_all words g = Returned g' ->
  stable g' /\ canonical g' /\ live_pending g'.
Proof.
  induction words as [|word rest IH]; intros g g' before Hst Hh Hc Hl;
    cbn [insert_all].
  - intros [= <-]. auto.
  - destruct (insert word g) as [g1|] eqn:Hins; [|discriminate].
    destruct (insert_spec word g g1 before Hst Hh Hins) as (Hst1 & Hh1 & _).
    destruct (insert_canonical word g g1 Hst Hc Hl Hins) as [Hc1 Hl1].
    now apply (IH g1 g' (before ++ [word])).
Qed.

Lemma build_canonical words g : build words = Returned g -> canonical g.
Proof.
  unfold build. destruct (insert_all words Dawg_new) as [g1|] eqn:E;
    [|discriminate].
  intros [= <-].
  destruct stable_new as [Hst Hh]. destruct canonical_new as [Hc Hl].
  destruct (insert_all_canonical words Dawg_new g1 [] Hst Hh Hc Hl E)
    as ((Hinv & _) & Hc1 & Hl1).
  now apply canon_minimize.
Qed.
(** ** The nodes of a finished dictionary *)

Lemma longest_word (l : list str) :
  l <> [] -> exists x, x ∈ l /\ forall y, y ∈ l -> (length y <= length x)%nat.
Proof.
  induction l as [|a l IH]; [congruence|]. intros _.
  destruct l as [|b l].
  - exists a. split; [now apply list_elem_of_singleton|].
    intros y Hy. apply list_elem_of_singleton in Hy as ->. lia.
  - destruct (IH ltac:(discriminate)) as (x & Hx & Hmax).
    destruct (le_lt_dec (length a) (length x)) as [Hle|Hgt].
    + exists x. split; [apply elem_of_cons; now right|].
      intros y Hy. apply elem_of_cons in Hy as [->|Hy]; [exact Hle|].
      now apply Hmax.
    + exists a. split; [apply elem_of_cons; now left|].
      intros y Hy. apply elem_of_cons in Hy as [->|Hy]; [lia|].
      specialize (Hmax y Hy). lia.
Qed.

(** Two lists of edges with ascending labels and the same entries are the
    same list. *)
Lemma sorted_edges_eq (es1 : list (ascii * nat)) : forall es2,
  StronglySorted label_lt (map fst es1) ->
  StronglySorted label_lt (map fst es2) ->
  (forall e, e ∈ es1 <-> e ∈ es2) -> es1 = es2.
Proof.
  assert (Hhead : forall (e : ascii * nat) r e',
            StronglySorted label_lt (map fst (e :: r)) -> e' ∈ r ->
            label_lt (fst e) (fst e')).
  { intros e r e' Hs He'. cbn [map] in Hs. apply StronglySorted_inv in Hs
      as [_ Hall]. rewrite List.Forall_forall in Hall. apply Hall.
    apply in_map. now apply list_elem_of_In. }
  assert (Hirr : forall a, ~ label_lt a a) by (unfold label_lt; lia).
  assert (Hasym : forall a b, label_lt a b -> label_lt b a -> False)
    by (unfold label_lt; lia).
  induction es1 as [|e1 r1 IH]; intros [|e2 r2] H1 H2 Hsame.
  - reflexivity.
  - exfalso. apply (elem_of_nil e2), Hsame, elem_of_cons. now left.
  - exfalso. apply (elem_of_nil e1), Hsame, elem_of_cons. now left.
  - assert (e1 = e2) as <-.
    { assert (He1 : e1 ∈ e2 :: r2) by (apply Hsame, elem_of_cons; now left).
      assert (He2 : e2 ∈ e1 :: r1) by (apply Hsame, elem_of_cons; now left).
      apply elem_of_cons in He1 as [E|He1]; [exact E|].
      apply elem_of_cons in He2 as [E|He2]; [now symmetry|].
      exfalso. apply (Hasym (fst e1) (fst e2)).
      - now apply (Hhead e1 r1).
      - now apply (Hhead e2 r2). }
    f_equal. apply IH.
    + cbn [map] in H1. now apply StronglySorted_inv in H1.
    + cbn [map] in H2. now apply StronglySorted_inv in H2.
    + intros e. split; intros He.
      * assert (H : e ∈ e1 :: r2) by (apply Hsame, elem_of_cons; now right).
        apply elem_of_cons in H as [->|H]; [|exact H].
        exfalso. apply (Hirr (fst e1)). now apply (Hhead e1 r1).
      * assert (H : e ∈ e1 :: r1) by (apply Hsame, elem_of_cons; now right).
        apply elem_of_cons in H as [->|H]; [|exact H].
        exfalso. apply (Hirr (fst e1)). now apply (Hhead e1 r2).
Qed.

Lemma foldl_add_lengths (f : nat -> nat) l : forall c0,
  foldl (fun c n => c + Z.of_nat (f n)) c0 l
  = c0 + Z.of_nat (sum_list (map f l)).
Proof.
  induction l as [|a l IH]; intros c0; cbn [foldl map sum_list].
  - simpl. lia.
  - rewrite IH. unfold id. lia.
Qed.

Section Finished.

Variable g : Dawg.
Hypothesis Hinv : shape_inv g.
Hypothesis Hcan : canonical g.
Hypothesis Hdone : _unchecked_nodes g = [].

Lemma finished_chain : chain g = [_root g].
Proof. unfold chain. now rewrite Hdone. Qed.

Lemma finished_root_fresh : _root g ∉ _minimized_nodes g.
Proof.
  apply (sh_chain g Hinv). rewrite finished_chain.
  now apply list_elem_of_singleton.
Qed.

Lemma minimized_NoDup : NoDup (_minimized_nodes g).
Proof.
  apply NoDup_alt. intros i j x Hi Hj.
  now apply (cn_distinct g Hcan i j x x).
Qed.

Lemma finished_nodes_NoDup : NoDup (_root g :: _minimized_nodes g).
Proof.
  apply NoDup_cons. split; [apply finished_root_fresh | apply minimized_NoDup].
Qed.

Lemma finished_edge_interned x t :
  edge g x t -> t ∈ _minimized_nodes g.
Proof.
  intros [l Hl]. apply list_elem_of_In in Hl.
  destruct (sh_edges g Hinv x l t Hl) as [H|H]; [exact H|].
  rewrite Hdone in H. now apply elem_of_nil in H.
Qed.

Lemma reachable_listed x :
  rtc (edge g) (_root g) x -> x ∈ _root g :: _minimized_nodes g.
Proof.
  intros H. apply rtc_inv_r in H as [->|(y & _ & He)].
  - apply elem_of_cons. now left.
  - apply elem_of_cons. right. now apply (finished_edge_interned y).
Qed.

Lemma interned_reachable : forall n j t,
  _minimized_nodes g !! j = Some t ->
  (length (_minimized_nodes g) - j <= n)%nat ->
  rtc (edge g) (_root g) t.
Proof.
  induction n as [|n IH]; intros j t Hj Hn.
  - apply lookup_lt_Some in Hj. lia.
  - destruct (cn_linked g Hcan t) as (x & l & Hx & Hl);
      [eapply list_elem_of_lookup_2; exact Hj|].
    assert (He : edge g x t) by (exists l; now apply list_elem_of_In).
    destruct Hx as [Hx|Hx].
    + rewrite finished_chain in Hx. apply list_elem_of_singleton in Hx as ->.
      now apply rtc_once.
    + apply list_elem_of_lookup in Hx as [jx Hjx].
      destruct (sh_min g Hinv jx x Hjx) as [_ Hdown].
      destruct (Hdown l t Hl) as (j' & Hlt & Hj').
      pose proof (NoDup_lookup _ _ _ _ minimized_NoDup Hj Hj') as ->.
      apply (rtc_r _ x); [|exact He].
      apply (IH jx x Hjx). apply lookup_lt_Some in Hjx. lia.
Qed.

Lemma listed_reachable x :
  x ∈ _root g :: _minimized_nodes g -> rtc (edge g) (_root g) x.
Proof.
  intros H. apply elem_of_cons in H as [->|H]; [apply rtc_refl|].
  apply list_elem_of_lookup in H as [j Hj].
  apply (interned_reachable (length (_minimized_nodes g)) j); [exact Hj|].
  lia.
Qed.

Lemma edge_count_sum :
  edge_count g
  = Z.of_nat (sum_list (map (fun x => length (edges (node_at g x)))
                          (_root g :: _minimized_nodes g))).
Proof.
  unfold edge_count.
  rewrite (foldl_add_lengths (fun x => length (edges (node_at g x)))).
  cbn [map sum_list]. unfold id. lia.
Qed.

(** *** Different interned nodes accept different words *)

Lemma interned_edges_sub n :
  (forall j1 j2 m1 m2, (j1 < n)%nat -> (j2 < n)%nat ->
     _minimized_nodes g !! j1 = Some m1 ->
     _minimized_nodes g !! j2 = Some m2 ->
     (forall w, accepts g m1 w = accepts g m2 w) -> m1 = m2) ->
  forall j1 j2 m1 m2, (j1 <= n)%nat -> (j2 <= n)%nat ->
    _minimized_nodes g !! j1 = Some m1 ->
    _minimized_nodes g !! j2 = Some m2 ->
    (forall w, accepts g m1 w = accepts g m2 w) ->
    forall e, e ∈ edges (node_at g m1) -> e ∈ edges (node_at g m2).
Proof.
  intros IH j1 j2 m1 m2 Hn1 Hn2 Hj1 Hj2 Hsame [l t] Hl.
  destruct (sh_min g Hinv j1 m1 Hj1) as [_ Hdown1].
  destruct (sh_min g Hinv j2 m2 Hj2) as [_ Hdown2].
  destruct (Hdown1 l t Hl) as (j' & Hlt' & Hj').
  destruct (cn_live g Hcan t) as [w Hw];
    [eapply list_elem_of_lookup_2; exact Hj'|].
  pose proof (elem_edges_get l t _ (sh_keys g Hinv m1) Hl) as Hget1.
  assert (Hacc : accepts g m2 (l :: w) = true).
  { rewrite <- Hsame, accepts_cons, Hget1. exact Hw. }
  rewrite accepts_cons in Hacc.
  destruct (edges_get l (edges (node_at g m2))) as [t2|] eqn:Hget2;
    [|discriminate].
  pose proof (edges_get_Some_elem l t2 _ Hget2) as Hl2.
  destruct (Hdown2 l t2 Hl2) as (j'' & Hlt'' & Hj'').
  assert (t = t2) as <-; [|exact Hl2].
  apply (IH j' j'' t t2); [lia | lia | exact Hj' | exact Hj''|].
  intros u. pose proof (Hsame (l :: u)) as Hu.
  now rewrite !accepts_cons, Hget1, Hget2 in Hu.
Qed.

Lemma interned_distinct_languages : forall n j1 j2 m1 m2,
  (j1 < n)%nat -> (j2 < n)%nat ->
  _minimized_nodes g !! j1 = Some m1 ->
  _minimized_nodes g !! j2 = Some m2 ->
  (forall w, accepts g m1 w = accepts g m2 w) -> m1 = m2.
Proof.
  induction n as [|n IH]; intros j1 j2 m1 m2 Hn1 Hn2 Hj1 Hj2 Hsame; [lia|].
  assert (Hnode : node_at g m1 = node_at g m2).
  { pose proof (Hsame []) as Hf. rewrite !accepts_nil in Hf.
    assert (He : edges (node_at g m1) = edges (node_at g m2)).
    { apply sorted_edges_eq; try apply (cn_sorted g Hcan).
      intros e. split.
      - apply (interned_edges_sub n IH j1 j2 m1 m2); auto; lia.
      - apply (interned_edges_sub n IH j2 j1 m2 m1); auto; lia. }
    destruct (node_at g m1), (node_at g m2). cbn in *. congruence. }
  pose proof (cn_distinct g Hcan j1 j2 m1 m2 Hj1 Hj2 Hnode) as ->.
  congruence.
Qed.

Lemma rtc_walk x y :
  rtc (edge g) x y ->
  exists p, walk g x p = Some y /\ (x <> y -> p <> []).
Proof.
  induction 1 as [x|x z y [c Hc] _ (p & Hp & _)].
  - exists []. split; [reflexivity | congruence].
  - exists (c :: p). split; [|discriminate]. cbn [walk].
    apply list_elem_of_In in Hc.
    now rewrite (elem_edges_get c z _ (sh_keys g Hinv x) Hc).
Qed.

Lemma accepts_walk x p y u :
  walk g x p = Some y -> accepts g x (p ++ u) = accepts g y u.
Proof. intros H. unfold accepts. now rewrite walk_app, H. Qed.

Lemma root_not_interned_language (words : list str) m :
  holds g words -> m ∈ _minimized_nodes g ->
  ~ (forall w, accepts g (_root g) w = accepts g m w).
Proof.
  intros Hh Hm Hsame.
  destruct (cn_live g Hcan m Hm) as [w Hw].
  assert (Hne : words <> []).
  { intros E. rewrite <- Hsame in Hw. apply Hh in Hw. rewrite E in Hw.
    now apply elem_of_nil in Hw. }
  destruct (longest_word words Hne) as (x & Hx & Hmax).
  destruct (rtc_walk (_root g) m) as (p & Hp & Hpne).
  { apply listed_reachable, elem_of_cons. now right. }
  assert (Hacc : accepts g (_root g) (p ++ x) = true).
  { rewrite (accepts_walk _ p m x Hp), <- Hsame. now apply Hh. }
  apply Hh, Hmax in Hacc. rewrite length_app in Hacc.
  destruct p as [|c p]; [|simpl in Hacc; lia].
  apply Hpne; [|reflexivity]. intros E.
  apply finished_root_fresh. now rewrite E.
Qed.

Lemma same_language_eq (words : list str) x y :
  holds g words ->
  x ∈ _root g :: _minimized_nodes g -> y ∈ _root g :: _minimized_nodes g ->
  (forall w, accepts g x w = accepts g y w) -> x = y.
Proof.
  intros Hh Hx Hy Hsame.
  apply elem_of_cons in Hx as [->|Hx]; apply elem_of_cons in Hy as [->|Hy].
  - reflexivity.
  - exfalso. apply (root_not_interned_language words y Hh Hy Hsame).
  - exfalso. apply (root_not_interned_language words x Hh Hx).
    intros w. symmetry. apply Hsame.
  - apply list_elem_of_lookup in Hx as [j1 Hj1].
    apply list_elem_of_lookup in Hy as [j2 Hj2].
    apply (interned_distinct_languages (length (_minimized_nodes g)) j1 j2);
      auto; eapply lookup_lt_Some; eauto.
Qed.

(** Two nodes with different languages are told apart by a word. *)
Lemma different_language_word x y :
  ~ (forall w, accepts g x w = accepts g y w) ->
  exists w, accepts g x w <> accepts g y w.
Proof.
  intros Hdiff.
  destruct (Forall_Exists_dec
              (fun w => accepts g x w = accepts g y w)
              (fun w => accepts g x w <> accepts g y w)
              (fun w => decide (accepts g x w = accepts g y w))
              (language g x ++ language g y)) as [Hall|Hex].
  - exfalso. apply Hdiff. intros w. rewrite Forall_forall in Hall.
    destruct (accepts g x w) eqn:Ex.
    + rewrite <- Ex. apply Hall, elem_of_app. left.
      now apply language_accepts.
    + destruct (accepts g y w) eqn:Ey; [|reflexivity].
      rewrite <- Ex, <- Ey. apply Hall, elem_of_app. right.
      now apply language_accepts.
  - apply Exists_exists in Hex as (w & _ & Hw). now exists w.
Qed.

End Finished.
(** ** The default distance is a metric *)

Lemma default_distance_edit (a b : str) :
  levenshtein_distance_default a b = Some (edit_distance a b).
Proof.
  unfold levenshtein_distance_default, edit_distance.
  rewrite levenshtein_distance_table.
  - unfold weighted_distance. now rewrite classic_dp_weighted.
  - lia.
  - intros y _. simpl. lia.
  - intros x _. simpl. lia.
Qed.

Section Classic.

Variables a b : str.

Lemma classic_0 j : classic_dp a b 0 j = Z.of_nat j.
Proof. reflexivity. Qed.

Lemma classic_S_0 i : classic_dp a b (S i) 0 = Z.of_nat (S i).
Proof. reflexivity. Qed.

Lemma classic_S_S i j :
  classic_dp a b (S i) (S j)
  = Z.min (classic_dp a b (S i) j + 1)
      (Z.min (classic_dp a b i (S j) + 1)
         (classic_dp a b i j
          + (if Ascii.eqb (nth i a Ascii.zero) (nth j b Ascii.zero)
             then 0 else 1))).
Proof. reflexivity. Qed.

Lemma classic_lower : forall i j : nat,
  Z.of_nat i - Z.of_nat j <= classic_dp a b i j /\
  Z.of_nat j - Z.of_nat i <= classic_dp a b i j.
Proof.
  induction i as [|i IHi]; [intros j; rewrite (classic_0 j); lia|].
  induction j as [|j IHj]; [rewrite (classic_S_0 i); lia|].
  rewrite (classic_S_S i j).
  pose proof (IHi j). pose proof (IHi (S j)).
  destruct (Ascii.eqb _ _); lia.
Qed.

Lemma classic_upper : forall i j : nat,
  classic_dp a b i j <= Z.max (Z.of_nat i) (Z.of_nat j).
Proof.
  induction i as [|i IHi]; [intros j; rewrite (classic_0 j); lia|].
  induction j as [|j IHj]; [rewrite (classic_S_0 i); lia|].
  rewrite (classic_S_S i j).
  pose proof (IHi j). pose proof (IHi (S j)).
  destruct (Ascii.eqb _ _); lia.
Qed.

Lemma classic_zero : forall i j : nat,
  classic_dp a b i j = 0 ->
  i = j /\ forall t, (t < i)%nat -> nth t a Ascii.zero = nth t b Ascii.zero.
Proof.
  induction i as [|i IHi].
  - intros j. rewrite (classic_0 j). intros H. split; [lia|].
    intros t Ht. lia.
  - induction j as [|j IHj]; [rewrite (classic_S_0 i); lia|].
    rewrite (classic_S_S i j). intros H.
    pose proof (classic_lower (S i) j). pose proof (classic_lower i (S j)).
    pose proof (classic_lower i j).
    destruct (Ascii.eqb_spec (nth i a Ascii.zero) (nth j b Ascii.zero))
      as [E|_]; [|lia].
    destruct (IHi j ltac:(lia)) as [-> Hnth]. split; [reflexivity|].
    intros t Ht. destruct (decide (t = j)) as [->|Hne]; [exact E|].
    apply Hnth. lia.
Qed.

End Classic.

Lemma classic_same a : forall i : nat, classic_dp a a i i = 0.
Proof.
  induction i as [|i IH]; [reflexivity|].
  rewrite (classic_S_S a a i i), IH, Ascii.eqb_refl.
  pose proof (classic_lower a a (S i) i). pose proof (classic_lower a a i (S i)).
  lia.
Qed.

Lemma edit_distance_zero a b : edit_distance a b = 0 <-> a = b.
Proof.
  unfold edit_distance. split.
  - intros H. apply classic_zero in H as [Hlen Hnth].
    apply (nth_ext _ _ Ascii.zero Ascii.zero Hlen Hnth).
  - intros ->. apply classic_same.
Qed.

(** The triangle inequality, cell by cell. *)
Lemma classic_triangle a b c : forall n i j k : nat,
  (i + j + k <= n)%nat ->
  classic_dp a c i k <= classic_dp a b i j + classic_dp b c j k.
Proof.
  induction n as [|n IH]; intros i j k Hn.
  - replace i with 0%nat by lia. replace j with 0%nat by lia.
    replace k with 0%nat by lia. cbn. lia.
  - destruct i as [|i].
    + rewrite (classic_0 a c k), (classic_0 a b j).
      pose proof (classic_lower b c j k). lia.
    + destruct k as [|k].
      * rewrite (classic_S_0 a c i). pose proof (classic_lower a b (S i) j).
        destruct j as [|j]; [rewrite (classic_0 b c 0); lia|].
        rewrite (classic_S_0 b c j). lia.
      * destruct j as [|j].
        -- rewrite (classic_S_0 a b i), (classic_0 b c (S k)).
           pose proof (classic_upper a c (S i) (S k)). lia.
        -- pose proof (IH i (S j) (S k) ltac:(lia)) as H1.
           pose proof (IH (S i) (S j) k ltac:(lia)) as H2.
           pose proof (IH (S i) j (S k) ltac:(lia)) as H3.
           pose proof (IH (S i) j k ltac:(lia)) as H4.
           pose proof (IH i j (S k) ltac:(lia)) as H5.
           pose proof (IH i j k ltac:(lia)) as H6.
           pose proof (classic_S_S a c i k) as E1.
           pose proof (classic_S_S a b i j) as E2.
           pose proof (classic_S_S b c j k) as E3.
           destruct (Ascii.eqb_spec (nth i a Ascii.zero) (nth k c Ascii.zero)),
             (Ascii.eqb_spec (nth i a Ascii.zero) (nth j b Ascii.zero)),
             (Ascii.eqb_spec (nth j b Ascii.zero) (nth k c Ascii.zero));
             try congruence; lia.
Qed.

Lemma edit_distance_triangle a b c :
  edit_distance a c <= edit_distance a b + edit_distance b c.
Proof.
  unfold edit_distance.
  apply (classic_triangle a b c (length a + length b + length c)). lia.
Qed.
(** ** What [display] prints *)

Lemma display_edges es : forall stack out,
  foldl display_edge (stack, out) es
  = (rev (map snd es) ++ stack,
     out ++ map (fun e => edge_line (fst e) (snd e)) es).
Proof.
  induction es as [|[l t] es IH]; intros stack out; cbn [foldl map rev].
  - now rewrite app_nil_r.
  - cbn [display_edge]. rewrite IH. cbn [fst snd].
    now rewrite <- !app_assoc.
Qed.

Lemma display_loop_spec g : forall fuel stack done out,
  (length stack + pending g done < fuel)%nat ->
  exists visited,
    display_loop fuel g stack done out
    = Some (out ++ flat_map (node_lines g) visited) /\
    NoDup visited /\
    (forall x, x ∈ visited -> x ∉ done) /\
    (forall x, x ∈ visited -> exists s, s ∈ stack /\ rtc (edge g) s x) /\
    (forall x, x ∈ stack -> x ∈ done \/ x ∈ visited) /\
    (forall x t, x ∈ visited -> edge g x t -> t ∈ done \/ t ∈ visited).
Proof.
  induction fuel as [|fuel IH]; intros stack done out Hfuel; [lia|].
  destruct stack as [|node stack]; cbn [display_loop].
  - exists []. cbn [flat_map]. rewrite app_nil_r.
    split; [reflexivity|]. split; [constructor|].
    split; [intros x H; now apply elem_of_nil in H|].
    split; [intros x H; now apply elem_of_nil in H|].
    split; [intros x H; now apply elem_of_nil in H|].
    intros x t H. now apply elem_of_nil in H.
  - case_bool_decide as Hdone.
    + destruct (IH stack done out) as (visited & E & Hnd & Hfresh & Hsound
                                       & Hcov & Hclosed).
      { cbn [length] in Hfuel. lia. }
      exists visited. repeat split; auto.
      * intros x Hx. destruct (Hsound x Hx) as (s & Hs & Hr).
        exists s. split; [apply elem_of_cons; now right | exact Hr].
      * intros x Hx. apply elem_of_cons in Hx as [->|Hx]; [now left|].
        now apply Hcov.
    + rewrite display_edges.
      set (es := edges (node_at g node)).
      destruct (IH (rev (map snd es) ++ stack) (node :: done)
                  ((out ++ [node_line g node])
                   ++ map (fun e => edge_line (fst e) (snd e)) es))
        as (visited & E & Hnd & Hfresh & Hsound & Hcov & Hclosed).
      { pose proof (pending_expand g node done Hdone). fold es in H.
        rewrite length_app, length_rev, length_map.
        cbn [length] in Hfuel. lia. }
      assert (Hnode : node ∉ visited).
      { intros H. apply (Hfresh node H). apply elem_of_cons. now left. }
      assert (Hchild : forall t, edge g node t ->
                                 t ∈ rev (map snd es) ++ stack).
      { intros t [l Hl]. apply elem_of_app. left.
        apply list_elem_of_In, (proj1 (in_rev _ _)).
        exact (in_map snd es (l, t) Hl). }
      assert (Hold : forall t, t ∈ node :: done \/ t ∈ visited ->
                               t ∈ done \/ t ∈ node :: visited).
      { intros t [Ht|Ht].
        - apply elem_of_cons in Ht as [->|Ht]; [right | now left].
          apply elem_of_cons. now left.
        - right. apply elem_of_cons. now right. }
      exists (node :: visited). split; [|repeat split].
      * rewrite E. f_equal. cbn [flat_map node_lines]. fold es.
        now rewrite <- !app_assoc.
      * apply NoDup_cons. now split.
      * intros x Hx. apply elem_of_cons in Hx as [->|Hx]; [exact Hdone|].
        intros Hd. apply (Hfresh x Hx). apply elem_of_cons. now right.
      * intros x Hx. apply elem_of_cons in Hx as [->|Hx].
        -- exists node. split; [apply elem_of_cons; now left | apply rtc_refl].
        -- destruct (Hsound x Hx) as (s & Hs & Hr).
           apply elem_of_app in Hs as [Hs|Hs].
           ++ exists node. split; [apply elem_of_cons; now left|].
              apply (rtc_l _ _ s); [|exact Hr].
              apply (proj1 (list_elem_of_In _ _)) in Hs.
              apply (proj2 (in_rev _ _)) in Hs.
              apply in_map_iff in Hs as ([l t] & <- & Hl). now exists l.
           ++ exists s. split; [apply elem_of_cons; now right | exact Hr].
      * intros x Hx. apply elem_of_cons in Hx as [->|Hx].
        -- right. apply elem_of_cons. now left.
        -- apply Hold, Hcov, elem_of_app. now right.
      * intros x t Hx He. apply elem_of_cons in Hx as [->|Hx].
        -- apply Hold, Hcov. now apply Hchild.
        -- now apply Hold, (Hclosed x).
Qed.
(** ** Inserting when no node is pending *)

Lemma minimize_nothing d g : _unchecked_nodes g = [] -> _minimize d g = g.
Proof.
  intros E. rewrite minimize_unfold, E. cbn [length].
  case_decide; [lia | reflexivity].
Qed.

Lemma last_cons {A} (l : list A) : forall a d,
  List.last (a :: l) d = List.last l a.
Proof.
  induction l as [|b l IH]; intros a d; [reflexivity|].
  change (List.last (a :: b :: l) d) with (List.last (b :: l) d).
  now rewrite !IH.
Qed.

Lemma increasing_last_above previous words :
  increasing previous words ->
  previous = List.last words previous \/
  str_lt previous (List.last words previous).
Proof.
  revert previous. induction words as [|a l IH]; intros previous;
    [now left|].
  intros [Hlt Hinc]. right. rewrite last_cons.
  destruct (IH a Hinc) as [<-|H]; [exact Hlt|].
  now apply (str_lt_trans previous a).
Qed.

Lemma increasing_last previous words :
  increasing previous words ->
  forall w, w ∈ words ->
    w = List.last words previous \/ str_lt w (List.last words previous).
Proof.
  revert previous. induction words as [|a l IH]; intros previous Hinc w Hw.
  - now apply elem_of_nil in Hw.
  - destruct Hinc as [Hlt Hinc]. rewrite last_cons.
    apply elem_of_cons in Hw as [->|Hw].
    + now apply increasing_last_above.
    + now apply IH.
Qed.

Lemma insert_all_previous words : forall g g',
  insert_all words g = Returned g' ->
  _previous_word g' = List.last words (_previous_word g).
Proof.
  induction words as [|word rest IH]; intros g g'; cbn [insert_all].
  - now intros [= <-].
  - destruct (insert word g) as [g1|] eqn:Hins; [|discriminate].
    intros H. rewrite last_cons, (IH g1 g' H).
    now rewrite (insert_previous_word word g g1 Hins).
Qed.

(** A word above the previous word of a finished dictionary is none of
    its words. *)
Lemma build_above words g word :
  build words = Returned g -> str_lt (_previous_word g) word ->
  word ∉ words.
Proof.
  intros Hb Hlt Hin.
  assert (Hinc : increasing [] words) by (apply build_returns; now exists g).
  unfold build in Hb.
  destruct (insert_all words Dawg_new) as [g0|] eqn:E; [|discriminate].
  injection Hb as <-.
  unfold finish in Hlt. destruct (minimize_fields 0 g0) as (_ & _ & Hp & _).
  rewrite Hp, (insert_all_previous words Dawg_new g0 E) in Hlt.
  cbn [_previous_word Dawg_new] in Hlt.
  destruct (increasing_last [] words Hinc word Hin) as [E1|H1].
  - rewrite <- E1 in Hlt. now apply (str_lt_irrefl word).
  - apply (str_lt_irrefl word).
    now apply (str_lt_trans word (List.last words []) word).
Qed.

Lemma rank_root g :
  shape_inv g ->
  rank g (_root g)
  = (length (_minimized_nodes g) + 1 + length (_unchecked_nodes g))%nat.
Proof.
  intros Hinv. unfold rank.
  destruct (index_of (_root g) (_minimized_nodes g)) as [j|] eqn:E.
  - exfalso. apply index_of_Some in E.
    apply (sh_chain g Hinv (_root g)).
    + apply elem_of_cons. now left.
    + eapply list_elem_of_lookup_2. exact E.
  - unfold chain. cbn [index_of]. rewrite Nat.eqb_refl. lia.
Qed.

Lemma no_edge_to_root g x l :
  shape_inv g -> (l, _root g) ∉ edges (node_at g x).
Proof.
  intros Hinv Hl. pose proof (edge_rank g x l (_root g) Hinv Hl) as H.
  rewrite (rank_root g Hinv) in H. pose proof (rank_bound g x). lia.
Qed.

(** What [add_suffix] changes: the node it starts from gets one edge, and
    every other node it touches is new. *)
Lemma add_suffix_frame suffix : forall g node,
  (node < length (nodes g))%nat ->
  let r := add_suffix suffix node g in
  (length (nodes g) <= length (nodes r.2))%nat /\
  (r.1 < length (nodes r.2))%nat /\
  (suffix <> [] -> (length (nodes g) <= r.1)%nat) /\
  (forall x, (x < length (nodes g))%nat -> x <> node ->
             node_at r.2 x = node_at g x) /\
  final (node_at r.2 node) = final (node_at g node) /\
  edges (node_at r.2 node)
  = match suffix with
    | [] => edges (node_at g node)
    | c :: _ => edges_set c (length (nodes g)) (edges (node_at g node))
    end.
Proof.
  induction suffix as [|c rest IH]; intros g node Hlt; cbn [add_suffix].
  - cbn [fst snd]. repeat split; auto. congruence.
  - pose proof (length_nodes_add_node g node c) as Hlen1.
    destruct (IH (add_node node c g) (length (nodes g)) ltac:(lia))
      as (H1 & H2 & H3 & H4 & H5 & H6).
    assert (Hnode : node_at (add_suffix rest (length (nodes g))
                               (add_node node c g)).2 node
                    = {| final := final (node_at g node);
                         edges := edges_set c (length (nodes g))
                                    (edges (node_at g node)) |}).
    { rewrite H4 by lia. rewrite node_at_add_node by exact Hlt.
      now rewrite bool_decide_true. }
    split; [lia|]. split; [exact H2|]. split; [|split; [|split]].
    + intros _. destruct rest as [|c' rest]; [cbn; lia|].
      specialize (H3 ltac:(discriminate)). lia.
    + intros x Hx Hne. rewrite H4 by lia.
      rewrite node_at_add_node by exact Hlt.
      now rewrite bool_decide_false.
    + now rewrite Hnode.
    + now rewrite Hnode.
Qed.

Lemma add_suffix_root suffix : forall g node,
  _root (add_suffix suffix node g).2 = _root g.
Proof.
  induction suffix as [|c rest IH]; intros g node; cbn [add_suffix];
    [reflexivity|].
  now rewrite IH.
Qed.

Lemma node_at_set_final g last x :
  x <> last -> node_at (set_final last g) x = node_at g x.
Proof.
  intros Hne. unfold node_at, set_final. cbn [nodes]. rewrite node_alter.
  rewrite bool_decide_false; [reflexivity | intros [? _]; contradiction].
Qed.

Lemma node_at_set_final_last g last :
  (last < length (nodes g))%nat ->
  node_at (set_final last g) last
  = {| final := true; edges := edges (node_at g last) |}.
Proof.
  intros Hlt. unfold node_at, set_final. cbn [nodes]. rewrite node_alter.
  now rewrite bool_decide_true.
Qed.

(** The words accepted from the first node of a branch added to a new
    node: the suffix, and nothing else. *)
Lemma fresh_chain_language suffix : forall g n,
  (n < length (nodes g))%nat -> node_at g n = new_node ->
  let r := add_suffix suffix n g in
  forall w, accepts (set_final r.1 r.2) n w = true <-> w = suffix.
Proof.
  induction suffix as [|c rest IH]; intros g n Hlt Hnew; cbn [add_suffix].
  - cbn [fst snd]. intros w.
    pose proof (node_at_set_final_last g n Hlt) as Hn. rewrite Hnew in Hn.
    destruct w as [|c w].
    + rewrite accepts_nil, Hn. cbn. tauto.
    + rewrite accepts_cons, Hn. cbn. split; discriminate.
  - pose proof (length_nodes_add_node g n c) as Hlen1.
    assert (Hnew1 : node_at (add_node n c g) (length (nodes g)) = new_node).
    { rewrite node_at_add_node by exact Hlt.
      rewrite bool_decide_false by lia.
      unfold node_at. now rewrite lookup_ge_None_2. }
    specialize (IH (add_node n c g) (length (nodes g)) ltac:(lia) Hnew1).
    destruct (add_suffix_frame rest (add_node n c g) (length (nodes g))
                ltac:(lia)) as (_ & _ & H3 & H4 & _).
    set (r := add_suffix rest (length (nodes g)) (add_node n c g)) in *.
    assert (Hlast : (length (nodes g) <= r.1)%nat).
    { destruct rest as [|c' rest]; [cbn; lia|].
      specialize (H3 ltac:(discriminate)). lia. }
    assert (Hn : node_at (set_final r.1 r.2) n
                 = {| final := false; edges := [(c, length (nodes g))] |}).
    { rewrite node_at_set_final by lia. rewrite H4 by lia.
      rewrite node_at_add_node by exact Hlt.
      rewrite bool_decide_true by reflexivity. now rewrite Hnew. }
    cbv zeta in IH. intros w. destruct w as [|c' w].
    + rewrite accepts_nil, Hn. cbn. split; discriminate.
    + rewrite accepts_cons, Hn. cbn [edges edges_get].
      destruct (Ascii.eqb_spec c c') as [<-|Hne].
      * rewrite IH. split; [now intros -> | now intros [= ->]].
      * split; [discriminate | intros [= E _]; congruence].
Qed.

(** The words accepted from the nodes that are left alone. *)
Lemma old_language g G :
  shape_inv g ->
  (forall x, (x < length (nodes g))%nat -> x <> _root g ->
             node_at G x = node_at g x) ->
  forall w t, (t < length (nodes g))%nat -> t <> _root g ->
              accepts G t w = accepts g t w.
Proof.
  intros Hinv Hsame. induction w as [|c w IH]; intros t Ht Hne.
  - now rewrite !accepts_nil, Hsame.
  - rewrite !accepts_cons, Hsame by assumption.
    destruct (edges_get c (edges (node_at g t))) as [t'|] eqn:E;
      [|reflexivity].
    apply edges_get_Some_elem in E. apply IH.
    + now apply (sh_targets g Hinv t c).
    + intros ->. now apply (no_edge_to_root g t c Hinv).
Qed.

Lemma insert_unpending word g g' :
  shape_inv g -> _unchecked_nodes g = [] -> insert word g = Returned g' ->
  exists c0 s',
    drop (common_prefix word (_previous_word g)) word = c0 :: s' /\
    _root g' = _root g /\
    forall w,
      accepts g' (_root g) w
      = match w with
        | [] => accepts g (_root g) []
        | c :: w' =>
            if Ascii.eqb c0 c then bool_decide (w' = s')
            else accepts g (_root g) w
        end.
Proof.
  intros Hinv Hdone. unfold insert.
  destruct (str_leb word (_previous_word g)) eqn:Hleb; [discriminate|].
  apply str_leb_false in Hleb.
  destruct (common_prefix_spec _ _ Hleb) as (_ & Hcp & _).
  set (cp := common_prefix word (_previous_word g)) in *.
  rewrite (minimize_nothing cp g Hdone), Hdone. cbn [last].
  destruct (drop cp word) as [|c0 s'] eqn:Hdrop.
  { apply (f_equal length) in Hdrop. rewrite length_drop in Hdrop.
    cbn in Hdrop. lia. }
  pose proof (sh_root g Hinv) as Hroot.
  cbn [add_suffix].
  pose proof (length_nodes_add_node g (_root g) c0) as Hlen1.
  assert (Hnew1 : node_at (add_node (_root g) c0 g) (length (nodes g))
                  = new_node).
  { rewrite node_at_add_node by exact Hroot.
    rewrite bool_decide_false by lia.
    unfold node_at. now rewrite lookup_ge_None_2. }
  pose proof (fresh_chain_language s' (add_node (_root g) c0 g)
                (length (nodes g)) ltac:(lia) Hnew1) as Hchain.
  destruct (add_suffix_frame s' (add_node (_root g) c0 g) (length (nodes g))
              ltac:(lia)) as (_ & _ & H3 & H4 & _).
  pose proof (add_suffix_root s' (add_node (_root g) c0 g)
                (length (nodes g))) as Hrt2.
  change (_root (add_node (_root g) c0 g)) with (_root g) in Hrt2.
  destruct (add_suffix s' (length (nodes g)) (add_node (_root g) c0 g))
    as [last g2] eqn:Hr.
  cbn [fst snd] in *. cbv zeta in Hchain.
  assert (Hlast : (length (nodes g) <= last)%nat).
  { destruct s' as [|c' s']; [cbn in Hr; injection Hr as <- _; lia|].
    specialize (H3 ltac:(discriminate)). lia. }
  intros [= <-]. exists c0, s'. split; [reflexivity|].
  split; [exact Hrt2|].
  match goal with |- forall w, accepts ?G _ _ = _ => set (G' := G) end.
  assert (HG : forall w x, accepts G' x w = accepts (set_final last g2) x w).
  { apply accepts_ext. reflexivity. }
  assert (Hold : forall x, (x < length (nodes g))%nat -> x <> _root g ->
                           node_at (set_final last g2) x = node_at g x).
  { intros x Hx Hne. rewrite node_at_set_final by lia. rewrite H4 by lia.
    rewrite node_at_add_node by exact Hroot.
    now rewrite bool_decide_false. }
  assert (Hrt : node_at (set_final last g2) (_root g)
                = {| final := final (node_at g (_root g));
                     edges := edges_set c0 (length (nodes g))
                                (edges (node_at g (_root g))) |}).
  { rewrite node_at_set_final by lia. rewrite H4 by lia.
    rewrite node_at_add_node by exact Hroot.
    now rewrite bool_decide_true. }
  intros w. rewrite HG. destruct w as [|c w].
  - now rewrite !accepts_nil, Hrt.
  - rewrite accepts_cons, Hrt. cbn [edges]. rewrite edges_get_set.
    destruct (Ascii.eqb_spec c0 c) as [<-|Hne].
    + destruct (bool_decide_reflect (w = s')) as [Hw|Hw].
      * now apply Hchain.
      * destruct (accepts _ _ w) eqn:E; [|reflexivity].
        apply Hchain in E. contradiction.
    + rewrite accepts_cons.
      destruct (edges_get c (edges (node_at g (_root g)))) as [t|] eqn:E;
        [|reflexivity].
      apply edges_get_Some_elem in E.
      apply (old_language g _ Hinv Hold).
      * now apply (sh_targets g Hinv (_root g) c).
      * intros ->. now apply (no_edge_to_root g (_root g) c Hinv).
Qed.

Lemma insert_returned_above word g g' :
  insert word g = Returned g' -> str_lt (_previous_word g) word.
Proof.
  intros H. destruct (str_compare (_previous_word g) word) eqn:C;
    try (assert (Hr : insert word g = Raised OrderingViolation);
         [apply insert_raises; intros Hlt; apply str_compare_lt in Hlt;
          congruence
         |congruence]).
  now apply str_compare_lt.
Qed.
(** * Further properties of the automaton, the builder and the search *)

(** X1: when every insertion and every deletion costs 1, no replacement
    costs less than 0 and the budget is not negative, the state the
    automaton reaches on [text] holds exactly the cells of the last column
    of the table of the pattern and [text] that are within the budget:
    position [i - 1] holds [D[i][len(text)]], in ascending order of the
    positions, and no other position is present. *)
Theorem run_unit_costs (self : SparseLevenshteinAutomaton) (text : str) :
  (forall c, _icost self c = 1) ->
  (forall c, _dcost self c = 1) ->
  (forall x y, 0 <= _rcost self x y) ->
  0 <= _d self ->
  run self text
  = band (fun i => lev_dp (_icost self) (_dcost self) (_rcost self)
                     (_str self) text i (length text))
      (_d self) (S (length (_str self))).
Proof. intros Hi Hd Hr Hb. now apply run_band_all. Qed.

Lemma run_unit_costs_witness :
  run (new_automaton (chars "abc") 1 CostNone CostNone CostNone) (chars "ab")
  = [(0, 1); (1, 0); (2, 1)].
Proof.
  rewrite (run_unit_costs
             (new_automaton (chars "abc") 1 CostNone CostNone CostNone)
             (chars "ab")).
  - vm_compute. reflexivity.
  - intros c. reflexivity.
  - intros c. reflexivity.
  - apply default_replace_nonneg.
  - simpl. lia.
Defined.

(** X2: with the default costs, and whatever the budget, [is_match] holds
    of the state reached on [text] exactly when the classical edit distance
    between the pattern and [text] is at most the budget. *)
Theorem is_match_default_distance (query text : str) (d : Z) :
  let self := new_automaton query d CostNone CostNone CostNone in
  is_match self (run self text) = true <-> edit_distance query text <= d.
Proof.
  intros self. destruct (Z.le_gt_cases 0 d) as [Hd|Hd].
  - rewrite (is_match_dist self default_unit default_unit
               default_replace_nonneg Hd text).
    unfold edit_distance. rewrite classic_dp_weighted. apply Z.leb_le.
  - rewrite (is_match_negative self default_unit default_unit
               default_replace_nonneg Hd text).
    pose proof (edit_distance_nonneg query text).
    split; [discriminate | lia].
Qed.

(** X3: whatever the costs, once [can_match] is false of the state reached
    on a text it stays false on every longer text, and [is_match] is false
    there: a branch the search gives up holds no match the automaton would
    report. *)
Theorem can_match_false_forever (self : SparseLevenshteinAutomaton)
    (word suffix : str) :
  can_match (run self word) = false ->
  can_match (run self (word ++ suffix)) = false /\
  is_match self (run self (word ++ suffix)) = false.
Proof.
  intros H. apply can_match_false in H.
  rewrite (run_dead self word suffix H). split; [reflexivity|].
  apply is_match_nil.
Qed.

Lemma can_match_false_forever_witness :
  can_match (run (new_automaton (chars "ab") 0 CostNone CostNone CostNone)
               (chars "x" ++ chars "ab")) = false /\
  is_match (new_automaton (chars "ab") 0 CostNone CostNone CostNone)
    (run (new_automaton (chars "ab") 0 CostNone CostNone CostNone)
       (chars "x" ++ chars "ab")) = false.
Proof.
  apply (can_match_false_forever
           (new_automaton (chars "ab") 0 CostNone CostNone CostNone)
           (chars "x") (chars "ab")).
  vm_compute. reflexivity.
Defined.

(** X4: with the default costs and a budget that is not negative,
    [can_match] holds of the state reached on [text] exactly when some
    continuation of [text] is within the budget of the pattern: the search
    gives up a branch only when no word below it can match, and goes on
    only when some string below it would. *)
Theorem can_match_default_continuation (query text : str) (d : Z) :
  0 <= d ->
  let self := new_automaton query d CostNone CostNone CostNone in
  can_match (run self text) = true <->
  exists rest, edit_distance query (text ++ rest) <= d.
Proof.
  intros Hd self.
  rewrite (can_match_dist self default_unit default_unit
             default_replace_nonneg default_replace_same Hd text).
  split; intros [v Hv]; exists v; revert Hv; unfold edit_distance;
    rewrite classic_dp_weighted; exact id.
Qed.

Lemma can_match_default_continuation_witness :
  can_match (run (new_automaton (chars "abc") 1 CostNone CostNone CostNone)
               (chars "xb")) = true <->
  exists rest, edit_distance (chars "abc") (chars "xb" ++ rest) <= 1.
Proof.
  apply (can_match_default_continuation (chars "abc") (chars "xb") 1). lia.
Defined.

(** X5: with integer costs ([max_cost] and every value of a cost table or
    cost function a Python [int]), [levenshtein_distance] returns (it does
    not fail on its final lookup) the last cell of the weighted table,
    deleting a character [x] of [from_str] at [delete_cost] of [x],
    inserting a character [y] of [to_str] at [insert_cost] of [y] and
    replacing [x] by [y] at [replace_cost] of [(y, x)], whenever [max_cost]
    is not negative and bounds the cost of every insertion and deletion the
    two strings allow. *)
Theorem levenshtein_distance_weighted (from_str to_str : str) (max_cost : Z)
    (insert_cost delete_cost : cost_arg ascii)
    (replace_cost : cost_arg (ascii * ascii)) :
  0 <= max_cost ->
  (forall y, In y to_str -> unary_cost insert_cost y <= max_cost) ->
  (forall x, In x from_str -> unary_cost delete_cost x <= max_cost) ->
  levenshtein_distance from_str to_str max_cost insert_cost delete_cost
    replace_cost
  = Some (weighted_distance (unary_cost insert_cost) (unary_cost delete_cost)
            (replace_cost_fun replace_cost) from_str to_str).
Proof. apply levenshtein_distance_table. Qed.

Lemma levenshtein_distance_weighted_witness :
  levenshtein_distance (chars "cd") (chars "abcd") 3
    (CostTable [("a"%char, 3); ("b"%char, 3); ("c"%char, 3); ("d"%char, 3)])
    CostNone CostNone
  = Some 6.
Proof.
  rewrite (levenshtein_distance_weighted (chars "cd") (chars "abcd") 3).
  - vm_compute. reflexivity.
  - lia.
  - intros y [<-|[<-|[<-|[<-|[]]]]]; vm_compute; discriminate.
  - intros x [<-|[<-|[]]]; vm_compute; discriminate.
Defined.

(** X6: a dictionary built from a list of words and finished accepts,
    from its root, exactly the words of the list: following the labels of a
    string from the root ends in a final node if and only if the string was
    inserted. *)
Theorem build_accepts_inserted (words : list str) (g : Dawg) :
  build words = Returned g ->
  forall w, accepts g (_root g) w = true <-> w ∈ words.
Proof. intros Hb. now destruct (build_spec words g Hb) as [_ Hh]. Qed.

Lemma build_accepts_inserted_witness :
  let g := finish (match insert_all [chars "ab"; chars "bb"] Dawg_new with
                   | Returned g => g
                   | Raised _ => Dawg_new
                   end) in
  accepts g (_root g) (chars "bb") = true <->
  chars "bb" ∈ [chars "ab"; chars "bb"].
Proof.
  apply (build_accepts_inserted [chars "ab"; chars "bb"]).
  vm_compute. reflexivity.
Defined.

(** X7: inserting a list of words into a fresh builder and finishing it
    succeeds exactly when the list is strictly ascending and does not start
    with the empty string; otherwise one of the calls of [insert] raises. *)
Theorem build_returns_iff_ascending (words : list str) :
  (exists g, build words = Returned g) <-> increasing [] words.
Proof. apply build_returns. Qed.

(** X8: [_minimize(down_to)] leaves the first [down_to] unchecked entries
    and removes all the others; it changes neither the root, nor the
    previous word, nor the number of node objects. *)
Theorem minimize_truncates (down_to : nat) (g : Dawg) :
  _unchecked_nodes (_minimize down_to g) = take down_to (_unchecked_nodes g) /\
  _root (_minimize down_to g) = _root g /\
  _previous_word (_minimize down_to g) = _previous_word g /\
  length (nodes (_minimize down_to g)) = length (nodes g).
Proof. apply minimize_fields. Qed.

(** X9: in every state of the builder reached by successful inserts and by
    [finish], a run of [_minimize] changes the words accepted from no
    node: merging a node into an interned one keeps the language of its
    parent, and of every other node. *)
Theorem minimize_keeps_language (down_to : nat) (g : Dawg) :
  reachable g ->
  forall w x, accepts (_minimize down_to g) x w = accepts g x w.
Proof. intros Hr. apply accepts_minimize. now apply reachable_shape. Qed.

Lemma minimize_keeps_language_witness :
  let g := match insert_all [chars "ab"; chars "bb"] Dawg_new with
           | Returned g => g
           | Raised _ => Dawg_new
           end in
  accepts (_minimize 0 g) (_root g) (chars "bb")
  = accepts g (_root g) (chars "bb").
Proof.
  apply (minimize_keeps_language 0).
  apply (insert_all_reachable [chars "ab"; chars "bb"] Dawg_new);
    [apply reachable_new | vm_compute; reflexivity].
Defined.

(** X10: a node that is a key of [_minimized_nodes] is never modified
    afterwards: after a successful [insert] and after [finish] it is still
    a key and has the same [final] flag and the same edges, so the hash
    under which the dictionary stored it stays valid. *)
Theorem minimized_keys_unchanged (g : Dawg) :
  reachable g ->
  (forall word g', insert word g = Returned g' -> keeps_interned g g') /\
  keeps_interned g (finish g).
Proof.
  intros Hr. apply reachable_shape in Hr. split.
  - intros word g'. now apply frozen_insert.
  - now apply frozen_minimize.
Qed.

Lemma minimized_keys_unchanged_witness :
  let g := match insert_all [chars "ab"; chars "bb"] Dawg_new with
           | Returned g => g
           | Raised _ => Dawg_new
           end in
  (forall word g', insert word g = Returned g' -> keeps_interned g g') /\
  keeps_interned g (finish g).
Proof.
  apply minimized_keys_unchanged.
  apply (insert_all_reachable [chars "ab"; chars "bb"] Dawg_new);
    [apply reachable_new | vm_compute; reflexivity].
Defined.

(** X11: two nodes are equal for [__eq__] (their [__str__] renderings are
    the same string, which also gives them the same hash) exactly when they
    have the same [final] flag and the same edges: the same labels, to
    children with the same [_id], in the same order. *)
Theorem node_eq_iff_same_fields (n1 n2 : DawgNode) :
  node_eqb n1 n2 = true <-> n1 = n2.
Proof.
  unfold node_eqb. rewrite bool_decide_eq_true. split.
  - apply node_str_inj.
  - now intros ->.
Qed.

(** X12: the search returns on every graph, cyclic or not and whatever the
    costs and the budget: a node is expanded at most once, so the stack
    empties. *)
Theorem levenshtein_search_terminates (g : Dawg) (query : str)
    (max_distance : Z) (icost dcost : cost_arg ascii)
    (rcost : cost_arg (ascii * ascii)) :
  exists r,
    levenshtein_search g query max_distance icost dcost rcost = Some r.
Proof.
  unfold levenshtein_search. apply search_loop_ends.
  unfold search_fuel. simpl. lia.
Qed.

(** X13: reading [count] on the root of a finished dictionary, as
    [finish] does, returns the number of inserted words (the number of
    paths from the root to a final node, not the number of final nodes)
    and assigns it to the [_count] of the root; the recursion is never
    deeper than the number of interned nodes plus two, and every [_count]
    it assigns to a node is the number of words accepted from that node. *)
Theorem finish_count_is_number_of_words (words : list str) (g : Dawg)
    (fuel : nat) :
  build words = Returned g ->
  (length (_minimized_nodes g) + 1 < fuel)%nat ->
  exists cs,
    count fuel g (_root g) no_counts = Some (Z.of_nat (length words), cs) /\
    cs (_root g) = Z.of_nat (length words) /\
    forall y (l : list str),
      cs y <> 0 -> NoDup l -> (forall w, w ∈ l <-> accepts g y w = true) ->
      cs y = Z.of_nat (length l).
Proof.
  intros Hb Hfuel. destruct (build_spec words g Hb) as [Hinv Hh].
  assert (Hnd : NoDup words).
  { apply (increasing_NoDup []), build_returns. now exists g. }
  pose proof (rank_bound g (_root g)) as Hrank.
  rewrite (build_unchecked words g Hb) in Hrank. cbn [length] in Hrank.
  destruct (count_language g Hinv fuel (_root g) no_counts)
    as (cs & E & Hcs); [lia | apply counts_ok_none|].
  rewrite (language_length g Hinv (_root g) words Hnd) in E
    by (intros w; symmetry; apply Hh).
  exists cs. split; [exact E|]. split.
  - now apply (count_assigns fuel g (_root g) no_counts).
  - intros y l Hy Hl Hacc. rewrite (Hcs y Hy). f_equal.
    now apply language_length.
Qed.

Lemma finish_count_is_number_of_words_witness :
  let g := finish (match insert_all [chars "ab"; chars "bb"] Dawg_new with
                   | Returned g => g
                   | Raised _ => Dawg_new
                   end) in
  exists cs,
    count 5 g (_root g) no_counts = Some (2, cs) /\
    cs (_root g) = 2 /\
    forall y (l : list str),
      cs y <> 0 -> NoDup l -> (forall w, w ∈ l <-> accepts g y w = true) ->
      cs y = Z.of_nat (length l).
Proof.
  intros g.
  apply (finish_count_is_number_of_words [chars "ab"; chars "bb"] g 5).
  - vm_compute. reflexivity.
  - vm_compute. lia.
Defined.

(** X14: in a finished dictionary the root and the keys of
    [_minimized_nodes] are, without repetition, exactly the nodes that can
    be reached from the root: [node_count] is the number of nodes
    reachable from the root, and [edge_count] the number of edges that
    leave them. *)
Theorem node_count_edge_count_reachable (words : list str) (g : Dawg) :
  build words = Returned g ->
  exists l : list nat,
    NoDup l /\
    (forall x, x ∈ l <-> rtc (edge g) (_root g) x) /\
    node_count g = Z.of_nat (length l) /\
    edge_count g
    = Z.of_nat (sum_list (map (fun x => length (edges (node_at g x))) l)).
Proof.
  intros Hb. destruct (build_spec words g Hb) as [Hinv _].
  pose proof (build_canonical words g Hb) as Hcan.
  pose proof (build_unchecked words g Hb) as Hdone.
  exists (_root g :: _minimized_nodes g). split; [|split; [|split]].
  - now apply finished_nodes_NoDup.
  - intros x. split.
    + now apply listed_reachable.
    + now apply reachable_listed.
  - unfold node_count. cbn [length]. lia.
  - now apply edge_count_sum.
Qed.

Lemma node_count_edge_count_reachable_witness :
  let g := finish (match insert_all [chars "ab"; chars "bb"] Dawg_new with
                   | Returned g => g
                   | Raised _ => Dawg_new
                   end) in
  exists l : list nat,
    NoDup l /\
    (forall x, x ∈ l <-> rtc (edge g) (_root g) x) /\
    node_count g = Z.of_nat (length l) /\
    edge_count g
    = Z.of_nat (sum_list (map (fun x => length (edges (node_at g x))) l)).
Proof.
  apply (node_count_edge_count_reachable [chars "ab"; chars "bb"]).
  vm_compute. reflexivity.
Defined.

(** X15: a finished dictionary is minimal: any two different nodes that
    can be reached from the root are told apart by some word, which is
    accepted from one of them and not from the other. *)
Theorem finished_dictionary_minimal (words : list str) (g : Dawg)
    (x y : nat) :
  build words = Returned g ->
  rtc (edge g) (_root g) x -> rtc (edge g) (_root g) y -> x <> y ->
  exists w, accepts g x w <> accepts g y w.
Proof.
  intros Hb Hx Hy Hne. destruct (build_spec words g Hb) as [Hinv Hh].
  pose proof (build_canonical words g Hb) as Hcan.
  pose proof (build_unchecked words g Hb) as Hdone.
  apply (different_language_word g Hinv). intros Hsame. apply Hne.
  apply (same_language_eq g Hinv Hcan Hdone words); auto;
    now apply reachable_listed.
Qed.

Lemma finished_dictionary_minimal_witness :
  let g := finish (match insert_all [chars "ab"; chars "bb"] Dawg_new with
                   | Returned g => g
                   | Raised _ => Dawg_new
                   end) in
  exists w, accepts g 0%nat w <> accepts g 1%nat w.
Proof.
  intros g.
  apply (finished_dictionary_minimal [chars "ab"; chars "bb"] g 0 1).
  - vm_compute. reflexivity.
  - apply rtc_refl.
  - apply rtc_once. exists "a"%char. vm_compute. left. reflexivity.
  - discriminate.
Defined.

(** X16: with the default costs, [levenshtein_distance] returns 0 exactly
    when the two strings are the same string. *)
Theorem levenshtein_distance_default_zero (a b : str) :
  levenshtein_distance_default a b = Some 0 <-> a = b.
Proof.
  rewrite default_distance_edit. split.
  - intros [= H]. now apply edit_distance_zero.
  - intros ->. f_equal. now apply edit_distance_zero.
Qed.

(** X17: with the default costs, the three calls of
    [levenshtein_distance] on the pairs of three strings return, and the
    distances obey the triangle inequality: going from [a] to [c] costs no
    more than going from [a] to [b] and then from [b] to [c]. *)
Theorem levenshtein_distance_default_triangle (a b c : str) :
  exists dab dbc dac,
    levenshtein_distance_default a b = Some dab /\
    levenshtein_distance_default b c = Some dbc /\
    levenshtein_distance_default a c = Some dac /\
    dac <= dab + dbc.
Proof.
  exists (edit_distance a b), (edit_distance b c), (edit_distance a c).
  rewrite !default_distance_edit. repeat split.
  apply edit_distance_triangle.
Qed.

(** X18: with the default costs, [levenshtein_distance] returns a distance
    that is at least the difference of the two lengths and at most the
    greater of the two lengths. *)
Theorem levenshtein_distance_default_bounds (a b : str) :
  exists d,
    levenshtein_distance_default a b = Some d /\
    Z.abs (len a - len b) <= d <= Z.max (len a) (len b).
Proof.
  exists (edit_distance a b). split; [apply default_distance_edit|].
  unfold edit_distance, len.
  pose proof (classic_lower a b (length a) (length b)).
  pose proof (classic_upper a b (length a) (length b)). lia.
Qed.

(** X19: on every graph, cyclic or not, [display] returns, and it prints
    every node that can be reached from the root exactly once and no
    other node: its output is, for these nodes in some order without
    repetition, the line of the node followed by one line for each of its
    edges, in the order of the edges. *)
Theorem display_prints_reachable (g : Dawg) :
  exists order,
    display g = Some (flat_map (node_lines g) order) /\
    NoDup order /\
    forall x, x ∈ order <-> rtc (edge g) (_root g) x.
Proof.
  destruct (display_loop_spec g (search_fuel g) [_root g] [] [])
    as (visited & E & Hnd & _ & Hsound & Hcov & Hclosed).
  { unfold search_fuel. simpl. lia. }
  exists visited. split; [exact E|]. split; [exact Hnd|].
  intros x. split.
  - intros Hx. destruct (Hsound x Hx) as (s & Hs & Hr).
    apply list_elem_of_singleton in Hs as ->. exact Hr.
  - revert x. apply (rtc_ind_r (fun z => z ∈ visited) (_root g)).
    + destruct (Hcov (_root g)) as [H|H];
        [now apply list_elem_of_singleton | now apply elem_of_nil in H
        | exact H].
    + intros y z _ He Hy. destruct (Hclosed y z Hy He) as [H|H];
        [now apply elem_of_nil in H | exact H].
Qed.

(** X20: with the default costs and any [max_cost],
    [levenshtein_distance] returns the classical edit distance when that
    distance is at most [(len(from_str) + len(to_str)) * max_cost], and
    fails on its final lookup (a [KeyError]) otherwise.  So it returns for
    every [max_cost] from 1 on, and with [max_cost = 0] it returns (0)
    only when the two strings are equal. *)
Theorem levenshtein_distance_max_cost (from_str to_str : str) (max_cost : Z) :
  levenshtein_distance from_str to_str max_cost CostNone CostNone CostNone
  = (if edit_distance from_str to_str <=? (len from_str + len to_str) * max_cost
     then Some (edit_distance from_str to_str) else None) /\
  (1 <= max_cost ->
   levenshtein_distance from_str to_str max_cost CostNone CostNone CostNone
   = Some (edit_distance from_str to_str)) /\
  (levenshtein_distance from_str to_str 0 CostNone CostNone CostNone
   = if bool_decide (from_str = to_str) then Some 0 else None).
Proof.
  split; [apply default_distance_max_cost|]. split.
  - intros Hmc. rewrite default_distance_max_cost.
    pose proof (classic_upper from_str to_str (length from_str)
                  (length to_str)) as Hup.
    fold (edit_distance from_str to_str) in Hup.
    destruct (Z.leb_spec (edit_distance from_str to_str)
                ((len from_str + len to_str) * max_cost)) as [_|Hgt];
      [reflexivity|].
    unfold len in Hgt. nia.
  - rewrite default_distance_max_cost, Z.mul_0_r.
    pose proof (edit_distance_nonneg from_str to_str) as Hnn.
    pose proof (edit_distance_zero from_str to_str) as Hz.
    case_bool_decide as Heq.
    + apply Hz in Heq. rewrite Heq. reflexivity.
    + destruct (Z.leb_spec (edit_distance from_str to_str) 0) as [Hle|_];
        [|reflexivity].
      exfalso. apply Heq, Hz. lia.
Qed.

(** X21: [insert] on a finished dictionary does not add the word it is
    given.  No node is pending after [finish], so the part of the word that
    follows its common prefix with the previous word is attached to the
    root: the dictionary then accepts that part, and, when the common
    prefix is not empty, it does not accept the word itself. *)
Theorem insert_after_finish (words : list str) (g : Dawg) (word : str)
    (g' : Dawg) :
  build words = Returned g -> insert word g = Returned g' ->
  let cp := common_prefix word (_previous_word g) in
  accepts g' (_root g') (drop cp word) = true /\
  ((0 < cp)%nat -> accepts g' (_root g') word = false).
Proof.
  intros Hb Hins cp. destruct (build_spec words g Hb) as [Hinv Hh].
  pose proof (build_unchecked words g Hb) as Hdone.
  pose proof (insert_returned_above word g g' Hins) as Hlt.
  destruct (insert_unpending word g g' Hinv Hdone Hins)
    as (c0 & s' & Hdrop & Hroot & Hacc).
  fold cp in Hdrop. rewrite Hroot. split.
  - rewrite Hdrop, Hacc, Ascii.eqb_refl. now apply bool_decide_eq_true.
  - intros Hcp. rewrite Hacc. destruct word as [|c w].
    { destruct (common_prefix_spec _ _ Hlt) as (_ & H & _). cbn in H. lia. }
    destruct (Ascii.eqb c0 c).
    + apply bool_decide_eq_false. intros ->.
      apply (f_equal length) in Hdrop. rewrite length_drop in Hdrop.
      cbn [length] in Hdrop. lia.
    + destruct (accepts g (_root g) (c :: w)) eqn:E; [|reflexivity].
      exfalso. apply Hh in E. now apply (build_above words g (c :: w) Hb).
Qed.

Lemma insert_after_finish_witness :
  let g := finish (match insert_all [chars "ab"] Dawg_new with
                   | Returned g => g
                   | Raised _ => Dawg_new
                   end) in
  let g' := match insert (chars "ac") g with
            | Returned g' => g'
            | Raised _ => Dawg_new
            end in
  accepts g' (_root g') (chars "c") = true /\
  accepts g' (_root g') (chars "ac") = false.
Proof.
  intros g g'.
  destruct (insert_after_finish [chars "ab"] g (chars "ac") g') as [H1 H2].
  - vm_compute. reflexivity.
  - vm_compute. reflexivity.
  - split; [exact H1|]. apply H2. vm_compute. lia.
Defined.

(** X22: whatever the cost functions and the budget (negative costs
    included), when [is_match] holds of the state reached on [text] the
    weighted edit distance between the pattern and [text] is at most the
    budget: the automaton reports no match that the table does not have. *)
Theorem is_match_within_budget (self : SparseLevenshteinAutomaton)
    (text : str) :
  is_match self (run self text) = true ->
  weighted_distance (_icost self) (_dcost self) (_rcost self) (_str self)
    text <= _d self.
Proof. apply is_match_sound. Qed.

Lemma is_match_within_budget_witness :
  weighted_distance
    (unary_cost (CostTable [("a"%char, 0)])) (unary_cost CostNone)
    (replace_cost_fun CostNone) (chars "ab") (chars "aab") <= 0.
Proof.
  apply (is_match_within_budget
           (new_automaton (chars "ab") 0 (CostTable [("a"%char, 0)]) CostNone
              CostNone)
           (chars "aab")).
  vm_compute. reflexivity.
Defined.

(** X23: the search is sound before [finish] too: on the builder reached
    by inserting a list of words into a fresh [Dawg], with the last branch
    still pending, it returns, and every word it returns is one of the
    inserted words, at a weighted edit distance from the query that is at
    most the budget. *)
Theorem levenshtein_search_sound_unfinished (words : list str) (g : Dawg)
    (query : str) (max_distance : Z) (icost dcost : cost_arg ascii)
    (rcost : cost_arg (ascii * ascii)) :
  insert_all words Dawg_new = Returned g ->
  exists r,
    levenshtein_search g query max_distance icost dcost rcost = Some r /\
    forall w, w ∈ r ->
      w ∈ words /\
      weighted_distance (unary_cost icost) (unary_cost dcost)
        (replace_cost_fun rcost) query w <= max_distance.
Proof.
  intros Hb. destruct stable_new as [Hst Hh].
  destruct (insert_all_spec words Dawg_new g [] Hst Hh Hb)
    as ((Hinv & _) & Hholds & _).
  unfold levenshtein_search.
  set (self := new_automaton query max_distance icost dcost rcost).
  destruct (search_loop_sound self g Hinv (search_fuel g)
              [([], _root g, start_state self)] [] [])
    as (r & Hr & Hok).
  - unfold search_fuel. simpl. lia.
  - constructor; [|constructor]. split; reflexivity.
  - constructor.
  - exists r. split; [exact Hr|]. intros w Hw.
    rewrite Forall_forall in Hok. destruct (Hok w Hw) as [Hacc Hmatch].
    split; [now apply Hholds|].
    apply (is_match_sound self w Hmatch).
Qed.

Lemma levenshtein_search_sound_unfinished_witness :
  exists r,
    levenshtein_search
      (match insert_all [chars "ab"; chars "bb"] Dawg_new with
       | Returned g => g
       | Raised _ => Dawg_new
       end) (chars "ab") 1 CostNone CostNone CostNone = Some r /\
    forall w, w ∈ r ->
      w ∈ [chars "ab"; chars "bb"] /\
      weighted_distance (unary_cost CostNone) (unary_cost CostNone)
        (replace_cost_fun CostNone) (chars "ab") w <= 1.
Proof.
  apply (levenshtein_search_sound_unfinished [chars "ab"; chars "bb"]).
  vm_compute. reflexivity.
Defined.

(** X24: [finish] is not needed for the words to be there: after any run
    of successful inserts into a fresh [Dawg] the graph accepts from its
    root exactly the words inserted so far, and [finish] then changes
    neither the root nor the words accepted from any node. *)
Theorem inserted_words_accepted (words : list str) (g : Dawg) :
  insert_all words Dawg_new = Returned g ->
  (forall w, accepts g (_root g) w = true <-> w ∈ words) /\
  _root (finish g) = _root g /\
  (forall w x, accepts (finish g) x w = accepts g x w).
Proof.
  intros Hb. destruct stable_new as [Hst Hh].
  destruct (insert_all_spec words Dawg_new g [] Hst Hh Hb)
    as ((Hinv & _) & Hholds & _).
  split; [exact Hholds|]. split.
  - unfold finish. now destruct (minimize_fields 0 g) as (_ & -> & _).
  - now apply accepts_minimize.
Qed.

Lemma inserted_words_accepted_witness :
  let g := match insert_all [chars "ab"; chars "bb"] Dawg_new with
           | Returned g => g
           | Raised _ => Dawg_new
           end in
  (forall w, accepts g (_root g) w = true <-> w ∈ [chars "ab"; chars "bb"]) /\
  _root (finish g) = _root g /\
  (forall w x, accepts (finish g) x w = accepts g x w).
Proof.
  apply (inserted_words_accepted [chars "ab"; chars "bb"]).
  vm_compute. reflexivity.
Defined.
